(** * block_data_save: a chain of statistic blocks (src/main.go)

    A shallow embedding of the Go program: the statistics functions over
    [float64] (IEEE 754 binary64, here Rocq's primitive floats), the block
    fingerprint ([fmt.Sprintf], SHA-256, hex), and the chain operations
    [NewBlockchain] and [AddBlock].

    Conventions of the embedding.
    - A [float64] is a [PrimFloat.float]; every arithmetic operation rounds
      to nearest-even exactly as the Go operation does (no fused
      multiply-add, as on amd64).
    - A Go [int] and [int64] are [Z] with the 64-bit wrap-around written out.
    - A Go [string] is a sequence of bytes: a Rocq [string].
    - A slice is the list of its elements; each batch handed to [AddBlock]
      is a slice of its own, as [generateValuesAndAddToBlockchain] builds it.
    - [time.Now()] is an input of the operation that reads the clock.
    - The four goroutines of [calculateBlockStats] are not synchronised with
      each other, only joined: the order in which they run is an input (a
      schedule), each goroutine body running as one step.
    - A run-time panic is a result of its own. *)

From Stdlib Require Import ZArith List Bool String Ascii Floats Uint63 Lia.
From Stdlib Require Import Permutation Sorted DecimalString.
From Stdlib Require DecimalPos.
Import ListNotations.

Local Open Scope Z_scope.

(** ** Results: a value or a run-time panic *)

Inductive runtime_panic : Type :=
| IndexOutOfRange (index len : Z).

Inductive outcome (A : Type) : Type :=
| Done (a : A)
| Panicked (p : runtime_panic).
Arguments Done {A} a.
Arguments Panicked {A} p.

Definition bind {A B : Type} (m : outcome A) (k : A -> outcome B) : outcome B :=
  match m with
  | Done a => k a
  | Panicked p => Panicked p
  end.

Notation "x <- m ;; k" := (bind m (fun x => k))
  (at level 61, m at next level, right associativity).

(** ** Machine integers *)

Definition wrap64 (z : Z) : Z := (z + 2 ^ 63) mod 2 ^ 64 - 2 ^ 63.

(** [len(s)] as a Go [int]. *)
Definition len {A : Type} (s : list A) : Z := Z.of_nat (List.length s).

(** [s[i]], with Go's bounds check. *)
Definition at_index {A : Type} (s : list A) (i : Z) : outcome A :=
  if (i <? 0) || (len s <=? i) then Panicked (IndexOutOfRange i (len s))
  else match nth_error s (Z.to_nat i) with
       | Some a => Done a
       | None => Panicked (IndexOutOfRange i (len s))
       end.

(** ** float64 *)

Definition float64 : Type := PrimFloat.float.

(** [float64(n)] for an [int] n that is not negative. *)
Definition float64_of_int (n : Z) : float64 := PrimFloat.of_uint63 (Uint63.of_Z n).

(** [math.IsNaN]. *)
Definition isNaN (x : float64) : bool := PrimFloat.is_nan x.

(** The order [sort.Float64s] sorts by: [<], with not-a-number values
    before every other value. *)
Definition lessFloat64 (x y : float64) : bool :=
  (x <? y)%float || (isNaN x && negb (isNaN y)).

(** [sort.Float64s]: the insertion sort Go runs on a slice of at most twelve
    elements.  Element [i] sinks leftwards past each element it is [less]
    than; the prefix already sorted is kept in reverse, its last element
    first.  (Longer slices go through Go's pattern-defeating quicksort, whose
    result is sorted by the same order and holds the same elements; it can
    differ from this one only in where it leaves -0 relative to +0.) *)
Fixpoint sink (x : float64) (rev_prefix : list float64) : list float64 :=
  match rev_prefix with
  | [] => [x]
  | y :: r => if lessFloat64 x y then y :: sink x r else x :: y :: r
  end.

Definition sort_Float64s (values : list float64) : list float64 :=
  rev (fold_left (fun rev_prefix x => sink x rev_prefix) values []).

(** ** Statistics Engine *)

Definition calculateMean (values : list float64) : float64 :=
  (fold_left (fun sum value => sum + value) values 0
   / float64_of_int (len values))%float.

(** [calculateMedian] sorts the slice it is given in place: the sorted slice
    is returned with the median. *)
Definition calculateMedian (values : list float64) : outcome (list float64 * float64) :=
  let values := sort_Float64s values in
  let n := len values in
  if Z.rem n 2 =? 0 then
    a <- at_index values (Z.quot n 2 - 1) ;;
    b <- at_index values (Z.quot n 2) ;;
    Done (values, ((a + b) / 2)%float)
  else
    m <- at_index values (Z.quot n 2) ;;
    Done (values, m).

Definition calculateVariance (values : list float64) (mean : float64) : float64 :=
  (fold_left (fun sumSquaredDiff value =>
                let diff := value - mean in
                sumSquaredDiff + diff * diff) values 0
   / float64_of_int (len values))%float.

Definition calculateTwoSDRange (values : list float64) : float64 * float64 :=
  let mean := calculateMean values in
  let variance := calculateVariance values mean in
  let stdDev := PrimFloat.sqrt variance in
  ((mean - 2 * stdDev)%float, (mean + 2 * stdDev)%float).

(** The loop appends in iteration order: a filter. *)
Definition calculateOutliers (values : list float64) (lowerBound upperBound : float64)
  : list float64 :=
  filter (fun value => (value <? lowerBound)%float || (upperBound <? value)%float) values.

(** ** Text of numbers: [fmt] and [strconv] *)

Module strconv.

Local Open Scope string_scope.
Local Open Scope Z_scope.

(** [%d]. *)
Definition format_d (z : Z) : string := NilZero.string_of_int (Z.to_int z).

Fixpoint zeros (n : nat) : string :=
  match n with
  | O => ""
  | S n' => "0" ++ zeros n'
  end.

(** The decimal digits of a natural number, at least [width] of them. *)
Definition digits_padded (width : nat) (z : Z) : string :=
  let d := format_d z in
  zeros (width - String.length d) ++ d.

(** [num / den] rounded to the nearest integer, a tie to the even one. *)
Definition round_half_even (num den : Z) : Z :=
  let q := num / den in
  match 2 * (num mod den) ?= den with
  | Lt => q
  | Gt => q + 1
  | Eq => if Z.even q then q else q + 1
  end.

(** [%f] of the finite value [m * 2^e]: six digits after the point, the
    exact binary value rounded half-even. *)
Definition fixed6 (m : positive) (e : Z) : string :=
  let q := if 0 <=? e then Zpos m * 2 ^ e * 10 ^ 6
           else round_half_even (Zpos m * 10 ^ 6) (2 ^ (- e)) in
  format_d (q / 10 ^ 6) ++ "." ++ digits_padded 6 (q mod 10 ^ 6).

Definition sign_text (s : bool) : string := if s then "-" else "".

Definition format_f (x : float64) : string :=
  match Prim2SF x with
  | S754_nan => "NaN"
  | S754_infinity s => if s then "-Inf" else "+Inf"
  | S754_zero s => sign_text s ++ "0.000000"
  | S754_finite s m e => sign_text s ++ fixed6 m e
  end.

(** *** The shortest decimal that reads back as the same float64

    [v = V/D] is the value, [L/D] and [U/D] are the midpoints to the next
    float64 below and above; a decimal between them rounds to [v], the
    midpoints themselves doing so when [inclusive] (the mantissa is even).
    Going down the decimal positions [10^p], the first position at which
    [v] cut or rounded up to that position stays between the midpoints gives
    the digits; when both do, the nearer one, a tie to the even digit. *)

Definition compare_at (p c D B : Z) : comparison :=
  (* c * 10^p against B/D *)
  if 0 <=? p then (c * 10 ^ p * D ?= B) else (c * D ?= B * 10 ^ (- p)).

Definition cut_at (p V D : Z) : Z :=
  (* floor of (V/D) / 10^p *)
  if 0 <=? p then V / (D * 10 ^ p) else (V * 10 ^ (- p)) / D.

Fixpoint shortest_from (fuel : nat) (p V L U D : Z) (inclusive : bool) : Z * Z :=
  match fuel with
  | O => (cut_at p V D, p)
  | S fuel' =>
      let q := cut_at p V D in
      let okdown := match compare_at p q D L with
                    | Gt => true | Eq => inclusive | Lt => false end in
      let okup := match compare_at p (q + 1) D U with
                  | Lt => true | Eq => inclusive | Gt => false end in
      if okdown && okup then
        let nearer_up :=
          match (if 0 <=? p then (2 * V ?= (2 * q + 1) * 10 ^ p * D)
                 else (2 * V * 10 ^ (- p) ?= (2 * q + 1) * D)) with
          | Lt => false
          | Gt => true
          | Eq => Z.odd q
          end in
        ((if nearer_up then q + 1 else q), p)
      else if okdown then (q, p)
      else if okup then (q + 1, p)
      else shortest_from fuel' (p - 1) V L U D inclusive
  end.

(** Trailing zeros of the digits move into the exponent. *)
Fixpoint trim (fuel : nat) (n p : Z) : Z * Z :=
  match fuel with
  | O => (n, p)
  | S fuel' => if (n =? 0) || negb (n mod 10 =? 0) then (n, p)
               else trim fuel' (n / 10) (p + 1)
  end.

(** The digits [n] and the position [p] of the last one: [m * 2^e] reads
    [n * 10^p]. *)
Definition shortest (m : positive) (e : Z) : Z * Z :=
  let boundary := (Zpos m =? 2 ^ 52) && (-1074 <? e) in
  let k := e - 2 in
  let scale := if 0 <=? k then 2 ^ k else 1 in
  let D := if 0 <=? k then 1 else 2 ^ (- k) in
  let V := 4 * Zpos m * scale in
  let U := (4 * Zpos m + 2) * scale in
  let L := (if boundary then 4 * Zpos m - 1 else 4 * Zpos m - 2) * scale in
  (* a position above the first digit: v < 2^(bits + e) < 10^top *)
  let top := (Z.log2 (Zpos m) + 1 + e) * 30103 / 100000 + 2 in
  let '(n, p) := shortest_from 1400 top V L U D (Z.even (Zpos m)) in
  trim 400 n p.

Definition substring_from (i : nat) (s : string) : string :=
  String.substring i (String.length s - i) s.

(** [%e] with the digits given: [d.ddde+XX]. *)
Definition format_e (digits : string) (exp : Z) : string :=
  String.substring 0 1 digits
  ++ (if (1 <? String.length digits)%nat then "." ++ substring_from 1 digits else "")
  ++ "e" ++ (if exp <? 0 then "-" else "+")
  ++ digits_padded 2 (Z.abs exp).

(** [%f] with the digits given and [dp] of them before the point. *)
Definition format_digits_f (digits : string) (dp : Z) : string :=
  let nd := Z.of_nat (String.length digits) in
  (if 0 <? dp then
     String.substring 0 (Z.to_nat (Z.min nd dp)) digits ++ zeros (Z.to_nat (dp - nd))
   else "0")
  ++ (if dp <? nd then
        "." ++ zeros (Z.to_nat (- dp)) ++ substring_from (Z.to_nat (Z.max dp 0)) digits
      else "").

(** [%v] of a float64 is [%g] with the shortest digits; the exponent form
    is taken below 1e-4 and from 1e6 on. *)
Definition format_g (x : float64) : string :=
  match Prim2SF x with
  | S754_nan => "NaN"
  | S754_infinity s => if s then "-Inf" else "+Inf"
  | S754_zero s => sign_text s ++ "0"
  | S754_finite s m e =>
      let '(n, p) := shortest m e in
      let digits := format_d n in
      let dp := Z.of_nat (String.length digits) + p in
      let exp := dp - 1 in
      sign_text s ++
      (if (exp <? -4) || (6 <=? exp) then format_e digits exp
       else format_digits_f digits dp)
  end.

Fixpoint join (sep : string) (l : list string) : string :=
  match l with
  | [] => ""
  | [s] => s
  | s :: l' => s ++ sep ++ join sep l'
  end.

(** [%v] of a [[]float64]. *)
Definition format_v (values : list float64) : string :=
  "[" ++ join " " (map format_g values) ++ "]".

End strconv.

(** ** crypto/sha256 and encoding/hex *)

Module sha256.

(** A [uint32] is a [Z] below 2^32; additions wrap. *)
Definition u32 (z : Z) : Z := z mod 2 ^ 32.
Definition add32 (x y : Z) : Z := u32 (x + y).
Definition rotr (n x : Z) : Z := Z.lor (Z.shiftr x n) (u32 (Z.shiftl x (32 - n))).
Definition not32 (x : Z) : Z := Z.lxor x (2 ^ 32 - 1).

Definition ch (e f g : Z) : Z := Z.lxor (Z.land e f) (Z.land (not32 e) g).
Definition maj (a b c : Z) : Z :=
  Z.lxor (Z.lxor (Z.land a b) (Z.land a c)) (Z.land b c).
Definition bsig0 (a : Z) : Z := Z.lxor (Z.lxor (rotr 2 a) (rotr 13 a)) (rotr 22 a).
Definition bsig1 (e : Z) : Z := Z.lxor (Z.lxor (rotr 6 e) (rotr 11 e)) (rotr 25 e).
Definition ssig0 (v : Z) : Z := Z.lxor (Z.lxor (rotr 7 v) (rotr 18 v)) (Z.shiftr v 3).
Definition ssig1 (v : Z) : Z := Z.lxor (Z.lxor (rotr 17 v) (rotr 19 v)) (Z.shiftr v 10).

Definition _K : list Z :=
  0x428a2f98 :: 0x71374491 :: 0xb5c0fbcf :: 0xe9b5dba5 ::
  0x3956c25b :: 0x59f111f1 :: 0x923f82a4 :: 0xab1c5ed5 ::
  0xd807aa98 :: 0x12835b01 :: 0x243185be :: 0x550c7dc3 ::
  0x72be5d74 :: 0x80deb1fe :: 0x9bdc06a7 :: 0xc19bf174 ::
  0xe49b69c1 :: 0xefbe4786 :: 0x0fc19dc6 :: 0x240ca1cc ::
  0x2de92c6f :: 0x4a7484aa :: 0x5cb0a9dc :: 0x76f988da ::
  0x983e5152 :: 0xa831c66d :: 0xb00327c8 :: 0xbf597fc7 ::
  0xc6e00bf3 :: 0xd5a79147 :: 0x06ca6351 :: 0x14292967 ::
  0x27b70a85 :: 0x2e1b2138 :: 0x4d2c6dfc :: 0x53380d13 ::
  0x650a7354 :: 0x766a0abb :: 0x81c2c92e :: 0x92722c85 ::
  0xa2bfe8a1 :: 0xa81a664b :: 0xc24b8b70 :: 0xc76c51a3 ::
  0xd192e819 :: 0xd6990624 :: 0xf40e3585 :: 0x106aa070 ::
  0x19a4c116 :: 0x1e376c08 :: 0x2748774c :: 0x34b0bcb5 ::
  0x391c0cb3 :: 0x4ed8aa4a :: 0x5b9cca4f :: 0x682e6ff3 ::
  0x748f82ee :: 0x78a5636f :: 0x84c87814 :: 0x8cc70208 ::
  0x90befffa :: 0xa4506ceb :: 0xbef9a3f7 :: 0xc67178f2 ::
  nil.

(** The eight chaining words. *)
Record digest : Type := mkDigest {
  h0 : Z; h1 : Z; h2 : Z; h3 : Z; h4 : Z; h5 : Z; h6 : Z; h7 : Z }.

Definition init : digest :=
  mkDigest 0x6a09e667 0xbb67ae85 0x3c6ef372 0xa54ff53a
           0x510e527f 0x9b05688c 0x1f83d9ab 0x5be0cd19.

(** The message: ascii bytes, then the padding: 0x80, zeros up to 56 modulo
    64, and the length in bits as eight big-endian bytes. *)
Definition bytes_of_string (s : string) : list Z :=
  map (fun c => Z.of_N (N_of_ascii c)) (list_ascii_of_string s).

Definition be_bytes (count : nat) (z : Z) : list Z :=
  map (fun i => Z.shiftr z (8 * Z.of_nat i) mod 256) (rev (seq 0 count)).

Definition pad (msg : list Z) : list Z :=
  let n := len msg in
  msg ++ [128] ++ repeat 0 (Z.to_nat ((55 - n) mod 64)) ++ be_bytes 8 (8 * n).

Definition be_word (b3 b2 b1 b0 : Z) : Z :=
  Z.lor (Z.lor (Z.shiftl b3 24) (Z.shiftl b2 16)) (Z.lor (Z.shiftl b1 8) b0).

(** The first sixteen words of the schedule, from a chunk of 64 bytes. *)
Fixpoint words (chunk : list Z) : list Z :=
  match chunk with
  | b3 :: b2 :: b1 :: b0 :: rest => be_word b3 b2 b1 b0 :: words rest
  | _ => []
  end.

(** The schedule grows at its head: [rev_w] holds w[i-1], w[i-2], ... *)
Fixpoint extend (count : nat) (rev_w : list Z) : list Z :=
  match count with
  | O => rev_w
  | S count' =>
      let w_i := add32 (add32 (add32 (ssig1 (nth 1 rev_w 0)) (nth 6 rev_w 0))
                              (ssig0 (nth 14 rev_w 0))) (nth 15 rev_w 0) in
      extend count' (w_i :: rev_w)
  end.

Definition schedule (chunk : list Z) : list Z := rev (extend 48 (rev (words chunk))).

Definition round (d : digest) (kw : Z * Z) : digest :=
  let '(k, w) := kw in
  let t1 := add32 (add32 (add32 (add32 (h7 d) (bsig1 (h4 d))) (ch (h4 d) (h5 d) (h6 d))) k) w in
  let t2 := add32 (bsig0 (h0 d)) (maj (h0 d) (h1 d) (h2 d)) in
  mkDigest (add32 t1 t2) (h0 d) (h1 d) (h2 d) (add32 (h3 d) t1) (h4 d) (h5 d) (h6 d).

Definition block (d : digest) (chunk : list Z) : digest :=
  let r := fold_left round (combine _K (schedule chunk)) d in
  mkDigest (add32 (h0 d) (h0 r)) (add32 (h1 d) (h1 r)) (add32 (h2 d) (h2 r))
           (add32 (h3 d) (h3 r)) (add32 (h4 d) (h4 r)) (add32 (h5 d) (h5 r))
           (add32 (h6 d) (h6 r)) (add32 (h7 d) (h7 r)).

Fixpoint blocks (count : nat) (d : digest) (p : list Z) : digest :=
  match count with
  | O => d
  | S count' => blocks count' (block d (firstn 64 p)) (skipn 64 p)
  end.

(** [sha256.Sum256]: the 32 bytes of the digest. *)
Definition Sum256 (data : list Z) : list Z :=
  let p := pad data in
  let d := blocks (List.length p / 64) init p in
  be_bytes 4 (h0 d) ++ be_bytes 4 (h1 d) ++ be_bytes 4 (h2 d) ++ be_bytes 4 (h3 d) ++
  be_bytes 4 (h4 d) ++ be_bytes 4 (h5 d) ++ be_bytes 4 (h6 d) ++ be_bytes 4 (h7 d).

End sha256.

Module hex.

Definition hextable : string := "0123456789abcdef".

Definition digit (n : Z) : ascii :=
  match String.get (Z.to_nat n) hextable with
  | Some c => c
  | None => "0"%char
  end.

(** [hex.EncodeToString]: two digits a byte, the high one first. *)
Fixpoint EncodeToString (src : list Z) : string :=
  match src with
  | [] => EmptyString
  | v :: rest => String (digit (Z.shiftr v 4)) (String (digit (Z.land v 15)) (EncodeToString rest))
  end.

End hex.

(** ** Blocks *)

(** A [time.Time]: the seconds since the epoch that [Unix()] returns, and
    the nanoseconds within that second. *)
Record Time : Type := mkTime { Unix : Z; Nanosecond : Z }.

Record Block : Type := mkBlock {
  Index : Z;
  Timestamp : Time;
  Values : list float64;
  Hash : string;
  PrevHash : string;
  Mean : float64;
  Median : float64;
  TwoSDLower : float64;
  TwoSDUpper : float64;
  Outliers : list float64
}.

Definition set_Hash (b : Block) (h : string) : Block :=
  mkBlock (Index b) (Timestamp b) (Values b) h (PrevHash b)
          (Mean b) (Median b) (TwoSDLower b) (TwoSDUpper b) (Outliers b).

Definition set_Mean (b : Block) (m : float64) : Block :=
  mkBlock (Index b) (Timestamp b) (Values b) (Hash b) (PrevHash b)
          m (Median b) (TwoSDLower b) (TwoSDUpper b) (Outliers b).

(** What the median goroutine leaves: the slice sorted, the median set. *)
Definition set_Median (b : Block) (sorted : list float64) (m : float64) : Block :=
  mkBlock (Index b) (Timestamp b) sorted (Hash b) (PrevHash b)
          (Mean b) m (TwoSDLower b) (TwoSDUpper b) (Outliers b).

Definition set_TwoSD (b : Block) (bounds : float64 * float64) : Block :=
  mkBlock (Index b) (Timestamp b) (Values b) (Hash b) (PrevHash b)
          (Mean b) (Median b) (fst bounds) (snd bounds) (Outliers b).

Definition set_Outliers (b : Block) (o : list float64) : Block :=
  mkBlock (Index b) (Timestamp b) (Values b) (Hash b) (PrevHash b)
          (Mean b) (Median b) (TwoSDLower b) (TwoSDUpper b) o.

(** [fmt.Sprintf("%d%d%v%s%f%f%f%f%v", ...)]. *)
Definition blockData (block : Block) : string :=
  (strconv.format_d (Index block) ++
   strconv.format_d (Unix (Timestamp block)) ++
   strconv.format_v (Values block) ++
   PrevHash block ++
   strconv.format_f (Mean block) ++
   strconv.format_f (Median block) ++
   strconv.format_f (TwoSDLower block) ++
   strconv.format_f (TwoSDUpper block) ++
   strconv.format_v (Outliers block))%string.

Definition calculateHash (block : Block) : string :=
  hex.EncodeToString (sha256.Sum256 (sha256.bytes_of_string (blockData block))).

(** ** The four goroutines of calculateBlockStats *)

Inductive goroutine : Type :=
| GoMean
| GoMedian
| GoTwoSDRange
| GoOutliers.

(** In the order of the [go] statements. *)
Definition goroutines : list goroutine := [GoMean; GoMedian; GoTwoSDRange; GoOutliers].

(** The body of one goroutine, on the block as it is when the goroutine runs. *)
Definition run (g : goroutine) (block : Block) : outcome Block :=
  match g with
  | GoMean => Done (set_Mean block (calculateMean (Values block)))
  | GoMedian =>
      r <- calculateMedian (Values block) ;;
      Done (set_Median block (fst r) (snd r))
  | GoTwoSDRange => Done (set_TwoSD block (calculateTwoSDRange (Values block)))
  | GoOutliers =>
      Done (set_Outliers block
              (calculateOutliers (Values block) (TwoSDLower block) (TwoSDUpper block)))
  end.

(** [calculateBlockStats]: the goroutines in the order the scheduler ran
    them; [wg.Wait()] returns after the last.  A panic in a goroutine ends
    the program. *)
Fixpoint calculateBlockStats (schedule : list goroutine) (block : Block) : outcome Block :=
  match schedule with
  | [] => Done block
  | g :: rest => b <- run g block ;; calculateBlockStats rest b
  end.

(** ** The chain *)

(** The [chain] field of a [Blockchain]; its mutex is in [Module Locked]. *)
Definition Blockchain : Type := list Block.

Definition OUTLIER_BLOCK_HASH : string := "OUTLITER_BLOCK_HASH".

Definition NewBlockchain (now : Time) : Blockchain :=
  let genesisBlock := mkBlock 0 now [] "" "" 0%float 0%float 0%float 0%float [] in
  [set_Hash genesisBlock (calculateHash genesisBlock)].

(** The body of the loop of [markBlocksWithOutliers]. *)
Definition mark (block : Block) : Block :=
  if 0 <? len (Outliers block) then set_Hash block OUTLIER_BLOCK_HASH else block.

Definition markBlocksWithOutliers (chain : Blockchain) : Blockchain := map mark chain.

(** [AddBlock], between [Lock] and [Unlock].  The block is appended after
    the marking pass and after its hash is set; [saveBlock], started last,
    only reads the block. *)
Definition AddBlock (schedule : list goroutine) (now : Time) (values : list float64)
           (bc : Blockchain) : outcome Blockchain :=
  prevBlock <- at_index bc (len bc - 1) ;;
  let newBlock := mkBlock (wrap64 (Index prevBlock + 1)) now values ""
                          (Hash prevBlock) 0%float 0%float 0%float 0%float [] in
  newBlock <- calculateBlockStats schedule newBlock ;;
  let chain := markBlocksWithOutliers bc in
  let newBlock := set_Hash newBlock (calculateHash newBlock) in
  Done (chain ++ [newBlock]).

(** The chains the program builds: [NewBlockchain], then calls of
    [AddBlock] that return, each under some order of the goroutines. *)
Inductive reachable : Blockchain -> Prop :=
| reachable_new (now : Time) : reachable (NewBlockchain now)
| reachable_add (bc bc' : Blockchain) (schedule : list goroutine) (now : Time)
                (values : list float64) :
    reachable bc ->
    Permutation schedule goroutines ->
    AddBlock schedule now values bc = Done bc' ->
    reachable bc'.

(** * Notions the statements use *)

(** ** The orders of the four goroutines *)

Definition goroutine_eq_dec (g h : goroutine) : {g = h} + {g <> h}.
Proof. decide equality. Defined.

Definition schedules : list (list goroutine) :=
  [ [GoMean; GoMedian; GoTwoSDRange; GoOutliers]; [GoMean; GoMedian; GoOutliers; GoTwoSDRange];
    [GoMean; GoTwoSDRange; GoMedian; GoOutliers]; [GoMean; GoTwoSDRange; GoOutliers; GoMedian];
    [GoMean; GoOutliers; GoMedian; GoTwoSDRange]; [GoMean; GoOutliers; GoTwoSDRange; GoMedian];
    [GoMedian; GoMean; GoTwoSDRange; GoOutliers]; [GoMedian; GoMean; GoOutliers; GoTwoSDRange];
    [GoMedian; GoTwoSDRange; GoMean; GoOutliers]; [GoMedian; GoTwoSDRange; GoOutliers; GoMean];
    [GoMedian; GoOutliers; GoMean; GoTwoSDRange]; [GoMedian; GoOutliers; GoTwoSDRange; GoMean];
    [GoTwoSDRange; GoMean; GoMedian; GoOutliers]; [GoTwoSDRange; GoMean; GoOutliers; GoMedian];
    [GoTwoSDRange; GoMedian; GoMean; GoOutliers]; [GoTwoSDRange; GoMedian; GoOutliers; GoMean];
    [GoTwoSDRange; GoOutliers; GoMean; GoMedian]; [GoTwoSDRange; GoOutliers; GoMedian; GoMean];
    [GoOutliers; GoMean; GoMedian; GoTwoSDRange]; [GoOutliers; GoMean; GoTwoSDRange; GoMedian];
    [GoOutliers; GoMedian; GoMean; GoTwoSDRange]; [GoOutliers; GoMedian; GoTwoSDRange; GoMean];
    [GoOutliers; GoTwoSDRange; GoMean; GoMedian]; [GoOutliers; GoTwoSDRange; GoMedian; GoMean] ].

(** ** Blocks, digests and chains *)

Definition shell (prevBlock : Block) (now : Time) (values : list float64) : Block :=
  mkBlock (wrap64 (Index prevBlock + 1)) now values "" (Hash prevBlock)
          0%float 0%float 0%float 0%float [].


Record chain_inv (bc : Blockchain) : Prop := {
  inv_last : exists init lastBlock,
      bc = init ++ [lastBlock] /\ Hash lastBlock = calculateHash lastBlock;
  inv_hash : forall n b, nth_error bc n = Some b ->
      Hash b = calculateHash b \/ (Outliers b <> [] /\ Hash b = OUTLIER_BLOCK_HASH);
  inv_index : forall n b, nth_error bc n = Some b -> Index b = wrap64 (Z.of_nat n);
  inv_link : forall n p b, nth_error bc n = Some p -> nth_error bc (S n) = Some b ->
      PrevHash b = calculateHash p
}.

Definition same_but_Hash (b b' : Block) : Prop :=
  Index b' = Index b /\ Timestamp b' = Timestamp b /\ Values b' = Values b /\
  PrevHash b' = PrevHash b /\ Mean b' = Mean b /\ Median b' = Median b /\
  TwoSDLower b' = TwoSDLower b /\ TwoSDUpper b' = TwoSDUpper b /\
  Outliers b' = Outliers b.

(** The claim: once a block with outliers is appended, every block with
    outliers in the chain, the new one included, carries the sentinel. *)
Definition every_outlier_block_marked (bc : Blockchain) : Prop :=
  forall b, In b bc -> Outliers b <> [] -> Hash b = OUTLIER_BLOCK_HASH.

(** ** The order of float64 *)

(** Every finite float64 is a multiple of 2^-1074: its key is that
    multiple.  The infinities lie beyond every finite key, and NaN, which
    [sort.Float64s] puts first, below everything. *)
Definition key_inf : Z := 2 ^ 2200.

Definition SFkey (x : spec_float) : Z :=
  match x with
  | S754_nan => - key_inf - 1
  | S754_infinity s => if s then - key_inf else key_inf
  | S754_zero _ => 0
  | S754_finite s m e => if s then - (Zpos m * 2 ^ (e + 1074)) else Zpos m * 2 ^ (e + 1074)
  end.

Definition key (x : float64) : Z := SFkey (Prim2SF x).

(** Ascending in the order Go sorts by: no element is [less] than one
    before it. *)
Definition ascending (values : list float64) : Prop :=
  StronglySorted (fun a b => lessFloat64 b a = false) values.

Definition descending_keys (r : list float64) : Prop :=
  StronglySorted (fun a b => key b <= key a) r.

(** Go's [==], extended to NaN against NaN. *)
Definition float64_eq (x y : float64) : bool :=
  (x =? y)%float || (isNaN x && isNaN y).

(** The same value, up to the sign of zero. *)
Definition SFsame (x y : spec_float) : Prop :=
  x = y \/ exists s s', x = S754_zero s /\ y = S754_zero s'.

(** ** Rounding *)

(** After [k] shifts of [M]: the quotient by 2^k, and the two flags are
    both clear exactly when nothing but zeros was shifted out. *)
Definition shifted (M k : Z) (mrs : shr_record) : Prop :=
  shr_m mrs = M / 2 ^ k /\
  (orb (shr_r mrs) (shr_s mrs) = false <-> M mod 2 ^ k = 0).

(** The value [V] (in units of 2^-1074) rounds to [r], of sign [sx]:
    [r] is a neighbour [Q] of [V] on the grid of step 2^f, the lower one
    [Qlo] when [V] is on the grid; an exponent above 971 overflows. *)
Definition rounds_to (V : Z) (sx : bool) (r : spec_float) : Prop :=
  exists f Qlo Q m' e',
    -1074 <= f /\
    Qlo * 2 ^ (f + 1074) <= V < (Qlo + 1) * 2 ^ (f + 1074) /\
    (Q = Qlo \/ (Q = Qlo + 1 /\ Qlo * 2 ^ (f + 1074) < V)) /\
    (f = -1074 \/ 2 ^ 52 <= Qlo) /\
    ((Zpos m' = Q /\ e' = f) \/ (Q = 2 ^ 53 /\ Zpos m' = 2 ^ 52 /\ e' = f + 1)) /\
    r = (if e' <=? 971 then S754_finite sx m' e' else S754_infinity sx).

(** Zero or finite: what [is_finite] says. *)
Definition SFfinite (x : spec_float) : Prop :=
  match x with
  | S754_zero _ | S754_finite _ _ _ => True
  | _ => False
  end.

(** Not negative and no NaN; +Inf is allowed. *)
Definition SFnonneg (x : spec_float) : Prop :=
  match x with
  | S754_zero _ | S754_finite false _ _ | S754_infinity false => True
  | _ => False
  end.

(** Zero, finite or infinite, of sign [sx]. *)
Definition SFsigned (sx : bool) (r : spec_float) : Prop :=
  r = S754_zero sx \/ r = S754_infinity sx \/ exists m e, r = S754_finite sx m e.

(** ** The variance in the words of the specification *)



(** ** Batches and chains for the examples *)

Definition example_time : Time := mkTime 1700000000 0.

(** Twelve samples, two of them outside the band around the mean 0. *)
Definition example_batch : list float64 :=
  [100; 0; 0; 0; 0; 0; 0; 0; 0; 0; 0; -100]%float.

Definition chain_of (r : outcome Blockchain) : Blockchain :=
  match r with
  | Done bc => bc
  | Panicked _ => []
  end.

(** The chain after one append under the order of the [go] statements. *)
Definition example_chain : Blockchain :=
  chain_of (AddBlock goroutines example_time example_batch (NewBlockchain example_time)).

Definition example_genesis : Block :=
  set_Hash (mkBlock 0 example_time [] "" "" 0%float 0%float 0%float 0%float [])
           "605f7b1a7c7a84aee407bd84128443bcf0adbf6e08a01d9eb1b223516f6218ae".

(** A batch as the generator of the program makes them: five samples
    between 0 and 100. *)
Definition generated_batch : list float64 := [50; 10; 30; 20; 40]%float.

Definition odd_batch : list float64 := [3; 1; 2]%float.


(** * Two callers of AddBlock *)

Module Locked.

(** One call of [AddBlock]: what the scheduler and the clock give it, and
    its batch. *)
Record call : Type := mkCall {
  call_schedule : list goroutine;
  call_now : Time;
  call_values : list float64
}.

Definition AddBlock_of (c : call) (bc : Blockchain) : outcome Blockchain :=
  AddBlock (call_schedule c) (call_now c) (call_values c) bc.

(** The statement a caller is about to run. *)
Inductive pc : Type :=
| AtLock      (* bc.mu.Lock() *)
| AtRead      (* prevBlock := bc.chain[len(bc.chain)-1]; newBlock := &Block{...} *)
| AtStats     (* bc.calculateBlockStats(newBlock) *)
| AtMark      (* bc.markBlocksWithOutliers() *)
| AtHash      (* newBlock.Hash = calculateHash(newBlock) *)
| AtAppend    (* bc.chain = append(bc.chain, newBlock) *)
| AtUnlock    (* the deferred bc.mu.Unlock() *)
| Returned.

(** A caller: its program counter and its [newBlock]. *)
Record caller : Type := mkCaller { at_pc : pc; newBlock : Block }.

(** The [Blockchain] struct, and the two goroutines calling [AddBlock]. *)
Record state : Type := mkState {
  chain : Blockchain;
  mu : bool;              (* true: locked *)
  first : caller;
  second : caller
}.

Inductive tid : Type := First | Second.

Definition no_block : Block :=
  mkBlock 0 (mkTime 0 0) [] "" "" 0%float 0%float 0%float 0%float [].

Definition init (bc : Blockchain) : state :=
  mkState bc false (mkCaller AtLock no_block) (mkCaller AtLock no_block).

(** One statement of a caller, on the shared chain and mutex.  [Lock] on a
    locked mutex does not return: the caller stays where it is. *)
Definition statement (c : call) (ch : Blockchain) (locked : bool) (me : caller)
  : outcome (Blockchain * bool * caller) :=
  match at_pc me with
  | AtLock =>
      if locked then Done (ch, locked, me)
      else Done (ch, true, mkCaller AtRead (newBlock me))
  | AtRead =>
      prevBlock <- at_index ch (len ch - 1) ;;
      Done (ch, locked, mkCaller AtStats (shell prevBlock (call_now c) (call_values c)))
  | AtStats =>
      b <- calculateBlockStats (call_schedule c) (newBlock me) ;;
      Done (ch, locked, mkCaller AtMark b)
  | AtMark => Done (markBlocksWithOutliers ch, locked, mkCaller AtHash (newBlock me))
  | AtHash =>
      Done (ch, locked,
            mkCaller AtAppend (set_Hash (newBlock me) (calculateHash (newBlock me))))
  | AtAppend => Done (ch ++ [newBlock me], locked, mkCaller AtUnlock (newBlock me))
  | AtUnlock => Done (ch, false, mkCaller Returned (newBlock me))
  | Returned => Done (ch, locked, me)
  end.

(** The scheduler lets one caller run one statement. *)
Definition step (c1 c2 : call) (s : state) (t : tid) : outcome state :=
  match t with
  | First =>
      r <- statement c1 (chain s) (mu s) (first s) ;;
      Done (mkState (fst (fst r)) (snd (fst r)) (snd r) (second s))
  | Second =>
      r <- statement c2 (chain s) (mu s) (second s) ;;
      Done (mkState (fst (fst r)) (snd (fst r)) (first s) (snd r))
  end.

(** An interleaving: the callers in the order the scheduler picks them. *)
Fixpoint run (c1 c2 : call) (trace : list tid) (s : state) : outcome state :=
  match trace with
  | [] => Done s
  | t :: rest => s' <- step c1 c2 s t ;; run c1 c2 rest s'
  end.

Definition both_returned (s : state) : Prop :=
  at_pc (first s) = Returned /\ at_pc (second s) = Returned.

(** ** The invariant: one caller at a time *)

(** A caller inside its critical section, which it entered on the chain
    [base]: what the chain and its [newBlock] are. *)
Definition inside (c : call) (base : Blockchain) (p : pc) (nb : Block) (ch : Blockchain)
  : Prop :=
  match p with
  | AtRead => ch = base
  | AtStats =>
      ch = base /\
      exists prevBlock, at_index base (len base - 1) = Done prevBlock /\
                        nb = shell prevBlock (call_now c) (call_values c)
  | AtMark =>
      ch = base /\
      exists prevBlock, at_index base (len base - 1) = Done prevBlock /\
        calculateBlockStats (call_schedule c)
          (shell prevBlock (call_now c) (call_values c)) = Done nb
  | AtHash =>
      ch = markBlocksWithOutliers base /\
      exists prevBlock, at_index base (len base - 1) = Done prevBlock /\
        calculateBlockStats (call_schedule c)
          (shell prevBlock (call_now c) (call_values c)) = Done nb
  | AtAppend =>
      ch = markBlocksWithOutliers base /\
      exists prevBlock nb0, at_index base (len base - 1) = Done prevBlock /\
        calculateBlockStats (call_schedule c)
          (shell prevBlock (call_now c) (call_values c)) = Done nb0 /\
        nb = set_Hash nb0 (calculateHash nb0)
  | AtUnlock => AddBlock_of c base = Done ch
  | AtLock | Returned => False
  end.

(** A caller alone on the chain [base]: before, inside or after its call. *)
Definition alone (c : call) (base : Blockchain) (me : caller) (locked : bool)
           (ch : Blockchain) : Prop :=
  match at_pc me with
  | AtLock => locked = false /\ ch = base
  | Returned => locked = false /\ AddBlock_of c base = Done ch
  | p => locked = true /\ inside c base p (newBlock me) ch
  end.

(** The caller [a] goes before the caller [b]. *)
Definition ordered (bc : Blockchain) (ca cb : call) (a b : caller) (locked : bool)
           (ch : Blockchain) : Prop :=
  (at_pc b = AtLock /\ alone ca bc a locked ch) \/
  (at_pc a = Returned /\
   exists base, AddBlock_of ca bc = Done base /\ alone cb base b locked ch).

Definition serial (bc : Blockchain) (c1 c2 : call) (s : state) : Prop :=
  ordered bc c1 c2 (first s) (second s) (mu s) (chain s) \/
  ordered bc c2 c1 (second s) (first s) (mu s) (chain s).

(** The calls one after the other, [ca] first. *)
Definition one_after_the_other (bc : Blockchain) (ca cb : call) (final : Blockchain)
  : Prop :=
  exists mid, AddBlock_of ca bc = Done mid /\ AddBlock_of cb mid = Done final.

(** Two callers on the example chain: the first takes the lock, the second
    asks for it after every statement of the first and gets it at last. *)
Definition example_first : call := mkCall goroutines example_time example_batch.
Definition example_second : call :=
  mkCall (rev goroutines) (mkTime 1700000001 0) generated_batch.
Definition example_trace : list tid :=
  flat_map (fun _ => [First; Second]) (seq 0 7) ++ repeat Second 6.

Definition state_of (r : outcome state) : state :=
  match r with
  | Done s => s
  | Panicked _ => init []
  end.

Definition example_final : state :=
  state_of (run example_first example_second example_trace (init example_chain)).

End Locked.

(** * The generator (src/main.go, generateValuesAndAddToBlockchain) *)

Section Generator.

(** [math/rand]: the state of the source, and [rand.Float64], which returns
    a number and leaves the source in its next state. *)
Variable rng : Type.
Variable Float64 : rng -> float64 * rng.

(** The inner loop, with [count] iterations to go:
    [value := rand.Float64() * 100; values = append(values, value)]. *)
Fixpoint generateValues (count : nat) (values : list float64) (src : rng)
  : list float64 * rng :=
  match count with
  | O => (values, src)
  | S count' =>
      let value := (fst (Float64 src) * 100)%float in
      generateValues count' (values ++ [value]) (snd (Float64 src))
  end.

(** The outer loop does not end.  Here it runs once for each element of
    [ticks]: what the scheduler and the clock give the call of [AddBlock]
    in that iteration, after the five seconds of sleep. *)
Fixpoint generateValuesAndAddToBlockchain (ticks : list (list goroutine * Time))
         (src : rng) (bc : Blockchain) : outcome (Blockchain * rng) :=
  match ticks with
  | [] => Done (bc, src)
  | tick :: rest =>
      let generated := generateValues 5 [] src in
      bc' <- AddBlock (fst tick) (snd tick) (fst generated) bc ;;
      generateValuesAndAddToBlockchain rest (snd generated) bc'
  end.

End Generator.

(** * Reading batches from a file (src/unnamed/part_000,
      readDataFromExternalSource) *)

Section ExternalSource.

(** What the function calls in [os], [encoding/csv], [strconv],
    [encoding/json] and [fmt]: each returns its result or an error. *)
Variable File : Type.
Variable error : Type.
Variable os_Open : string -> File + error.
Variable csv_ReadAll : File -> list (list string) + error.
Variable strconv_ParseFloat : string -> float64 + error.
Variable json_Decode : File -> list (list float64) + error.
Variable fmt_Errorf : string -> error.

(** The inner loop over the cells of a row; the first cell that does not
    parse ends the function. *)
Fixpoint convertRow (row : list string) (floatRow : list float64)
  : list float64 + error :=
  match row with
  | [] => inl floatRow
  | valueStr :: rest =>
      match strconv_ParseFloat valueStr with
      | inr err => inr err
      | inl value => convertRow rest (floatRow ++ [value])
      end
  end.

(** The outer loop over the records. *)
Fixpoint convertRecords (records : list (list string)) (data : list (list float64))
  : list (list float64) + error :=
  match records with
  | [] => inl data
  | row :: rest =>
      match convertRow row [] with
      | inr err => inr err
      | inl floatRow => convertRecords rest (data ++ [floatRow])
      end
  end.

(** [(data, nil)] is [inl data], [(nil, err)] is [inr err]. *)
Definition readDataFromExternalSource (filePath format : string)
  : list (list float64) + error :=
  match os_Open filePath with
  | inr err => inr err
  | inl file =>
      if String.eqb format "csv" then
        match csv_ReadAll file with
        | inr err => inr err
        | inl records => convertRecords records []
        end
      else if String.eqb format "json" then
        match json_Decode file with
        | inr err => inr err
        | inl data => inl data
        end
      else inr (fmt_Errorf ("Ungültiges Dateiformat: " ++ format))
  end.

(** The error of the first cell, in reading order, that does not parse. *)
Fixpoint first_error (cells : list string) : option error :=
  match cells with
  | [] => None
  | valueStr :: rest =>
      match strconv_ParseFloat valueStr with
      | inr err => Some err
      | inl _ => first_error rest
      end
  end.

End ExternalSource.

(** ** More examples *)

(** [example_chain] and one more block: the block with outliers has a
    successor. *)
Definition longer_chain : Blockchain :=
  chain_of (AddBlock goroutines (mkTime 1700000005 0) generated_batch example_chain).

(** A source of numbers for the examples: a quarter, then the largest
    float64 below 1, and so on in turn. *)
Definition example_Float64 (src : Z) : float64 * Z :=
  ((if Z.even src then 0.25 else 0x1.fffffffffffffp-1)%float, src + 1).

(** A file system with one file, its records, and a reader of cells that
    knows three texts. *)
Definition example_Open (filePath : string) : string + string :=
  if String.eqb filePath "data.csv" then inl "data.csv"%string
  else inr ("open " ++ filePath ++ ": no such file or directory")%string.

Definition example_ReadAll (file : string) : list (list string) + string :=
  inl [["1"; "2.5"]; ["-3"]]%string.

Definition example_Decode (file : string) : list (list float64) + string :=
  inr "invalid character"%string.

Definition example_ParseFloat (valueStr : string) : float64 + string :=
  if String.eqb valueStr "1" then inl 1%float
  else if String.eqb valueStr "2.5" then inl 2.5%float
  else if String.eqb valueStr "-3" then inl (-3)%float
  else inr ("invalid syntax: " ++ valueStr)%string.

(** The block [b] with another index and another second of its timestamp. *)
Definition restamp (b : Block) (index unix : Z) : Block :=
  mkBlock index (mkTime unix (Nanosecond (Timestamp b))) (Values b) (Hash b) (PrevHash b)
          (Mean b) (Median b) (TwoSDLower b) (TwoSDUpper b) (Outliers b).

(** Between 0 and 100, both included; no NaN compares so. *)
Definition between_0_and_100 (value : float64) : Prop :=
  (0 <=? value)%float = true /\ (value <=? 100)%float = true.

(** * Properties *)

(** ** Slices and results *)

Lemma len_nonneg {A : Type} (s : list A) : 0 <= len s.
Proof. unfold len. lia. Qed.

Lemma len_app {A : Type} (s t : list A) : len (s ++ t) = len s + len t.
Proof. unfold len. rewrite length_app. lia. Qed.

Lemma len_zero_nil {A : Type} (s : list A) : len s = 0 -> s = [].
Proof. destruct s; [reflexivity | unfold len; simpl; lia]. Qed.

Lemma at_index_in_range {A : Type} (s : list A) (i : Z) :
  0 <= i < len s ->
  exists a, at_index s i = Done a /\ nth_error s (Z.to_nat i) = Some a.
Proof.
  intros Hi. unfold at_index.
  destruct (i <? 0) eqn:E1; [apply Z.ltb_lt in E1; lia |].
  destruct (len s <=? i) eqn:E2; [apply Z.leb_le in E2; lia |].
  simpl. destruct (nth_error s (Z.to_nat i)) as [a |] eqn:E.
  - exists a. split; reflexivity.
  - apply nth_error_None in E. unfold len in Hi. lia.
Qed.

Lemma at_index_Done {A : Type} (s : list A) (i : Z) (a : A) :
  at_index s i = Done a -> 0 <= i < len s /\ nth_error s (Z.to_nat i) = Some a.
Proof.
  unfold at_index.
  destruct (i <? 0) eqn:E1; [discriminate |].
  destruct (len s <=? i) eqn:E2; [discriminate |].
  simpl. apply Z.ltb_ge in E1. apply Z.leb_gt in E2.
  destruct (nth_error s (Z.to_nat i)) as [b |]; [| discriminate].
  intros H. injection H as ->. split; [split; assumption | reflexivity].
Qed.

Lemma at_index_last {A : Type} (s : list A) (a : A) :
  at_index (s ++ [a]) (len (s ++ [a]) - 1) = Done a.
Proof.
  assert (E : len (s ++ [a]) - 1 = Z.of_nat (List.length s)).
  { unfold len. rewrite length_app. simpl. lia. }
  destruct (at_index_in_range (s ++ [a]) (len (s ++ [a]) - 1)) as [b [Hb Hn]].
  - rewrite E. unfold len. rewrite length_app. simpl. lia.
  - rewrite Hb. f_equal.
    rewrite E, Nat2Z.id, nth_error_app2, Nat.sub_diag in Hn by lia.
    simpl in Hn. congruence.
Qed.

Lemma bind_Done {A B : Type} (m : outcome A) (k : A -> outcome B) (b : B) :
  bind m k = Done b -> exists a, m = Done a /\ k a = Done b.
Proof. destruct m as [a | p]; simpl; [eauto | discriminate]. Qed.

(** ** sort.Float64s keeps the elements *)

Lemma sink_Permutation (x : float64) (r : list float64) :
  Permutation (sink x r) (x :: r).
Proof.
  induction r as [| y r IH]; simpl.
  - apply Permutation_refl.
  - destruct (lessFloat64 x y).
    + eapply perm_trans; [apply perm_skip, IH | apply perm_swap].
    + apply Permutation_refl.
Qed.

Lemma fold_sink_Permutation (values acc : list float64) :
  Permutation (fold_left (fun rev_prefix x => sink x rev_prefix) values acc)
              (values ++ acc).
Proof.
  revert acc. induction values as [| v values IH]; intros acc; simpl.
  - apply Permutation_refl.
  - eapply perm_trans; [apply IH |].
    eapply perm_trans; [apply Permutation_app_head, sink_Permutation |].
    symmetry. apply Permutation_middle.
Qed.

Lemma sort_Float64s_Permutation (values : list float64) :
  Permutation (sort_Float64s values) values.
Proof.
  unfold sort_Float64s.
  eapply perm_trans; [symmetry; apply Permutation_rev |].
  eapply perm_trans; [apply fold_sink_Permutation |].
  rewrite app_nil_r. apply Permutation_refl.
Qed.

Lemma sort_Float64s_len (values : list float64) :
  len (sort_Float64s values) = len values.
Proof.
  unfold len. f_equal. apply Permutation_length, sort_Float64s_Permutation.
Qed.

(** ** calculateMedian returns on every slice but the empty one *)

Lemma calculateMedian_nil :
  calculateMedian [] = Panicked (IndexOutOfRange (-1) 0).
Proof. reflexivity. Qed.

Lemma calculateMedian_Done (values : list float64) :
  values <> [] ->
  exists m, calculateMedian values = Done (sort_Float64s values, m).
Proof.
  intros Hne. unfold calculateMedian.
  assert (Hn : 0 < len (sort_Float64s values)).
  { rewrite sort_Float64s_len. pose proof (len_nonneg values).
    destruct (Z.eq_dec (len values) 0) as [E | E]; [| lia].
    apply len_zero_nil in E. contradiction. }
  set (sorted := sort_Float64s values) in *.
  set (n := len sorted) in *.
  assert (Hq : 0 <= Z.quot n 2 < n).
  { split; [apply Z.quot_pos; lia | apply Z.quot_lt; lia]. }
  destruct (Z.rem n 2 =? 0) eqn:E.
  - apply Z.eqb_eq in E.
    assert (Hq1 : 0 <= Z.quot n 2 - 1 < n).
    { pose proof (Z.quot_rem' n 2). lia. }
    destruct (at_index_in_range sorted _ Hq1) as [a [Ha _]].
    destruct (at_index_in_range sorted _ Hq) as [b [Hb _]].
    rewrite Ha, Hb. simpl. eauto.
  - destruct (at_index_in_range sorted _ Hq) as [m [Hm _]].
    rewrite Hm. simpl. eauto.
Qed.

(** ** The orders in which the four goroutines can run *)

Lemma schedule_cases (schedule : list goroutine) :
  Permutation schedule goroutines -> In schedule schedules.
Proof.
  intros H.
  pose proof (Permutation_length H) as Hlen.
  pose proof (proj1 (Permutation_count_occ goroutine_eq_dec _ _) H) as Hc.
  pose proof (Hc GoMean) as C1. pose proof (Hc GoMedian) as C2.
  pose proof (Hc GoTwoSDRange) as C3. pose proof (Hc GoOutliers) as C4.
  clear Hc H.
  destruct schedule as [| a [| b [| c [| d [| e rest]]]]]; try discriminate Hlen.
  destruct a, b, c, d; simpl in C1, C2, C3, C4; try discriminate;
    unfold schedules; simpl; tauto.
Qed.


(** ** What calculateBlockStats touches *)

Lemma run_frame (g : goroutine) (b b' : Block) :
  run g b = Done b' ->
  Index b' = Index b /\ Timestamp b' = Timestamp b /\ Hash b' = Hash b /\
  PrevHash b' = PrevHash b /\ Permutation (Values b') (Values b).
Proof.
  destruct g; simpl; intros H.
  - injection H as <-. simpl. auto 6 using Permutation_refl.
  - apply bind_Done in H. destruct H as [[sorted m] [Hm H]]. injection H as <-. simpl.
    destruct (Values b) as [| v vs] eqn:E; [rewrite calculateMedian_nil in Hm; discriminate |].
    destruct (calculateMedian_Done (v :: vs)) as [m' Hm']; [discriminate |].
    rewrite Hm' in Hm. injection Hm as <- _.
    auto 6 using sort_Float64s_Permutation.
  - injection H as <-. simpl. auto 6 using Permutation_refl.
  - injection H as <-. simpl. auto 6 using Permutation_refl.
Qed.

Lemma calculateBlockStats_frame (schedule : list goroutine) (b b' : Block) :
  calculateBlockStats schedule b = Done b' ->
  Index b' = Index b /\ Timestamp b' = Timestamp b /\ Hash b' = Hash b /\
  PrevHash b' = PrevHash b /\ Permutation (Values b') (Values b).
Proof.
  revert b. induction schedule as [| g rest IH]; intros b; simpl; intros H.
  - injection H as <-. auto 6 using Permutation_refl.
  - apply bind_Done in H. destruct H as [b1 [H1 H2]].
    apply run_frame in H1. apply IH in H2.
    destruct H2 as (-> & -> & -> & -> & P2), H1 as (-> & -> & -> & -> & P1).
    pose proof (perm_trans P2 P1). auto 6.
Qed.

(** On a batch that is not empty every goroutine returns. *)
Lemma run_returns (g : goroutine) (b : Block) :
  Values b <> [] -> exists b', run g b = Done b'.
Proof.
  intros Hne. destruct g; simpl; eauto.
  destruct (calculateMedian_Done (Values b) Hne) as [m ->]. simpl. eauto.
Qed.

Lemma calculateBlockStats_returns (schedule : list goroutine) (b : Block) :
  Values b <> [] -> exists b', calculateBlockStats schedule b = Done b'.
Proof.
  revert b. induction schedule as [| g rest IH]; intros b Hne; simpl; eauto.
  destruct (run_returns g b Hne) as [b1 H1]. rewrite H1. simpl.
  apply IH. intros E. apply run_frame in H1.
  destruct H1 as (_ & _ & _ & _ & P). rewrite E in P.
  apply Permutation_nil in P. contradiction.
Qed.

(** On the empty batch the median goroutine panics, whenever it runs. *)
Lemma calculateBlockStats_empty (schedule : list goroutine) (b : Block) :
  Values b = [] -> In GoMedian schedule ->
  calculateBlockStats schedule b = Panicked (IndexOutOfRange (-1) 0).
Proof.
  revert b. induction schedule as [| g rest IH]; intros b He Hin; simpl.
  - contradiction.
  - destruct g; simpl.
    + apply IH; [assumption | destruct Hin as [? | ?]; [discriminate | assumption]].
    + rewrite He. reflexivity.
    + apply IH; [assumption | destruct Hin as [? | ?]; [discriminate | assumption]].
    + apply IH; [assumption | destruct Hin as [? | ?]; [discriminate | assumption]].
Qed.

(** ** The shape of a call of AddBlock that returns *)

Lemma AddBlock_Done (schedule : list goroutine) (now : Time) (values : list float64)
      (bc bc' : Blockchain) :
  AddBlock schedule now values bc = Done bc' ->
  exists prevBlock newBlock,
    at_index bc (len bc - 1) = Done prevBlock /\
    calculateBlockStats schedule (shell prevBlock now values) = Done newBlock /\
    bc' = markBlocksWithOutliers bc ++ [set_Hash newBlock (calculateHash newBlock)].
Proof.
  unfold AddBlock. intros H.
  apply bind_Done in H. destruct H as [prevBlock [Hp H]].
  apply bind_Done in H. destruct H as [newBlock [Hn H]].
  injection H as <-. exists prevBlock, newBlock. auto.
Qed.

Lemma calculateHash_set_Hash (b : Block) (h : string) :
  calculateHash (set_Hash b h) = calculateHash b.
Proof. reflexivity. Qed.

Lemma markBlocksWithOutliers_length (chain : Blockchain) :
  List.length (markBlocksWithOutliers chain) = List.length chain.
Proof. apply length_map. Qed.

(** ** The digest is 32 bytes, its text 64 lower-case hex digits *)

Lemma be_bytes_length (count : nat) (z : Z) : List.length (sha256.be_bytes count z) = count.
Proof. unfold sha256.be_bytes. rewrite length_map, length_rev, length_seq. reflexivity. Qed.


Lemma Sum256_length (data : list Z) : List.length (sha256.Sum256 data) = 32%nat.
Proof. unfold sha256.Sum256. repeat rewrite length_app. repeat rewrite be_bytes_length. reflexivity. Qed.


Lemma EncodeToString_length (src : list Z) :
  String.length (hex.EncodeToString src) = (2 * List.length src)%nat.
Proof. induction src as [| v src IH]; simpl; [reflexivity | rewrite IH; lia]. Qed.



Lemma calculateHash_length (b : Block) : String.length (calculateHash b) = 64%nat.
Proof. unfold calculateHash. rewrite EncodeToString_length, Sum256_length. reflexivity. Qed.

Lemma calculateHash_not_sentinel (b : Block) : calculateHash b <> OUTLIER_BLOCK_HASH.
Proof.
  intros E. pose proof (calculateHash_length b) as L. rewrite E in L. discriminate L.
Qed.

(** ** The marking pass *)

Lemma mark_fields (b : Block) :
  Index (mark b) = Index b /\ Timestamp (mark b) = Timestamp b /\
  Values (mark b) = Values b /\ PrevHash (mark b) = PrevHash b /\
  Mean (mark b) = Mean b /\ Median (mark b) = Median b /\
  TwoSDLower (mark b) = TwoSDLower b /\ TwoSDUpper (mark b) = TwoSDUpper b /\
  Outliers (mark b) = Outliers b.
Proof. unfold mark. destruct (0 <? len (Outliers b)); simpl; auto 10. Qed.

Lemma mark_Hash_empty (b : Block) : Outliers b = [] -> Hash (mark b) = Hash b.
Proof. intros E. unfold mark. rewrite E. reflexivity. Qed.

Lemma mark_Hash_outliers (b : Block) :
  Outliers b <> [] -> Hash (mark b) = OUTLIER_BLOCK_HASH.
Proof.
  intros Hne. unfold mark.
  destruct (0 <? len (Outliers b)) eqn:E; [reflexivity |].
  apply Z.ltb_ge in E. pose proof (len_nonneg (Outliers b)).
  destruct (Outliers b); [contradiction | unfold len in E; simpl in E; lia].
Qed.

Lemma calculateHash_mark (b : Block) : calculateHash (mark b) = calculateHash b.
Proof. unfold mark. destruct (0 <? len (Outliers b)); reflexivity. Qed.

Lemma nth_error_marked (chain : Blockchain) (n : nat) :
  nth_error (markBlocksWithOutliers chain) n = option_map mark (nth_error chain n).
Proof. apply nth_error_map. Qed.

(** The blocks of the chain after a call that returned: the old ones,
    marked, then the new one. *)
Lemma nth_error_appended (chain : Blockchain) (newBlock : Block) (n : nat) (b' : Block) :
  nth_error (markBlocksWithOutliers chain ++ [newBlock]) n = Some b' ->
  (exists b, nth_error chain n = Some b /\ b' = mark b) \/
  (n = List.length chain /\ b' = newBlock).
Proof.
  intros H. destruct (Nat.lt_ge_cases n (List.length chain)) as [Hlt | Hge].
  - left. rewrite nth_error_app1 in H by (rewrite markBlocksWithOutliers_length; lia).
    rewrite nth_error_marked in H.
    destruct (nth_error chain n) as [b |]; [| discriminate].
    exists b. simpl in H. split; congruence.
  - right. rewrite nth_error_app2 in H by (rewrite markBlocksWithOutliers_length; lia).
    rewrite markBlocksWithOutliers_length in H.
    destruct (n - List.length chain)%nat as [| k] eqn:E.
    + simpl in H. split; [lia | congruence].
    + simpl in H. destruct k; discriminate.
Qed.

(** ** The invariant of the chains the program builds *)

Lemma wrap64_succ (z : Z) : wrap64 (wrap64 z + 1) = wrap64 (z + 1).
Proof.
  unfold wrap64.
  replace ((z + 2 ^ 63) mod 2 ^ 64 - 2 ^ 63 + 1 + 2 ^ 63)
    with ((z + 2 ^ 63) mod 2 ^ 64 + 1) by lia.
  rewrite Z.add_mod_idemp_l by lia. f_equal. f_equal. lia.
Qed.

Lemma wrap64_small (z : Z) : - 2 ^ 63 <= z < 2 ^ 63 -> wrap64 z = z.
Proof. intros H. unfold wrap64. rewrite Z.mod_small; lia. Qed.

Lemma chain_inv_new (now : Time) : chain_inv (NewBlockchain now).
Proof.
  unfold NewBlockchain. split.
  - exists [], (set_Hash (mkBlock 0 now [] "" "" 0%float 0%float 0%float 0%float [])
                         (calculateHash (mkBlock 0 now [] "" "" 0%float 0%float 0%float 0%float []))).
    split; reflexivity.
  - intros [| [| n]] b H; simpl in H; try discriminate. injection H as <-. left. reflexivity.
  - intros [| [| n]] b H; simpl in H; try discriminate. injection H as <-. reflexivity.
  - intros [| [| n]] p b _ H; simpl in H; discriminate.
Qed.

Lemma chain_inv_last_index (bc init : Blockchain) (lastBlock : Block) :
  bc = init ++ [lastBlock] ->
  at_index bc (len bc - 1) = Done lastBlock /\
  nth_error bc (List.length init) = Some lastBlock /\
  List.length bc = S (List.length init).
Proof.
  intros ->. split; [apply at_index_last |]. split.
  - rewrite nth_error_app2, Nat.sub_diag by lia. reflexivity.
  - rewrite length_app. simpl. lia.
Qed.

Lemma chain_inv_add (schedule : list goroutine) (now : Time) (values : list float64)
      (bc bc' : Blockchain) :
  chain_inv bc -> AddBlock schedule now values bc = Done bc' -> chain_inv bc'.
Proof.
  intros [Hlast Hhash Hindex Hlink] H.
  apply AddBlock_Done in H. destruct H as (prevBlock & newBlock & Hp & Hn & ->).
  destruct Hlast as (init & lastBlock & Ebc & Hl).
  destruct (chain_inv_last_index bc init lastBlock Ebc) as (Hat & Hnth & Hlen).
  rewrite Hat in Hp. injection Hp as <-.
  apply calculateBlockStats_frame in Hn. simpl in Hn.
  destruct Hn as (HI & _ & _ & HP & _).
  split.
  - exists (markBlocksWithOutliers bc), (set_Hash newBlock (calculateHash newBlock)).
    split; reflexivity.
  - intros n b' Hb'. apply nth_error_appended in Hb'.
    destruct Hb' as [(b & Hb & ->) | (_ & ->)].
    + rewrite calculateHash_mark.
      destruct (Outliers b) as [| o os] eqn:E.
      * rewrite (mark_Hash_empty b E).
        destruct (Hhash n b Hb) as [? | [Hne _]]; [left; assumption | congruence].
      * right. destruct (mark_fields b) as (_ & _ & _ & _ & _ & _ & _ & _ & ->).
        rewrite E. split; [discriminate | apply mark_Hash_outliers; congruence].
    + left. reflexivity.
  - intros n b' Hb'. apply nth_error_appended in Hb'.
    destruct Hb' as [(b & Hb & ->) | (-> & ->)].
    + destruct (mark_fields b) as (-> & _). eauto.
    + simpl. rewrite HI, (Hindex _ _ Hnth), wrap64_succ, Hlen. f_equal. lia.
  - intros n p' b' Hp' Hb'. apply nth_error_appended in Hp', Hb'.
    destruct Hp' as [(p & Hp & ->) | (-> & ->)].
    + rewrite calculateHash_mark.
      destruct Hb' as [(b & Hb & ->) | (En & ->)].
      * destruct (mark_fields b) as (_ & _ & _ & -> & _). eauto.
      * simpl. rewrite HP, Hl.
        assert (n = List.length init) by lia. subst n. congruence.
    + destruct Hb' as [(b & Hb & _) | (En & _)]; [| lia].
      assert (nth_error bc (S (List.length bc)) = None) by (apply nth_error_None; lia).
      congruence.
Qed.

Lemma reachable_inv (bc : Blockchain) : reachable bc -> chain_inv bc.
Proof.
  induction 1 as [now | bc bc' schedule now values _ IH _ H].
  - apply chain_inv_new.
  - eapply chain_inv_add; eassumption.
Qed.

(** ** A run of the program, for the examples below *)

Lemma example_chain_Done :
  AddBlock goroutines example_time example_batch (NewBlockchain example_time)
  = Done example_chain.
Proof. vm_compute. reflexivity. Defined.

Lemma example_chain_reachable : reachable example_chain.
Proof.
  eapply reachable_add;
    [apply (reachable_new example_time) | apply Permutation_refl | apply example_chain_Done].
Defined.

(** ** C8: the frame of an append *)

(** C8. An append leaves every block already in the chain in its place and
    changes none of its fields but [Hash]; a block without outliers keeps
    its hash, the one computed from its fields when it was appended; a block
    with outliers has the sentinel afterwards. *)
Theorem remarking_frame (bc bc' : Blockchain) (schedule : list goroutine) (now : Time)
        (values : list float64) :
  reachable bc ->
  AddBlock schedule now values bc = Done bc' ->
  forall n b, nth_error bc n = Some b ->
    exists b', nth_error bc' n = Some b' /\ same_but_Hash b b' /\
      (Outliers b = [] -> Hash b' = Hash b /\ Hash b' = calculateHash b') /\
      (Outliers b <> [] -> Hash b' = OUTLIER_BLOCK_HASH).
Proof.
  intros Hr H n b Hb.
  apply reachable_inv in Hr. destruct Hr as [_ Hhash _ _].
  apply AddBlock_Done in H. destruct H as (prevBlock & newBlock & _ & _ & ->).
  exists (mark b). split; [| split; [| split]].
  - rewrite nth_error_app1.
    + rewrite nth_error_marked, Hb. reflexivity.
    + rewrite markBlocksWithOutliers_length. apply nth_error_Some. congruence.
  - apply mark_fields.
  - intros E. rewrite calculateHash_mark, (mark_Hash_empty b E). split; [reflexivity |].
    destruct (Hhash n b Hb) as [? | [Hne _]]; [assumption | contradiction].
  - apply mark_Hash_outliers.
Qed.

Lemma remarking_frame_witness :
  exists b', nth_error example_chain 0 = Some b' /\ same_but_Hash example_genesis b' /\
    (Outliers example_genesis = [] ->
     Hash b' = Hash example_genesis /\ Hash b' = calculateHash b') /\
    (Outliers example_genesis <> [] -> Hash b' = OUTLIER_BLOCK_HASH).
Proof.
  apply (remarking_frame (NewBlockchain example_time) example_chain goroutines
                         example_time example_batch).
  - apply reachable_new.
  - apply example_chain_Done.
  - vm_compute. reflexivity.
Defined.

(** ** C1: which blocks the marking pass of an append reaches *)

(** C1, amended. After an append, every block that was in the chain before
    the call and has outliers carries the sentinel; the block the call
    appended carries the digest of its fields, 64 hex digits and never the
    sentinel, whatever its outliers: the pass runs before the block is in
    the chain, and its hash is set after the pass. *)
Theorem marking_reaches_old_blocks (bc bc' : Blockchain) (schedule : list goroutine)
        (now : Time) (values : list float64) :
  AddBlock schedule now values bc = Done bc' ->
  (forall n b, nth_error bc n = Some b -> Outliers b <> [] ->
     exists b', nth_error bc' n = Some b' /\ Outliers b' = Outliers b /\
                Hash b' = OUTLIER_BLOCK_HASH) /\
  (exists newBlock, bc' = markBlocksWithOutliers bc ++ [newBlock] /\
     Hash newBlock = calculateHash newBlock /\
     String.length (Hash newBlock) = 64%nat /\
     Hash newBlock <> OUTLIER_BLOCK_HASH).
Proof.
  intros H.
  apply AddBlock_Done in H. destruct H as (prevBlock & newBlock & _ & _ & ->).
  split.
  - intros n b Hb Hne. exists (mark b). split; [| split].
    + rewrite nth_error_app1.
      * rewrite nth_error_marked, Hb. reflexivity.
      * rewrite markBlocksWithOutliers_length. apply nth_error_Some. congruence.
    + apply mark_fields.
    + apply mark_Hash_outliers, Hne.
  - exists (set_Hash newBlock (calculateHash newBlock)).
    split; [reflexivity |].
    change (Hash (set_Hash newBlock (calculateHash newBlock))) with (calculateHash newBlock).
    split; [reflexivity |]. split; [exact (calculateHash_length newBlock) |].
    exact (calculateHash_not_sentinel newBlock).
Qed.

Lemma marking_reaches_old_blocks_witness :
  (forall n b, nth_error (NewBlockchain example_time) n = Some b -> Outliers b <> [] ->
     exists b', nth_error example_chain n = Some b' /\ Outliers b' = Outliers b /\
                Hash b' = OUTLIER_BLOCK_HASH) /\
  (exists newBlock,
     example_chain = markBlocksWithOutliers (NewBlockchain example_time) ++ [newBlock] /\
     Hash newBlock = calculateHash newBlock /\
     String.length (Hash newBlock) = 64%nat /\
     Hash newBlock <> OUTLIER_BLOCK_HASH).
Proof.
  apply (marking_reaches_old_blocks (NewBlockchain example_time) example_chain goroutines
                                    example_time example_batch).
  apply example_chain_Done.
Defined.

(** The append of [example_batch] returns a chain whose new block has the
    outliers -100 and 100 and the digest of its fields as hash. *)
Lemma new_block_with_outliers_not_marked :
  AddBlock goroutines example_time example_batch (NewBlockchain example_time)
  = Done example_chain /\
  (exists b, nth_error example_chain 1 = Some b /\ Outliers b = [-100; 100]%float /\
             Hash b = "3b53991b56f34dddbaaed32357c9dd83ebf54d0d833eb84bf264620d9a6e4848"%string) /\
  ~ every_outlier_block_marked example_chain.
Proof.
  split; [apply example_chain_Done |].
  assert (E : exists b, nth_error example_chain 1 = Some b /\ Outliers b = [-100; 100]%float /\
             Hash b = "3b53991b56f34dddbaaed32357c9dd83ebf54d0d833eb84bf264620d9a6e4848"%string).
  { vm_compute. eexists. split; [reflexivity |]. split; reflexivity. }
  split; [exact E |].
  intros Hall. destruct E as (b & Hin & Ho & Hh).
  apply nth_error_In in Hin.
  specialize (Hall b Hin). rewrite Ho, Hh in Hall.
  assert (Hs : (-100)%float :: [100%float] <> []) by discriminate.
  specialize (Hall Hs). discriminate Hall.
Qed.

(** ** C2: the empty batch, and every other batch *)

(** The median goroutine indexes the sorted slice at -1. *)
Lemma empty_batch_panics :
  AddBlock goroutines example_time [] (NewBlockchain example_time)
  = Panicked (IndexOutOfRange (-1) 0) /\
  AddBlock goroutines example_time [] (NewBlockchain example_time)
  <> Done (NewBlockchain example_time).
Proof. split; [vm_compute; reflexivity | vm_compute; discriminate]. Qed.

(** C2, amended. [AddBlock] has no guard: on the empty batch the mean is
    0/0, a NaN and no failure, and the median goroutine panics on index -1
    of an empty slice, which ends the program with no block appended.  On
    every batch that is not empty [AddBlock] returns, with one block more in
    the chain. *)
Theorem AddBlock_failure_semantics (bc : Blockchain) (schedule : list goroutine)
        (now : Time) :
  reachable bc ->
  Permutation schedule goroutines ->
  AddBlock schedule now [] bc = Panicked (IndexOutOfRange (-1) 0) /\
  isNaN (calculateMean []) = true /\
  forall values, values <> [] ->
    exists bc', AddBlock schedule now values bc = Done bc' /\
                List.length bc' = S (List.length bc).
Proof.
  intros Hr Hs.
  apply reachable_inv in Hr. destruct Hr as [(init & lastBlock & E & _) _ _ _].
  destruct (chain_inv_last_index bc init lastBlock E) as (Hat & _ & _).
  split; [| split].
  - unfold AddBlock. rewrite Hat. simpl.
    rewrite calculateBlockStats_empty; [reflexivity | reflexivity |].
    apply (Permutation_in _ (Permutation_sym Hs)). simpl. tauto.
  - reflexivity.
  - intros values Hne. unfold AddBlock. rewrite Hat. simpl.
    destruct (calculateBlockStats_returns schedule
                (mkBlock (wrap64 (Index lastBlock + 1)) now values ""
                         (Hash lastBlock) 0%float 0%float 0%float 0%float []))
      as [newBlock ->]; [exact Hne |].
    simpl. eexists. split; [reflexivity |].
    rewrite length_app, markBlocksWithOutliers_length. simpl. lia.
Qed.

Lemma AddBlock_failure_semantics_witness :
  AddBlock goroutines example_time [] example_chain = Panicked (IndexOutOfRange (-1) 0) /\
  isNaN (calculateMean []) = true /\
  forall values, values <> [] ->
    exists bc', AddBlock goroutines example_time values example_chain = Done bc' /\
                List.length bc' = S (List.length example_chain).
Proof.
  apply (AddBlock_failure_semantics example_chain goroutines example_time).
  - apply example_chain_reachable.
  - apply Permutation_refl.
Defined.

(** ** C4: indices and links *)

(** C4. In a chain the program builds, block [n] has index [n] (as a
    64-bit int: for every position a slice can have), and the [PrevHash] of
    a block is the digest of the fields of the block before it, which is the
    hash that block carries until the pass of the next call: a call of
    [AddBlock] reads it from the last block, which no pass has reached yet,
    and gives the new block the next index. *)
Theorem chain_integrity (bc : Blockchain) :
  reachable bc ->
  (forall n b, nth_error bc n = Some b ->
     Index b = wrap64 (Z.of_nat n) /\ (Z.of_nat n < 2 ^ 63 -> Index b = Z.of_nat n)) /\
  (forall n p b, nth_error bc n = Some p -> nth_error bc (S n) = Some b ->
     PrevHash b = calculateHash p) /\
  (forall schedule now values bc', AddBlock schedule now values bc = Done bc' ->
     exists prevBlock newBlock,
       at_index bc (len bc - 1) = Done prevBlock /\
       bc' = markBlocksWithOutliers bc ++ [newBlock] /\
       Index newBlock = wrap64 (Index prevBlock + 1) /\
       PrevHash newBlock = Hash prevBlock /\
       Hash prevBlock = calculateHash prevBlock).
Proof.
  intros Hr. apply reachable_inv in Hr. destruct Hr as [Hlast Hhash Hindex Hlink].
  split; [| split].
  - intros n b Hb. rewrite (Hindex n b Hb). split; [reflexivity |].
    intros Hn. apply wrap64_small. lia.
  - exact Hlink.
  - intros schedule now values bc' H.
    apply AddBlock_Done in H. destruct H as (prevBlock & newBlock & Hp & Hn & ->).
    destruct Hlast as (init & lastBlock & E & Hl).
    destruct (chain_inv_last_index bc init lastBlock E) as (Hat & _ & _).
    assert (prevBlock = lastBlock) by congruence. subst prevBlock.
    apply calculateBlockStats_frame in Hn. simpl in Hn.
    destruct Hn as (HI & _ & _ & HP & _).
    exists lastBlock, (set_Hash newBlock (calculateHash newBlock)).
    repeat split; assumption.
Qed.

Lemma chain_integrity_witness :
  (forall n b, nth_error example_chain n = Some b ->
     Index b = wrap64 (Z.of_nat n) /\ (Z.of_nat n < 2 ^ 63 -> Index b = Z.of_nat n)) /\
  (forall n p b, nth_error example_chain n = Some p ->
     nth_error example_chain (S n) = Some b -> PrevHash b = calculateHash p) /\
  (forall schedule now values bc',
     AddBlock schedule now values example_chain = Done bc' ->
     exists prevBlock newBlock,
       at_index example_chain (len example_chain - 1) = Done prevBlock /\
       bc' = markBlocksWithOutliers example_chain ++ [newBlock] /\
       Index newBlock = wrap64 (Index prevBlock + 1) /\
       PrevHash newBlock = Hash prevBlock /\
       Hash prevBlock = calculateHash prevBlock).
Proof. apply (chain_integrity example_chain), example_chain_reachable. Defined.

(** ** C3: the outliers of the appended block *)

(** C3 on the code. The outliers goroutine filters the slice as it finds
    it, against the bounds as it finds them.  After the median goroutine
    the slice is sorted: the outliers of [example_batch] come out as -100,
    100, not in the order 100, -100 of the batch.  Before the band goroutine
    the bounds are still 0 and 0: every sample of [generated_batch] is
    listed, although none lies outside the band the block ends with. *)
Lemma outliers_follow_goroutine_order :
  (exists b, nth_error example_chain 1 = Some b /\
     Outliers b = [-100; 100]%float /\
     calculateOutliers example_batch (TwoSDLower b) (TwoSDUpper b) = [100; -100]%float) /\
  (exists bc' b,
     AddBlock [GoOutliers; GoMean; GoMedian; GoTwoSDRange] example_time generated_batch
              (NewBlockchain example_time) = Done bc' /\
     nth_error bc' 1 = Some b /\
     Outliers b = [50; 10; 30; 20; 40]%float /\
     calculateOutliers generated_batch (TwoSDLower b) (TwoSDUpper b) = []) /\
  (exists bc' b,
     AddBlock [GoMedian; GoOutliers; GoMean; GoTwoSDRange] example_time generated_batch
              (NewBlockchain example_time) = Done bc' /\
     nth_error bc' 1 = Some b /\
     Outliers b = [10; 20; 30; 40; 50]%float).
Proof.
  split; [| split].
  - vm_compute. eexists. split; [reflexivity |]. split; reflexivity.
  - vm_compute. do 2 eexists. split; [reflexivity |]. split; [reflexivity |].
    split; reflexivity.
  - vm_compute. do 2 eexists. split; [reflexivity |]. split; reflexivity.
Qed.

(** ** C7: the fingerprint *)



(** ** The order of float64 values, read on integers *)

Lemma digits2_pos_bounds (m : positive) :
  2 ^ (Zpos (digits2_pos m) - 1) <= Zpos m < 2 ^ Zpos (digits2_pos m).
Proof.
  induction m as [m IH | m IH |]; simpl digits2_pos.
  - rewrite Pos2Z.inj_succ.
    replace (Z.succ (Zpos (digits2_pos m)) - 1) with (Z.succ (Zpos (digits2_pos m) - 1)) by lia.
    rewrite !Z.pow_succ_r by lia. lia.
  - rewrite Pos2Z.inj_succ.
    replace (Z.succ (Zpos (digits2_pos m)) - 1) with (Z.succ (Zpos (digits2_pos m) - 1)) by lia.
    rewrite !Z.pow_succ_r by lia. lia.
  - simpl. lia.
Qed.

(** What [valid_binary] says of a finite value. *)
Lemma bounded_inv (m : positive) (e : Z) :
  bounded prec emax m e = true ->
  -1074 <= e <= 971 /\ Zpos (digits2_pos m) <= 53 /\
  (-1074 < e -> Zpos (digits2_pos m) = 53).
Proof.
  unfold bounded, canonical_mantissa, fexp, SpecFloat.emin.
  change prec with 53. change emax with 1024.
  intros H. apply andb_prop in H. destruct H as [H1 H2].
  apply Z.eqb_eq in H1. apply Z.leb_le in H2. lia.
Qed.

Lemma pow2_gt_0 (k : Z) : 0 <= k -> 0 < 2 ^ k.
Proof. intros. apply Z.pow_pos_nonneg; lia. Qed.

Lemma finite_key_bounds (m : positive) (e : Z) :
  bounded prec emax m e = true ->
  0 < Zpos m * 2 ^ (e + 1074) < key_inf.
Proof.
  intros H. apply bounded_inv in H. destruct H as (He & Hd & _).
  pose proof (digits2_pos_bounds m) as [_ Hm].
  pose proof (pow2_gt_0 (e + 1074) ltac:(lia)) as Hp.
  split; [lia |].
  assert (Zpos m < 2 ^ 53).
  { eapply Z.lt_le_trans; [exact Hm | apply Z.pow_le_mono_r; lia]. }
  assert (2 ^ (e + 1074) <= 2 ^ 2045) by (apply Z.pow_le_mono_r; lia).
  unfold key_inf.
  replace (2 ^ 2200) with (2 ^ 53 * 2 ^ 2045 * 2 ^ 102)
    by (rewrite <- !Z.pow_add_r by lia; reflexivity).
  pose proof (pow2_gt_0 53 ltac:(lia)). pose proof (pow2_gt_0 2045 ltac:(lia)).
  pose proof (pow2_gt_0 102 ltac:(lia)).
  nia.
Qed.

(** Among valid finite values the exponents order before the mantissas. *)
Lemma finite_key_lt (m1 m2 : positive) (e1 e2 : Z) :
  bounded prec emax m1 e1 = true -> bounded prec emax m2 e2 = true ->
  e1 < e2 ->
  Zpos m1 * 2 ^ (e1 + 1074) < Zpos m2 * 2 ^ (e2 + 1074).
Proof.
  intros H1 H2 He.
  apply bounded_inv in H1, H2.
  destruct H1 as (He1 & Hd1 & _), H2 as (He2 & _ & Hd2).
  specialize (Hd2 ltac:(lia)).
  pose proof (digits2_pos_bounds m1) as [_ Hm1].
  pose proof (digits2_pos_bounds m2) as [Hm2 _]. rewrite Hd2 in Hm2.
  assert (L1 : Zpos m1 < 2 ^ 53).
  { eapply Z.lt_le_trans; [exact Hm1 | apply Z.pow_le_mono_r; lia]. }
  replace (e2 + 1074) with ((e1 + 1074) + 1 + (e2 - e1 - 1)) by lia.
  rewrite (Z.pow_add_r 2 (e1 + 1074 + 1) (e2 - e1 - 1)) by lia.
  rewrite (Z.pow_add_r 2 (e1 + 1074) 1) by lia.
  pose proof (pow2_gt_0 (e1 + 1074) ltac:(lia)) as HA.
  pose proof (pow2_gt_0 (e2 - e1 - 1) ltac:(lia)) as HB.
  assert (HC : 2 ^ 53 = 2 * 2 ^ (53 - 1)) by reflexivity.
  change (2 ^ 1) with 2.
  generalize dependent (2 ^ (e1 + 1074)). intros A HA.
  generalize dependent (2 ^ (e2 - e1 - 1)). intros B HB.
  generalize dependent (2 ^ (53 - 1)). intros C Hm2 HC.
  generalize dependent (2 ^ 53). intros D L1 HC. subst D.
  assert (Zpos m1 * A < Zpos m2 * (A * 2)) by nia.
  nia.
Qed.

Lemma key_inf_pos : 0 < key_inf.
Proof. unfold key_inf. apply pow2_gt_0. lia. Qed.

Lemma compare_Lt (a b : Z) : a < b -> Some Lt = Some (a ?= b).
Proof. intros H. apply Z.compare_lt_iff in H. rewrite H. reflexivity. Qed.

Lemma compare_Gt (a b : Z) : b < a -> Some Gt = Some (a ?= b).
Proof. intros H. apply Z.compare_gt_iff in H. rewrite H. reflexivity. Qed.

Lemma compare_Eq (a b : Z) : a = b -> Some Eq = Some (a ?= b).
Proof. intros ->. rewrite Z.compare_refl. reflexivity. Qed.

Lemma finite_key_compare (m1 m2 : positive) (e1 e2 : Z) :
  bounded prec emax m1 e1 = true -> bounded prec emax m2 e2 = true ->
  match Z.compare e1 e2 with
  | Lt => Lt
  | Gt => Gt
  | Eq => Pos.compare_cont Eq m1 m2
  end = (Zpos m1 * 2 ^ (e1 + 1074) ?= Zpos m2 * 2 ^ (e2 + 1074)).
Proof.
  intros H1 H2. destruct (Z.compare_spec e1 e2) as [-> | Hlt | Hgt].
  - pose proof (bounded_inv _ _ H1) as (He & _).
    pose proof (pow2_gt_0 (e2 + 1074) ltac:(lia)) as Hp.
    change (Pos.compare_cont Eq m1 m2) with (Zpos m1 ?= Zpos m2).
    destruct (Z.compare_spec (Zpos m1) (Zpos m2)) as [E | L | G]; symmetry.
    + rewrite E. apply Z.compare_refl.
    + apply Z.compare_lt_iff. nia.
    + apply Z.compare_gt_iff. nia.
  - symmetry. apply Z.compare_lt_iff. apply finite_key_lt; assumption.
  - symmetry. apply Z.compare_gt_iff. apply finite_key_lt; assumption.
Qed.

Lemma SFcompare_key (x y : spec_float) :
  valid_binary x = true -> valid_binary y = true ->
  x <> S754_nan -> y <> S754_nan ->
  SFcompare x y = Some (SFkey x ?= SFkey y).
Proof.
  intros Vx Vy Nx Ny. pose proof key_inf_pos as K.
  destruct x as [sx | sx | | sx mx ex], y as [sy | sy | | sy my ey];
    try contradiction; simpl in Vx, Vy;
    try (pose proof (finite_key_bounds _ _ Vx) as Bx);
    try (pose proof (finite_key_bounds _ _ Vy) as By);
    unfold SFcompare, SFkey.
  - apply compare_Eq. reflexivity.
  - destruct sy; [apply compare_Gt | apply compare_Lt]; lia.
  - destruct sy; [apply compare_Gt | apply compare_Lt]; lia.
  - destruct sx; [apply compare_Lt | apply compare_Gt]; lia.
  - destruct sx, sy; (apply compare_Eq; reflexivity) || (apply compare_Lt; lia)
                     || (apply compare_Gt; lia).
  - destruct sx, sy; (apply compare_Lt; lia) || (apply compare_Gt; lia).
  - destruct sx; [apply compare_Lt | apply compare_Gt]; lia.
  - destruct sx, sy; (apply compare_Lt; lia) || (apply compare_Gt; lia).
  - destruct sx, sy.
    + f_equal. rewrite Z.compare_opp.
      rewrite (Z.compare_antisym (Zpos mx * 2 ^ (ex + 1074)) (Zpos my * 2 ^ (ey + 1074))).
      rewrite <- (finite_key_compare _ _ _ _ Vx Vy).
      destruct (ex ?= ey); reflexivity.
    + apply compare_Lt. lia.
    + apply compare_Gt. lia.
    + f_equal. apply finite_key_compare; assumption.
Qed.

Lemma SFkey_not_nan (x : spec_float) :
  valid_binary x = true -> x <> S754_nan -> - key_inf <= SFkey x <= key_inf.
Proof.
  intros V N. pose proof key_inf_pos.
  destruct x as [s | s | | s m e]; try contradiction; unfold SFkey.
  - lia.
  - destruct s; lia.
  - pose proof (finite_key_bounds _ _ V). destruct s; lia.
Qed.

Lemma SFcompare_nan_l (y : spec_float) : SFcompare S754_nan y = None.
Proof. reflexivity. Qed.

Lemma SFcompare_nan_r (x : spec_float) : SFcompare x S754_nan = None.
Proof. destruct x; reflexivity. Qed.

Lemma isNaN_spec (x : float64) : isNaN x = true <-> Prim2SF x = S754_nan.
Proof.
  unfold isNaN, is_nan. rewrite FloatAxioms.eqb_spec. unfold SFeqb.
  destruct (Prim2SF x) as [s | s | | s m e] eqn:E.
  - simpl. split; [discriminate | discriminate].
  - destruct s; simpl; split; discriminate.
  - simpl. split; reflexivity.
  - pose proof (Prim2SF_valid x) as V. rewrite E in V.
    rewrite (SFcompare_key _ _ V V) by discriminate.
    rewrite Z.compare_refl. simpl. split; discriminate.
Qed.

Lemma isNaN_false (x : float64) : isNaN x = false <-> Prim2SF x <> S754_nan.
Proof.
  rewrite <- isNaN_spec. destruct (isNaN x); split; congruence.
Qed.

Lemma key_nan (x : float64) : isNaN x = true -> key x = - key_inf - 1.
Proof. intros H. apply isNaN_spec in H. unfold key. rewrite H. reflexivity. Qed.

Lemma key_not_nan (x : float64) : isNaN x = false -> - key_inf <= key x <= key_inf.
Proof.
  intros H. apply isNaN_false in H. apply SFkey_not_nan; [apply Prim2SF_valid | exact H].
Qed.

(** The comparisons of Go, on keys. *)
Lemma compare_key (x y : float64) :
  isNaN x = false -> isNaN y = false ->
  SFcompare (Prim2SF x) (Prim2SF y) = Some (key x ?= key y).
Proof.
  intros Hx Hy. apply SFcompare_key; try apply Prim2SF_valid; apply isNaN_false; assumption.
Qed.

Lemma compare_nan (x y : float64) :
  isNaN x = true \/ isNaN y = true -> SFcompare (Prim2SF x) (Prim2SF y) = None.
Proof.
  intros [H | H]; apply isNaN_spec in H; rewrite H;
    [apply SFcompare_nan_l | apply SFcompare_nan_r].
Qed.

Lemma ltb_key (x y : float64) :
  (x <? y)%float = negb (isNaN x) && negb (isNaN y) && (key x <? key y).
Proof.
  rewrite FloatAxioms.ltb_spec. unfold SFltb.
  destruct (isNaN x) eqn:Hx; [rewrite compare_nan by auto; reflexivity |].
  destruct (isNaN y) eqn:Hy; [rewrite compare_nan by auto; reflexivity |].
  rewrite (compare_key x y Hx Hy). simpl. unfold Z.ltb.
  destruct (key x ?= key y); reflexivity.
Qed.

Lemma leb_key (x y : float64) :
  (x <=? y)%float = negb (isNaN x) && negb (isNaN y) && (key x <=? key y).
Proof.
  rewrite FloatAxioms.leb_spec. unfold SFleb.
  destruct (isNaN x) eqn:Hx; [rewrite compare_nan by auto; reflexivity |].
  destruct (isNaN y) eqn:Hy; [rewrite compare_nan by auto; reflexivity |].
  rewrite (compare_key x y Hx Hy). simpl. unfold Z.leb.
  destruct (key x ?= key y); reflexivity.
Qed.

Lemma eqb_key (x y : float64) :
  (x =? y)%float = negb (isNaN x) && negb (isNaN y) && (key x =? key y).
Proof.
  rewrite FloatAxioms.eqb_spec. unfold SFeqb.
  destruct (isNaN x) eqn:Hx; [rewrite compare_nan by auto; reflexivity |].
  destruct (isNaN y) eqn:Hy; [rewrite compare_nan by auto; reflexivity |].
  rewrite (compare_key x y Hx Hy). simpl.
  destruct (Z.compare_spec (key x) (key y)); symmetry;
    [apply Z.eqb_eq; assumption | apply Z.eqb_neq; lia | apply Z.eqb_neq; lia].
Qed.

Lemma lessFloat64_key (x y : float64) : lessFloat64 x y = (key x <? key y).
Proof.
  unfold lessFloat64. rewrite ltb_key. pose proof key_inf_pos.
  destruct (isNaN x) eqn:Hx, (isNaN y) eqn:Hy; simpl.
  - rewrite (key_nan _ Hx), (key_nan _ Hy). symmetry. apply Z.ltb_irrefl.
  - rewrite (key_nan _ Hx). pose proof (key_not_nan _ Hy).
    symmetry. apply Z.ltb_lt. lia.
  - rewrite (key_nan _ Hy). pose proof (key_not_nan _ Hx).
    symmetry. apply Z.ltb_ge. lia.
  - rewrite orb_false_r. reflexivity.
Qed.

(** ** sort.Float64s sorts *)

Lemma not_less_key (a b : float64) : lessFloat64 b a = false <-> key a <= key b.
Proof. rewrite lessFloat64_key. apply Z.ltb_ge. Qed.

Lemma less_key (a b : float64) : lessFloat64 a b = true <-> key a < key b.
Proof. rewrite lessFloat64_key. apply Z.ltb_lt. Qed.

Lemma sink_descending (x : float64) (r : list float64) :
  descending_keys r -> descending_keys (sink x r).
Proof.
  unfold descending_keys. induction r as [| y r IH]; intros H; simpl.
  - constructor; constructor.
  - apply StronglySorted_inv in H. destruct H as [Hr Hy].
    destruct (lessFloat64 x y) eqn:E.
    + apply less_key in E. constructor; [apply IH, Hr |].
      apply (Permutation_Forall (Permutation_sym (sink_Permutation x r))).
      constructor; [lia | exact Hy].
    + apply not_less_key in E. constructor.
      * constructor; assumption.
      * constructor; [exact E |].
        eapply Forall_impl; [| exact Hy]. simpl. intros b Hb. lia.
Qed.

Lemma fold_sink_descending (values acc : list float64) :
  descending_keys acc ->
  descending_keys (fold_left (fun rev_prefix x => sink x rev_prefix) values acc).
Proof.
  revert acc. induction values as [| v values IH]; intros acc H; simpl.
  - exact H.
  - apply IH, sink_descending, H.
Qed.

Lemma StronglySorted_snoc {A : Type} (R : A -> A -> Prop) (l : list A) (a : A) :
  StronglySorted R l -> Forall (fun b => R b a) l -> StronglySorted R (l ++ [a]).
Proof.
  induction l as [| b l IH]; intros Hs Hf; simpl.
  - constructor; constructor.
  - apply StronglySorted_inv in Hs. destruct Hs as [Hs Hb].
    apply Forall_cons_iff in Hf. destruct Hf as [Hba Hf].
    constructor; [apply IH; assumption |].
    apply Forall_app. split; [exact Hb | constructor; [exact Hba | constructor]].
Qed.

Lemma StronglySorted_rev {A : Type} (R : A -> A -> Prop) (l : list A) :
  StronglySorted R l -> StronglySorted (fun a b => R b a) (rev l).
Proof.
  induction 1 as [| a l Hs IH Hf]; simpl.
  - constructor.
  - apply StronglySorted_snoc; [exact IH |].
    apply Forall_rev. exact Hf.
Qed.

Lemma sort_Float64s_ascending_keys (values : list float64) :
  StronglySorted (fun a b => key a <= key b) (sort_Float64s values).
Proof.
  unfold sort_Float64s.
  apply (StronglySorted_rev (fun a b => key b <= key a)).
  apply fold_sink_descending. constructor.
Qed.

Lemma ascending_keys (values : list float64) :
  ascending values <-> StronglySorted (fun a b => key a <= key b) values.
Proof.
  unfold ascending. split; intros H; induction H as [| a l Hs IH Hf]; constructor;
    try assumption; (eapply Forall_impl; [| exact Hf]); intros b Hb;
    apply not_less_key; exact Hb.
Qed.

Lemma sort_Float64s_ascending (values : list float64) :
  ascending (sort_Float64s values).
Proof. apply ascending_keys, sort_Float64s_ascending_keys. Qed.

(** Two sorted lists of integers with the same elements are the same list. *)
Lemma sorted_Permutation_eq (l1 l2 : list Z) :
  StronglySorted Z.le l1 -> StronglySorted Z.le l2 -> Permutation l1 l2 -> l1 = l2.
Proof.
  revert l2. induction l1 as [| a l1 IH]; intros l2 H1 H2 P.
  - apply Permutation_nil in P. congruence.
  - destruct l2 as [| b l2]; [apply Permutation_sym, Permutation_nil in P; discriminate |].
    apply StronglySorted_inv in H1, H2. destruct H1 as [S1 F1], H2 as [S2 F2].
    assert (E : a = b).
    { assert (Ia : In a (b :: l2)) by (apply (Permutation_in _ P); left; reflexivity).
      assert (Ib : In b (a :: l1))
        by (apply (Permutation_in _ (Permutation_sym P)); left; reflexivity).
      rewrite Forall_forall in F1, F2.
      destruct Ia as [-> | Ia]; [reflexivity |].
      destruct Ib as [-> | Ib]; [reflexivity |].
      specialize (F1 _ Ib). specialize (F2 _ Ia). lia. }
    subst b. f_equal. apply IH; try assumption.
    eapply Permutation_cons_inv. exact P.
Qed.

Lemma StronglySorted_map_key (l : list float64) :
  StronglySorted (fun a b => key a <= key b) l -> StronglySorted Z.le (map key l).
Proof.
  induction 1 as [| a l Hs IH Hf]; simpl; constructor; [exact IH |].
  apply Forall_map. exact Hf.
Qed.

(** Sorting two orderings of a batch gives the same keys, place by place. *)
Lemma sort_Float64s_keys (values values' : list float64) :
  Permutation values values' ->
  map key (sort_Float64s values) = map key (sort_Float64s values').
Proof.
  intros P. apply sorted_Permutation_eq.
  - apply StronglySorted_map_key, sort_Float64s_ascending_keys.
  - apply StronglySorted_map_key, sort_Float64s_ascending_keys.
  - apply Permutation_map.
    eapply perm_trans; [apply sort_Float64s_Permutation |].
    eapply perm_trans; [exact P |].
    apply Permutation_sym, sort_Float64s_Permutation.
Qed.

(** ** Equal as numbers *)

Lemma SFkey_eq (x y : spec_float) :
  valid_binary x = true -> valid_binary y = true ->
  SFkey x = SFkey y -> SFsame x y.
Proof.
  intros Vx Vy E. pose proof key_inf_pos as K.
  destruct x as [sx | sx | | sx mx ex], y as [sy | sy | | sy my ey];
    simpl in Vx, Vy;
    try (pose proof (finite_key_bounds _ _ Vx) as Bx);
    try (pose proof (finite_key_bounds _ _ Vy) as By);
    unfold SFkey in E;
    try (left; reflexivity);
    try (right; eauto; fail);
    try (destruct sx; lia); try (destruct sy; lia);
    try (destruct sx, sy; (left; reflexivity) || lia).
  assert (Es : sx = sy) by (destruct sx, sy; reflexivity || lia).
  subst sy.
  assert (Ek : Zpos mx * 2 ^ (ex + 1074) = Zpos my * 2 ^ (ey + 1074)) by (destruct sx; lia).
  assert (Ee : ex = ey).
  { destruct (Z.lt_trichotomy ex ey) as [L | [? | G]]; [| assumption |].
    - pose proof (finite_key_lt _ _ _ _ Vx Vy L). lia.
    - pose proof (finite_key_lt _ _ _ _ Vy Vx G). lia. }
  subst ey. left. f_equal.
  pose proof (bounded_inv _ _ Vx) as (He & _).
  pose proof (pow2_gt_0 (ex + 1074) ltac:(lia)).
  assert (Zpos mx = Zpos my) by nia. congruence.
Qed.

Lemma SFsame_key (x y : spec_float) : SFsame x y -> SFkey x = SFkey y.
Proof. intros [-> | (s & s' & -> & ->)]; reflexivity. Qed.

Lemma key_eq_same (x y : float64) : key x = key y <-> SFsame (Prim2SF x) (Prim2SF y).
Proof.
  split; [apply SFkey_eq; apply Prim2SF_valid | apply SFsame_key].
Qed.

Lemma float64_eq_key (x y : float64) : float64_eq x y = true <-> key x = key y.
Proof.
  unfold float64_eq. rewrite eqb_key. pose proof key_inf_pos.
  destruct (isNaN x) eqn:Hx, (isNaN y) eqn:Hy; simpl.
  - rewrite (key_nan _ Hx), (key_nan _ Hy). split; reflexivity.
  - rewrite (key_nan _ Hx). pose proof (key_not_nan _ Hy). split; [discriminate | lia].
  - rewrite (key_nan _ Hy). pose proof (key_not_nan _ Hx). split; [discriminate | lia].
  - rewrite orb_false_r. apply Z.eqb_eq.
Qed.

Lemma SF64add_zero_l (s : bool) (y : spec_float) :
  SF64add (S754_zero s) y =
  match y with
  | S754_zero sy => S754_zero (if Bool.eqb s sy then s else false)
  | _ => y
  end.
Proof. destruct y as [sy | sy | | sy my ey]; try reflexivity. destruct s, sy; reflexivity. Qed.

Lemma SF64add_zero_r (x : spec_float) (s : bool) :
  SF64add x (S754_zero s) =
  match x with
  | S754_zero sx => S754_zero (if Bool.eqb sx s then sx else false)
  | _ => x
  end.
Proof. destruct x as [sx | sx | | sx mx ex]; try reflexivity. destruct s, sx; reflexivity. Qed.

Lemma SF64add_same (a a' b b' : spec_float) :
  SFsame a a' -> SFsame b b' -> SFsame (SF64add a b) (SF64add a' b').
Proof.
  intros [-> | (sa & sa' & -> & ->)] [-> | (sb & sb' & -> & ->)].
  - left. reflexivity.
  - rewrite !SF64add_zero_r. destruct a'; [right; eauto | left; reflexivity ..].
  - rewrite !SF64add_zero_l. destruct b'; [right; eauto | left; reflexivity ..].
  - rewrite !SF64add_zero_l. right. eauto.
Qed.

Lemma SF64div_same (a a' d : spec_float) (sd : bool) (md : positive) (ed : Z) :
  d = S754_finite sd md ed ->
  SFsame a a' -> SFsame (SF64div a d) (SF64div a' d).
Proof.
  intros -> [-> | (sa & sa' & -> & ->)]; [left; reflexivity |].
  right. simpl. eauto.
Qed.

(** The mean of the two middle elements does not see the sign of a zero. *)
Lemma midpoint_key (a a' b b' : float64) :
  key a = key a' -> key b = key b' ->
  key ((a + b) / 2)%float = key ((a' + b') / 2)%float.
Proof.
  intros Ha Hb. apply key_eq_same in Ha, Hb. apply key_eq_same.
  rewrite !FloatAxioms.div_spec, !FloatAxioms.add_spec.
  eapply SF64div_same; [vm_compute; reflexivity |].
  apply SF64add_same; assumption.
Qed.

(** ** C9: the values a block stores *)

Lemma run_Values (g : goroutine) (b b' : Block) :
  run g b = Done b' ->
  Values b' = match g with
              | GoMedian => sort_Float64s (Values b)
              | _ => Values b
              end.
Proof.
  destruct g; simpl; intros H; try (injection H as <-; reflexivity).
  apply bind_Done in H. destruct H as [[sorted m] [Hm H]]. injection H as <-. simpl.
  destruct (Values b) as [| v vs] eqn:E; [rewrite calculateMedian_nil in Hm; discriminate |].
  destruct (calculateMedian_Done (v :: vs)) as [m' Hm']; [discriminate |].
  congruence.
Qed.

Lemma calculateBlockStats_Values_unsorted (schedule : list goroutine) (b b' : Block) :
  ~ In GoMedian schedule ->
  calculateBlockStats schedule b = Done b' -> Values b' = Values b.
Proof.
  revert b. induction schedule as [| g rest IH]; intros b Hn H; simpl in H.
  - injection H as <-. reflexivity.
  - apply bind_Done in H. destruct H as [b1 [H1 H2]].
    apply run_Values in H1. apply IH in H2; [| intros ?; apply Hn; right; assumption].
    rewrite H2, H1. destruct g; try reflexivity. exfalso. apply Hn. left. reflexivity.
Qed.

Lemma calculateBlockStats_Values_once (schedule : list goroutine) (b b' : Block) :
  NoDup schedule -> In GoMedian schedule ->
  calculateBlockStats schedule b = Done b' -> Values b' = sort_Float64s (Values b).
Proof.
  revert b. induction schedule as [| g rest IH]; intros b Hd Hin H; simpl in H.
  - contradiction.
  - apply bind_Done in H. destruct H as [b1 [H1 H2]].
    apply run_Values in H1. apply NoDup_cons_iff in Hd. destruct Hd as [Hg Hd].
    destruct (goroutine_eq_dec g GoMedian) as [-> | Hne].
    + apply calculateBlockStats_Values_unsorted in H2; [congruence | exact Hg].
    + destruct Hin as [? | Hin]; [contradiction |].
      rewrite (IH b1 Hd Hin H2), H1. destruct g; try reflexivity. contradiction.
Qed.

Lemma goroutines_NoDup : NoDup goroutines.
Proof.
  unfold goroutines. repeat constructor; simpl; intuition discriminate.
Qed.

Lemma calculateBlockStats_Values (schedule : list goroutine) (b b' : Block) :
  Permutation schedule goroutines ->
  calculateBlockStats schedule b = Done b' -> Values b' = sort_Float64s (Values b).
Proof.
  intros P. apply calculateBlockStats_Values_once.
  - apply (Permutation_NoDup (Permutation_sym P)), goroutines_NoDup.
  - apply (Permutation_in _ (Permutation_sym P)). simpl. tauto.
Qed.

Lemma reachable_ascending (bc : Blockchain) :
  reachable bc -> forall b, In b bc -> ascending (Values b).
Proof.
  induction 1 as [now | bc bc' schedule now values _ IH P H]; intros b Hb.
  - destruct Hb as [<- | []]. constructor.
  - apply AddBlock_Done in H. destruct H as (prevBlock & newBlock & _ & Hn & ->).
    apply in_app_or in Hb. destruct Hb as [Hb | [<- | []]].
    + apply in_map_iff in Hb. destruct Hb as (b0 & <- & Hb0).
      destruct (mark_fields b0) as (_ & _ & -> & _). apply IH, Hb0.
    + simpl. rewrite (calculateBlockStats_Values _ _ _ P Hn). apply sort_Float64s_ascending.
Qed.

(** C9. The block an append stores holds the batch sorted: its [Values] is
    [sort.Float64s] of the batch, ascending and with the elements of the
    batch; in every chain the program builds, the values of every block are
    ascending. *)
Theorem stored_values_sorted :
  (forall schedule now values bc bc',
     Permutation schedule goroutines ->
     AddBlock schedule now values bc = Done bc' ->
     exists newBlock,
       bc' = markBlocksWithOutliers bc ++ [newBlock] /\
       Values newBlock = sort_Float64s values /\
       ascending (Values newBlock) /\
       Permutation (Values newBlock) values) /\
  (forall bc, reachable bc -> forall b, In b bc -> ascending (Values b)).
Proof.
  split; [| exact reachable_ascending].
  intros schedule now values bc bc' P H.
  apply AddBlock_Done in H. destruct H as (prevBlock & newBlock & _ & Hn & ->).
  exists (set_Hash newBlock (calculateHash newBlock)).
  apply (calculateBlockStats_Values _ _ _ P) in Hn. simpl in *.
  rewrite Hn. split; [reflexivity |]. split; [reflexivity |].
  split; [apply sort_Float64s_ascending | apply sort_Float64s_Permutation].
Qed.

(** The block of [example_chain] holds -100, ten zeros, 100: not the batch
    as it was handed over. *)
Lemma stored_values_sorted_witness :
  (exists newBlock,
     example_chain = markBlocksWithOutliers (NewBlockchain example_time) ++ [newBlock] /\
     Values newBlock = sort_Float64s example_batch /\
     ascending (Values newBlock) /\
     Permutation (Values newBlock) example_batch) /\
  sort_Float64s example_batch = [-100; 0; 0; 0; 0; 0; 0; 0; 0; 0; 0; 100]%float /\
  (forall b, In b example_chain -> ascending (Values b)).
Proof.
  split; [| split].
  - apply (proj1 stored_values_sorted goroutines example_time example_batch
                 (NewBlockchain example_time) example_chain).
    + apply Permutation_refl.
    + apply example_chain_Done.
  - vm_compute. reflexivity.
  - apply (proj2 stored_values_sorted example_chain), example_chain_reachable.
Defined.

(** ** C6: the median *)

(** The element [calculateMedian] returns, by the parity of the count. *)
Lemma calculateMedian_middle (values : list float64) :
  values <> [] ->
  let sorted := sort_Float64s values in
  let n := len values in
  if Z.even n then
    exists a b, nth_error sorted (Z.to_nat (n / 2 - 1)) = Some a /\
                nth_error sorted (Z.to_nat (n / 2)) = Some b /\
                calculateMedian values = Done (sorted, ((a + b) / 2)%float)
  else
    exists m, nth_error sorted (Z.to_nat (n / 2)) = Some m /\
              calculateMedian values = Done (sorted, m).
Proof.
  intros Hne sorted n. unfold calculateMedian. cbv zeta.
  rewrite sort_Float64s_len. fold sorted. fold n.
  assert (Hn : 0 < n).
  { pose proof (len_nonneg values). destruct (Z.eq_dec (len values) 0) as [E | E]; [| lia].
    apply len_zero_nil in E. contradiction. }
  rewrite Z.rem_mod_nonneg, Z.quot_div_nonneg, Zmod_even by lia.
  assert (Hs : len sorted = n) by apply sort_Float64s_len.
  assert (Hq : 0 <= n / 2 < n).
  { split; [apply Z.div_pos; lia | apply Z.div_lt_upper_bound; lia]. }
  destruct (Z.even n) eqn:E; simpl.
  - assert (Hq1 : 0 <= n / 2 - 1 < n).
    { pose proof (Zmod_even n) as M. rewrite E in M.
      pose proof (Z.div_mod n 2 ltac:(lia)). lia. }
    destruct (at_index_in_range sorted (n / 2 - 1)) as [a [Ha Na]]; [lia |].
    destruct (at_index_in_range sorted (n / 2)) as [b [Hb Nb]]; [lia |].
    rewrite Ha, Hb. simpl. exists a, b. auto.
  - destruct (at_index_in_range sorted (n / 2)) as [m [Hm Nm]]; [lia |].
    rewrite Hm. simpl. exists m. auto.
Qed.

Lemma Permutation_len {A : Type} (l l' : list A) : Permutation l l' -> len l = len l'.
Proof. intros P. unfold len. f_equal. apply Permutation_length, P. Qed.

Lemma sorted_keys_nth (values values' : list float64) (i : nat) (x x' : float64) :
  Permutation values values' ->
  nth_error (sort_Float64s values) i = Some x ->
  nth_error (sort_Float64s values') i = Some x' ->
  key x = key x'.
Proof.
  intros P H H'.
  apply (map_nth_error key) in H, H'.
  rewrite (sort_Float64s_keys _ _ P) in H. congruence.
Qed.

(** C6. On a batch that is not empty [calculateMedian] sorts the batch
    ascending and returns its middle element when the count is odd, the mean
    of the two middle elements when it is even; on another ordering of the
    batch it returns an equal number (equal by [==], or NaN both times). *)
Theorem median_of_batch (values : list float64) :
  values <> [] ->
  exists m,
    calculateMedian values = Done (sort_Float64s values, m) /\
    ascending (sort_Float64s values) /\
    Permutation (sort_Float64s values) values /\
    (Z.odd (len values) = true ->
       nth_error (sort_Float64s values) (Z.to_nat (len values / 2)) = Some m) /\
    (Z.even (len values) = true ->
       exists a b,
         nth_error (sort_Float64s values) (Z.to_nat (len values / 2 - 1)) = Some a /\
         nth_error (sort_Float64s values) (Z.to_nat (len values / 2)) = Some b /\
         m = ((a + b) / 2)%float) /\
    (forall values', Permutation values values' ->
       exists m', calculateMedian values' = Done (sort_Float64s values', m') /\
                  float64_eq m m' = true).
Proof.
  intros Hne.
  pose proof (calculateMedian_middle values Hne) as H. simpl in H.
  assert (Hperm : forall values', Permutation values values' -> values' <> []).
  { intros values' P E. subst values'. apply Permutation_sym, Permutation_nil in P.
    contradiction. }
  rewrite <- Z.negb_even.
  destruct (Z.even (len values)) eqn:E.
  - destruct H as (a & b & Ha & Hb & Hm).
    exists ((a + b) / 2)%float. split; [exact Hm |].
    split; [apply sort_Float64s_ascending |]. split; [apply sort_Float64s_Permutation |].
    split; [discriminate |]. split; [intros _; exists a, b; auto |].
    intros values' P.
    pose proof (calculateMedian_middle values' (Hperm _ P)) as H'. simpl in H'.
    rewrite <- (Permutation_len _ _ P), E in H'.
    destruct H' as (a' & b' & Ha' & Hb' & Hm').
    exists ((a' + b') / 2)%float. split; [exact Hm' |].
    apply float64_eq_key, midpoint_key; eapply sorted_keys_nth; eassumption.
  - destruct H as (m & Hn & Hm).
    exists m. split; [exact Hm |].
    split; [apply sort_Float64s_ascending |]. split; [apply sort_Float64s_Permutation |].
    split; [intros _; exact Hn |]. split; [discriminate |].
    intros values' P.
    pose proof (calculateMedian_middle values' (Hperm _ P)) as H'. simpl in H'.
    rewrite <- (Permutation_len _ _ P), E in H'.
    destruct H' as (m' & Hn' & Hm').
    exists m'. split; [exact Hm' |].
    apply float64_eq_key. eapply sorted_keys_nth; eassumption.
Qed.

Lemma median_of_batch_witness :
  exists m,
    calculateMedian odd_batch = Done (sort_Float64s odd_batch, m) /\
    ascending (sort_Float64s odd_batch) /\
    Permutation (sort_Float64s odd_batch) odd_batch /\
    (Z.odd (len odd_batch) = true ->
       nth_error (sort_Float64s odd_batch) (Z.to_nat (len odd_batch / 2)) = Some m) /\
    (Z.even (len odd_batch) = true ->
       exists a b,
         nth_error (sort_Float64s odd_batch) (Z.to_nat (len odd_batch / 2 - 1)) = Some a /\
         nth_error (sort_Float64s odd_batch) (Z.to_nat (len odd_batch / 2)) = Some b /\
         m = ((a + b) / 2)%float) /\
    (forall values', Permutation odd_batch values' ->
       exists m', calculateMedian values' = Done (sort_Float64s values', m') /\
                  float64_eq m m' = true).
Proof. apply (median_of_batch odd_batch). discriminate. Defined.

(** The equality is that of numbers: with zeros of both signs in a batch,
    the median of one ordering can be -0 and that of another +0. *)
Example median_sign_of_zero :
  calculateMedian [0; -0; 1]%float = Done ([0; -0; 1]%float, (-0)%float) /\
  calculateMedian [-0; 0; 1]%float = Done ([-0; 0; 1]%float, 0%float).
Proof. split; reflexivity. Qed.

(** ** Rounding to nearest, as SpecFloat computes it *)

Lemma fexp_eq (x : Z) : fexp prec emax x = Z.max (x - 53) (-1074).
Proof. reflexivity. Qed.

Lemma digits2_pos_unique (q : positive) (k : Z) :
  2 ^ (k - 1) <= Zpos q < 2 ^ k -> Zpos (digits2_pos q) = k.
Proof.
  intros [Hlo Hhi]. pose proof (digits2_pos_bounds q) as [Dlo Dhi].
  set (d := Zpos (digits2_pos q)) in *.
  assert (0 < d) by (unfold d; lia).
  destruct (Z.lt_trichotomy d k) as [L | [E | G]]; [| exact E |]; exfalso.
  - assert (2 ^ d <= 2 ^ (k - 1)) by (apply Z.pow_le_mono_r; lia). lia.
  - destruct (Z.le_gt_cases k 0) as [Hk | Hk].
    + assert (2 ^ k <= 2 ^ 0) by (apply Z.pow_le_mono_r_iff; lia || (rewrite Z.pow_neg_r in Hhi by lia; lia) || lia).
      simpl in *. lia.
    + assert (2 ^ k <= 2 ^ (d - 1)) by (apply Z.pow_le_mono_r; lia). lia.
Qed.

(** Shifting left adds binary digits. *)
Lemma iter_xO_value (m d : positive) : Zpos (Pos.iter xO m d) = Zpos m * 2 ^ Zpos d.
Proof.
  revert m. induction d as [| d IH] using Pos.peano_ind; intros m.
  - simpl. lia.
  - rewrite Pos.iter_succ, Pos2Z.inj_xO, IH, Pos2Z.inj_succ, Z.pow_succ_r by lia. lia.
Qed.

Lemma shl_align_spec (mx : positive) (ex ex' : Z) :
  snd (shl_align mx ex ex') = Z.min ex ex' /\
  Zpos (fst (shl_align mx ex ex')) = Zpos mx * 2 ^ (ex - Z.min ex ex').
Proof.
  unfold shl_align. destruct (ex' - ex) as [| d | d] eqn:E; cbn [fst snd].
  - replace (Z.min ex ex') with ex by lia. rewrite Z.sub_diag, Z.pow_0_r. lia.
  - replace (Z.min ex ex') with ex by lia. rewrite Z.sub_diag, Z.pow_0_r. lia.
  - replace (Z.min ex ex') with ex' by lia. rewrite iter_xO_value.
    replace (ex - ex') with (Zpos d) by lia. lia.
Qed.

(** [iter_pos f n] applies [f] n times. *)
Lemma iter_pos_invariant {A : Type} (f : A -> A) (P : Z -> A -> Prop) :
  (forall k x, 0 <= k -> P k x -> P (k + 1) (f x)) ->
  forall n k x, 0 <= k -> P k x -> P (k + Zpos n) (iter_pos f n x).
Proof.
  intros Hf. induction n as [n IH | n IH |]; intros k x Hk Hx; simpl.
  - replace (k + Zpos n~1) with ((k + 1 + Zpos n) + Zpos n) by lia.
    apply IH; [lia |]. apply IH; [lia |]. apply Hf; assumption.
  - replace (k + Zpos n~0) with ((k + Zpos n) + Zpos n) by lia.
    apply IH; [lia |]. apply IH; assumption.
  - apply Hf; assumption.
Qed.

Lemma shr_1_shifted (M k : Z) (mrs : shr_record) :
  0 <= M -> 0 <= k -> shifted M k mrs -> shifted M (k + 1) (shr_1 mrs).
Proof.
  intros HM Hk [Hm Hrs].
  assert (Hp : 0 < 2 ^ k) by (apply pow2_gt_0; lia).
  assert (Hq : 0 <= M / 2 ^ k) by (apply Z.div_pos; lia).
  assert (Hdiv : M / 2 ^ (k + 1) = M / 2 ^ k / 2).
  { rewrite Z.pow_add_r, Z.div_div by lia. reflexivity. }
  assert (Hmod : M mod 2 ^ (k + 1) = M mod 2 ^ k + 2 ^ k * ((M / 2 ^ k) mod 2)).
  { rewrite Z.pow_add_r by lia. change (2 ^ 1) with 2. apply Z.rem_mul_r; lia. }
  pose proof (Z.mod_pos_bound M (2 ^ k) Hp) as Hr.
  destruct mrs as [m r s]. simpl in Hm, Hrs. subst m.
  unfold shifted. rewrite Hdiv, Hmod.
  destruct (M / 2 ^ k) as [| p | p] eqn:E; [| | lia].
  - change (0 mod 2) with 0. change (0 / 2) with 0. rewrite Z.mul_0_r, Z.add_0_r.
    simpl. split; [reflexivity | exact Hrs].
  - destruct p as [p | p |].
    + replace (Zpos p~1 / 2) with (Zpos p)
        by (rewrite Pos2Z.inj_xI; apply Z.div_unique with 1; lia).
      replace (Zpos p~1 mod 2) with 1
        by (rewrite Pos2Z.inj_xI; apply Z.mod_unique with (Zpos p); lia).
      simpl. split; [reflexivity |]. split; [discriminate | lia].
    + replace (Zpos p~0 / 2) with (Zpos p)
        by (rewrite Pos2Z.inj_xO; apply Z.div_unique with 0; lia).
      replace (Zpos p~0 mod 2) with 0
        by (rewrite Pos2Z.inj_xO; apply Z.mod_unique with (Zpos p); lia).
      rewrite Z.mul_0_r, Z.add_0_r. simpl. split; [reflexivity | exact Hrs].
    + change (1 mod 2) with 1. change (1 / 2) with 0.
      simpl. split; [reflexivity |]. split; [discriminate | lia].
Qed.

Lemma iter_shr_1_shifted (M : Z) (n : positive) :
  0 <= M ->
  shifted M (Zpos n) (iter_pos shr_1 n (Build_shr_record M false false)).
Proof.
  intros HM.
  apply (iter_pos_invariant shr_1 (shifted M)
           (fun k x Hk => shr_1_shifted M k x HM Hk) n 0); [lia |].
  split; simpl; [rewrite Z.div_1_r; reflexivity |].
  split; [intros _; apply Z.mod_1_r | reflexivity].
Qed.

(** A shift keeps a mantissa that is not negative so. *)
Lemma shr_1_nonneg (mrs : shr_record) : 0 <= shr_m mrs -> 0 <= shr_m (shr_1 mrs).
Proof.
  destruct mrs as [m r s]. simpl. intros H.
  destruct m as [| p | p]; [simpl; lia | | lia].
  destruct p; simpl; lia.
Qed.

Lemma round_nearest_even_cases (m : Z) (l : location) :
  round_nearest_even m l = m \/ (round_nearest_even m l = m + 1 /\ l <> loc_Exact).
Proof.
  destruct l as [| c]; simpl; [left; reflexivity |].
  destruct c; [destruct (Z.even m) | |]; auto; right; split; auto; discriminate.
Qed.

Lemma loc_of_shr_record_exact (mrs : shr_record) :
  loc_of_shr_record mrs = loc_Exact <-> orb (shr_r mrs) (shr_s mrs) = false.
Proof.
  destruct mrs as [m r s]. destruct r, s; simpl; split; (reflexivity || discriminate).
Qed.

Lemma shr_fexp_no_shift (m : positive) (e : Z) :
  fexp prec emax (Zpos (digits2_pos m) + e) <= e ->
  shr_fexp prec emax (Zpos m) e loc_Exact = (Build_shr_record (Zpos m) false false, e).
Proof.
  intros H. unfold shr_fexp, shr. cbn [Zdigits2 shr_record_of_loc].
  destruct (fexp prec emax (Zpos (digits2_pos m) + e) - e) eqn:E; try reflexivity. lia.
Qed.

Lemma shr_fexp_shift (m : positive) (e : Z) (n : positive) :
  fexp prec emax (Zpos (digits2_pos m) + e) - e = Zpos n ->
  shr_fexp prec emax (Zpos m) e loc_Exact =
  (iter_pos shr_1 n (Build_shr_record (Zpos m) false false), e + Zpos n).
Proof.
  intros H. unfold shr_fexp, shr. cbn [Zdigits2 shr_record_of_loc]. rewrite H. reflexivity.
Qed.

(** A mantissa that already fits is kept. *)
Lemma binary_round_aux_fits (sx : bool) (m : positive) (e : Z) :
  fexp prec emax (Zpos (digits2_pos m) + e) <= e ->
  binary_round_aux prec emax sx (Zpos m) e loc_Exact =
  if e <=? 971 then S754_finite sx m e else S754_infinity sx.
Proof.
  intros H. unfold binary_round_aux.
  rewrite (shr_fexp_no_shift m e H). cbn [shr_m loc_of_shr_record round_nearest_even].
  rewrite (shr_fexp_no_shift m e H). reflexivity.
Qed.

Lemma pow2_split (a b : Z) : 0 <= a -> 0 <= b -> 2 ^ (a + b) = 2 ^ a * 2 ^ b.
Proof. intros. apply Z.pow_add_r; assumption. Qed.

Lemma binary_round_rounds (sx : bool) (p : positive) (e : Z) :
  -1074 <= e ->
  rounds_to (Zpos p * 2 ^ (e + 1074)) sx (binary_round prec emax sx p e).
Proof.
  intros He. unfold binary_round.
  set (d := Zpos (digits2_pos p)).
  set (f := fexp prec emax (d + e)).
  assert (Hf : f = Z.max (d + e - 53) (-1074)) by reflexivity.
  pose proof (shl_align_spec p e f) as [Hsnd Hfst].
  destruct (shl_align p e f) as [mz ez] eqn:Esh. cbn [fst snd] in Hsnd, Hfst.
  pose proof (digits2_pos_bounds p) as [Plo Phi]. fold d in Plo, Phi.
  assert (Hd : 0 < d) by (unfold d; lia).
  destruct (Z.le_gt_cases f e) as [Hfe | Hfe].
  - (* the mantissa is shifted left onto the grid: the result is exact *)
    assert (Ez : ez = f) by lia. clear Hsnd. subst ez.
    replace (Z.min e f) with f in Hfst by lia.
    assert (Hp : 0 < 2 ^ (e - f)) by (apply pow2_gt_0; lia).
    assert (Dz : Zpos (digits2_pos mz) = d + e - f).
    { apply digits2_pos_unique. rewrite Hfst.
      replace (d + e - f - 1) with ((d - 1) + (e - f)) by lia.
      replace (d + e - f) with (d + (e - f)) by lia.
      rewrite !pow2_split by lia. nia. }
    rewrite binary_round_aux_fits
      by (rewrite Dz, fexp_eq; lia).
    exists f, (Zpos mz), (Zpos mz), mz, f.
    assert (EV : Zpos mz * 2 ^ (f + 1074) = Zpos p * 2 ^ (e + 1074)).
    { rewrite Hfst. replace (e + 1074) with ((e - f) + (f + 1074)) by lia.
      rewrite (pow2_split (e - f)) by lia. lia. }
    assert (Hg : 0 < 2 ^ (f + 1074)) by (apply pow2_gt_0; lia).
    split; [lia |]. split; [rewrite <- EV; nia |].
    split; [left; reflexivity |]. split.
    + destruct (Z.eq_dec f (-1074)) as [? | Hn]; [left; assumption | right].
      pose proof (digits2_pos_bounds mz) as [Mlo _]. rewrite Dz in Mlo.
      replace (d + e - f - 1) with 52 in Mlo by lia. exact Mlo.
    + split; [left; split; reflexivity | reflexivity].
  - (* the mantissa is shifted right by n = d - 53 binary digits *)
    assert (Ez : ez = e) by lia. clear Hsnd. subst ez.
    replace (Z.min e f) with e in Hfst by lia.
    rewrite Z.sub_diag, Z.pow_0_r, Z.mul_1_r in Hfst.
    injection Hfst as ->.
    assert (Ef : f = d + e - 53) by lia.
    set (n := Z.to_pos (f - e)).
    assert (En : Zpos n = d - 53) by (unfold n; rewrite Z2Pos.id; lia).
    unfold binary_round_aux.
    rewrite (shr_fexp_shift p e n) by (fold d; rewrite fexp_eq; lia).
    pose proof (iter_shr_1_shifted (Zpos p) n ltac:(lia)) as [Hm Hexact].
    set (mrs' := iter_pos shr_1 n (Build_shr_record (Zpos p) false false)) in *.
    set (Qlo := Zpos p / 2 ^ Zpos n) in *.
    assert (H2n : 0 < 2 ^ Zpos n) by (apply pow2_gt_0; lia).
    assert (Hgrid : 2 ^ (f + 1074) = 2 ^ Zpos n * 2 ^ (e + 1074)).
    { rewrite <- pow2_split by lia. f_equal. lia. }
    assert (Hg : 0 < 2 ^ (e + 1074)) by (apply pow2_gt_0; lia).
    pose proof (Z.div_mod (Zpos p) (2 ^ Zpos n) ltac:(lia)) as Hdm. fold Qlo in Hdm.
    pose proof (Z.mod_pos_bound (Zpos p) (2 ^ Zpos n) H2n) as Hrem.
    assert (Q52 : 2 ^ 52 <= Qlo).
    { apply Z.div_le_lower_bound; [lia |]. rewrite <- pow2_split by lia.
      replace (Zpos n + 52) with (d - 1) by lia. exact Plo. }
    assert (Q53 : Qlo < 2 ^ 53).
    { apply Z.div_lt_upper_bound; [lia |]. rewrite <- pow2_split by lia.
      replace (Zpos n + 53) with d by lia. exact Phi. }
    cbv beta iota zeta. rewrite Hm.
    set (Q := round_nearest_even Qlo (loc_of_shr_record mrs')).
    assert (HQ : Q = Qlo \/ (Q = Qlo + 1 /\ Qlo * 2 ^ (f + 1074) < Zpos p * 2 ^ (e + 1074))).
    { destruct (round_nearest_even_cases Qlo (loc_of_shr_record mrs')) as [E | [E Hl]];
        [left; exact E | right]. split; [exact E |].
      assert (Zpos p mod 2 ^ Zpos n <> 0).
      { intros Hz. apply Hl, loc_of_shr_record_exact, Hexact, Hz. }
      rewrite Hgrid. nia. }
    assert (HV : Qlo * 2 ^ (f + 1074) <= Zpos p * 2 ^ (e + 1074)
                 < (Qlo + 1) * 2 ^ (f + 1074)) by (rewrite Hgrid; nia).
    assert (Qpos : 0 < Q) by (pose proof (pow2_gt_0 52 ltac:(lia)); lia).
    destruct Q as [| q | q] eqn:EQ; [lia | | lia].
    destruct (Z.eq_dec (Zpos q) (2 ^ 53)) as [Ecarry | Hnc].
    + (* the rounded mantissa has 54 digits: one more shift *)
      assert (Eq : q = 9007199254740992%positive) by (injection Ecarry as ->; reflexivity).
      rewrite (shr_fexp_shift q (e + Zpos n) 1).
      * subst q. cbn [iter_pos shr_1 shr_m].
        exists f, Qlo, (2 ^ 53), 4503599627370496%positive, (f + 1).
        split; [lia |]. split; [exact HV |].
        split; [rewrite <- Ecarry; exact HQ |]. split; [right; exact Q52 |].
        split; [right; repeat split; lia |].
        replace (e + Zpos n + 1) with (f + 1) by lia. reflexivity.
      * subst q. change (Zpos (digits2_pos 9007199254740992)) with 54.
        rewrite fexp_eq. lia.
    + assert (Dq : Zpos (digits2_pos q) = 53).
      { apply digits2_pos_unique. simpl (53 - 1). lia. }
      rewrite (shr_fexp_no_shift q (e + Zpos n)) by (rewrite Dq, fexp_eq; lia).
      cbn [shr_m].
      exists f, Qlo, (Zpos q), q, f.
      split; [lia |]. split; [exact HV |]. split; [exact HQ |].
      split; [right; exact Q52 |]. split; [left; split; reflexivity |].
      replace (e + Zpos n) with f by lia. reflexivity.
Qed.

(** The key of what [rounds_to] describes. *)
Lemma rounds_to_key (f Q : Z) (m' : positive) (e' : Z) :
  -1074 <= f ->
  (Zpos m' = Q /\ e' = f) \/ (Q = 2 ^ 53 /\ Zpos m' = 2 ^ 52 /\ e' = f + 1) ->
  Zpos m' * 2 ^ (e' + 1074) = Q * 2 ^ (f + 1074).
Proof.
  intros Hf [[-> ->] | (-> & -> & ->)]; [reflexivity |].
  replace (f + 1 + 1074) with (1 + (f + 1074)) by lia.
  rewrite (pow2_split 1) by lia. change (2 ^ 53) with (2 ^ 52 * 2 ^ 1). lia.
Qed.

(** A valid value on a finer grid than [f] lies below 2^52 steps of [f]. *)
Lemma finer_grid_below (mb : positive) (eb f : Z) :
  bounded prec emax mb eb = true -> eb < f ->
  Zpos mb * 2 ^ (eb + 1074) < 2 ^ 52 * 2 ^ (f + 1074).
Proof.
  intros Hb Hlt. pose proof (bounded_inv _ _ Hb) as (He & Hd & _).
  pose proof (digits2_pos_bounds mb) as [_ Hm].
  assert (L : Zpos mb < 2 ^ 53).
  { eapply Z.lt_le_trans; [exact Hm | apply Z.pow_le_mono_r; lia]. }
  replace (f + 1074) with ((eb + 1074) + 1 + (f - eb - 1)) by lia.
  rewrite (pow2_split (eb + 1074 + 1)), (pow2_split (eb + 1074)) by lia.
  pose proof (pow2_gt_0 (eb + 1074) ltac:(lia)) as HA.
  pose proof (pow2_gt_0 (f - eb - 1) ltac:(lia)) as HB.
  change (2 ^ 1) with 2. change (2 ^ 53) with (2 * 2 ^ 52) in L.
  pose proof (pow2_gt_0 52 ltac:(lia)) as HC.
  generalize dependent (2 ^ (eb + 1074)). intros A HA.
  generalize dependent (2 ^ (f - eb - 1)). intros B HB.
  generalize dependent (2 ^ 52). intros C L HC.
  assert (Zpos mb * A < C * (A * 2)) by nia.
  assert (C * (A * 2) <= C * (A * 2 * B)) by nia.
  lia.
Qed.

(** A valid value on the grid [f] or a coarser one is a whole number of
    steps of [f]. *)
Lemma coarser_grid_steps (mb : positive) (eb f : Z) :
  -1074 <= f <= eb ->
  Zpos mb * 2 ^ (eb + 1074) = (Zpos mb * 2 ^ (eb - f)) * 2 ^ (f + 1074).
Proof.
  intros H. replace (eb + 1074) with ((eb - f) + (f + 1074)) by lia.
  rewrite (pow2_split (eb - f)) by lia. lia.
Qed.

(** Rounding does not cross a float64: below. *)
Lemma rounds_to_below (V : Z) (sx : bool) (r : spec_float) (mb : positive) (eb : Z) :
  rounds_to V sx r -> bounded prec emax mb eb = true ->
  V <= Zpos mb * 2 ^ (eb + 1074) ->
  exists m' e', r = S754_finite sx m' e' /\
                Zpos m' * 2 ^ (e' + 1074) <= Zpos mb * 2 ^ (eb + 1074).
Proof.
  intros (f & Qlo & Q & m' & e' & Hf & HV & HQ & Hnorm & Hrep & ->) Hb Hle.
  pose proof (rounds_to_key f Q m' e' Hf Hrep) as HK.
  pose proof (pow2_gt_0 (f + 1074) ltac:(lia)) as HG.
  assert (Hkb : Q * 2 ^ (f + 1074) <= Zpos mb * 2 ^ (eb + 1074)).
  { destruct (Z.lt_ge_cases eb f) as [Hlt | Hge].
    - exfalso. pose proof (finer_grid_below mb eb f Hb Hlt) as Hfine.
      destruct Hnorm as [-> | H52]; [pose proof (bounded_inv _ _ Hb); lia |].
      clear HK Hrep HQ Hb.
      generalize dependent (2 ^ (f + 1074)). intros G HV HG Hfine.
      generalize dependent (2 ^ 52). intros C H52 Hfine. nia.
    - rewrite (coarser_grid_steps mb eb f) in * by lia.
      generalize dependent (Zpos mb * 2 ^ (eb - f)). intros B Hle.
      clear HK Hrep Hnorm Hb.
      generalize dependent (2 ^ (f + 1074)). intros G HV HQ HG Hle.
      destruct HQ as [-> | [-> Hs]]; [lia |].
      assert (Qlo < B) by (apply (Z.mul_lt_mono_pos_r G); lia).
      apply Z.mul_le_mono_nonneg_r; lia. }
  assert (He' : e' <= 971).
  { destruct (Z.le_gt_cases e' 971) as [? | Hgt]; [assumption | exfalso].
    pose proof (bounded_inv _ _ Hb) as (Heb & Hdb & _).
    assert (H52 : 2 ^ 52 <= Zpos m').
    { destruct Hrep as [[-> ->] | (_ & -> & _)]; [| lia].
      destruct Hnorm as [-> | H52]; [lia |]. destruct HQ as [-> | [-> _]]; lia. }
    pose proof (finer_grid_below mb eb e' Hb ltac:(lia)) as Hfine.
    pose proof (pow2_gt_0 (e' + 1074) ltac:(lia)) as HE.
    rewrite <- HK in Hkb. clear HK Hrep Hnorm HQ HV Hb.
    generalize dependent (2 ^ (e' + 1074)). intros E Hkb Hfine HE.
    generalize dependent (2 ^ 52). intros C H52 Hfine. nia. }
  exists m', e'. split; [| rewrite HK; exact Hkb].
  apply Z.leb_le in He'. rewrite He'. reflexivity.
Qed.

(** Rounding does not cross a float64: above. *)
Lemma rounds_to_above (V : Z) (sx : bool) (r : spec_float) (mb : positive) (eb : Z) :
  rounds_to V sx r -> bounded prec emax mb eb = true ->
  Zpos mb * 2 ^ (eb + 1074) <= V ->
  r = S754_infinity sx \/
  exists m' e', r = S754_finite sx m' e' /\
                Zpos mb * 2 ^ (eb + 1074) <= Zpos m' * 2 ^ (e' + 1074).
Proof.
  intros (f & Qlo & Q & m' & e' & Hf & HV & HQ & Hnorm & Hrep & ->) Hb Hle.
  pose proof (rounds_to_key f Q m' e' Hf Hrep) as HK.
  pose proof (pow2_gt_0 (f + 1074) ltac:(lia)) as HG.
  destruct (e' <=? 971); [right | left; reflexivity].
  exists m', e'. split; [reflexivity |]. rewrite HK.
  destruct (Z.lt_ge_cases eb f) as [Hlt | Hge].
  - pose proof (finer_grid_below mb eb f Hb Hlt) as Hfine.
    destruct Hnorm as [-> | H52]; [pose proof (bounded_inv _ _ Hb); lia |].
    clear HK Hrep Hb.
    generalize dependent (2 ^ (f + 1074)). intros G HV HQ HG Hfine.
    generalize dependent (2 ^ 52). intros C H52 Hfine.
    destruct HQ as [-> | [-> _]]; nia.
  - rewrite (coarser_grid_steps mb eb f) in * by lia.
    generalize dependent (Zpos mb * 2 ^ (eb - f)). intros B Hle.
    clear HK Hrep Hnorm Hb.
    generalize dependent (2 ^ (f + 1074)). intros G HV HQ HG Hle.
    assert (B < Qlo + 1) by (apply (Z.mul_lt_mono_pos_r G); lia).
    destruct HQ as [-> | [-> Hs]]; apply Z.mul_le_mono_nonneg_r; lia.
Qed.

(** The result of rounding has the sign asked for and is no NaN. *)
Lemma rounds_to_sign (V : Z) (sx : bool) (r : spec_float) :
  rounds_to V sx r -> r = S754_infinity sx \/ exists m' e', r = S754_finite sx m' e'.
Proof.
  intros (f & Qlo & Q & m' & e' & _ & _ & _ & _ & _ & ->).
  destruct (e' <=? 971); eauto.
Qed.

(** ** Subtracting and adding a number that is not negative *)

Lemma binary_normalize_cases (m e : Z) :
  binary_normalize prec emax m e false =
  match m with
  | 0 => S754_zero false
  | Zpos p => binary_round prec emax false p e
  | Zneg p => binary_round prec emax true p e
  end.
Proof. destruct m; reflexivity. Qed.

Lemma aligned_value (m : positive) (e ez : Z) :
  -1074 <= ez <= e ->
  Zpos (fst (shl_align m e ez)) * 2 ^ (ez + 1074) = Zpos m * 2 ^ (e + 1074).
Proof.
  intros H. destruct (shl_align_spec m e ez) as [_ ->].
  replace (Z.min e ez) with ez by lia.
  replace (e + 1074) with ((e - ez) + (ez + 1074)) by lia.
  rewrite (pow2_split (e - ez)) by lia. lia.
Qed.

Lemma SF64sub_le (x s : spec_float) :
  valid_binary x = true -> valid_binary s = true ->
  SFfinite x -> SFnonneg s ->
  SF64sub x s <> S754_nan /\ SFkey (SF64sub x s) <= SFkey x.
Proof.
  intros Vx Vs Fx Ns. pose proof key_inf_pos as K.
  destruct x as [sx | sx | | sx mx ex]; try contradiction;
    destruct s as [ss | ss | | ss ms es]; try contradiction;
    try (destruct ss; [contradiction |]).
  - destruct sx, ss; simpl; split; (discriminate || lia).
  - simpl. split; [discriminate | lia].
  - simpl in Vs. pose proof (finite_key_bounds _ _ Vs).
    unfold SF64sub, SFsub, SFkey. simpl negb. split; [discriminate | lia].
  - simpl. split; [discriminate | lia].
  - simpl in Vx. pose proof (finite_key_bounds _ _ Vx).
    unfold SF64sub, SFsub, SFkey. simpl negb. split; [discriminate |]. destruct sx; lia.
  - simpl in Vx, Vs.
    pose proof (bounded_inv _ _ Vx) as (Hex & _). pose proof (bounded_inv _ _ Vs) as (Hes & _).
    pose proof (finite_key_bounds _ _ Vx) as Bx.
    unfold SF64sub, SFsub. cbv zeta. rewrite binary_normalize_cases.
    set (ez := Z.min ex es).
    pose proof (aligned_value mx ex ez ltac:(lia)) as HX.
    pose proof (aligned_value ms es ez ltac:(lia)) as HS.
    set (X := Zpos (fst (shl_align mx ex ez))) in *.
    set (S := Zpos (fst (shl_align ms es ez))) in *.
    assert (HX0 : 0 < X) by (unfold X; lia). assert (HS0 : 0 < S) by (unfold S; lia).
    pose proof (pow2_gt_0 (ez + 1074) ltac:(lia)) as HG.
    unfold cond_Zopp, SFkey at 2.
    destruct sx.
    + (* x < 0: the magnitude grows *)
      destruct (- X - S) as [| p | p] eqn:E; [lia | lia |].
      pose proof (binary_round_rounds true p ez ltac:(lia)) as R.
      destruct (rounds_to_above _ _ _ mx ex R Vx) as [-> | (m' & e' & -> & Hk)].
      * rewrite <- HX. assert (Zpos p = X + S) by lia. nia.
      * cbn [SFkey]. split; [discriminate | lia].
      * cbn [SFkey]. split; [discriminate | lia].
    + destruct (X - S) as [| p | p] eqn:E.
      * cbn [SFkey]. split; [discriminate | lia].
      * pose proof (binary_round_rounds false p ez ltac:(lia)) as R.
        destruct (rounds_to_below _ _ _ mx ex R Vx) as (m' & e' & -> & Hk).
        -- rewrite <- HX. assert (Zpos p = X - S) by lia. nia.
        -- cbn [SFkey]. split; [discriminate | lia].
      * pose proof (binary_round_rounds true p ez ltac:(lia)) as R.
        destruct (rounds_to_sign _ _ _ R) as [-> | (m' & e' & ->)];
          cbn [SFkey]; (split; [discriminate |]).
        -- lia.
        -- pose proof (pow2_gt_0 (e' + 1074)). 
           assert (0 <= Zpos m' * 2 ^ (e' + 1074)); [| lia].
           apply Z.mul_nonneg_nonneg; [lia | apply Z.pow_nonneg; lia].
Qed.

Lemma SF64add_ge (x s : spec_float) :
  valid_binary x = true -> valid_binary s = true ->
  SFfinite x -> SFnonneg s ->
  SF64add x s <> S754_nan /\ SFkey x <= SFkey (SF64add x s).
Proof.
  intros Vx Vs Fx Ns. pose proof key_inf_pos as K.
  destruct x as [sx | sx | | sx mx ex]; try contradiction;
    destruct s as [ss | ss | | ss ms es]; try contradiction;
    try (destruct ss; [contradiction |]).
  - destruct sx, ss; simpl; split; (discriminate || lia).
  - simpl. split; [discriminate | lia].
  - simpl in Vs. pose proof (finite_key_bounds _ _ Vs).
    unfold SF64add, SFadd, SFkey. split; [discriminate | lia].
  - simpl. split; [discriminate | lia].
  - simpl in Vx. pose proof (finite_key_bounds _ _ Vx).
    unfold SF64add, SFadd, SFkey. split; [discriminate |]. destruct sx; lia.
  - simpl in Vx, Vs.
    pose proof (bounded_inv _ _ Vx) as (Hex & _). pose proof (bounded_inv _ _ Vs) as (Hes & _).
    pose proof (finite_key_bounds _ _ Vx) as Bx.
    unfold SF64add, SFadd. cbv zeta. rewrite binary_normalize_cases.
    set (ez := Z.min ex es).
    pose proof (aligned_value mx ex ez ltac:(lia)) as HX.
    pose proof (aligned_value ms es ez ltac:(lia)) as HS.
    set (X := Zpos (fst (shl_align mx ex ez))) in *.
    set (S := Zpos (fst (shl_align ms es ez))) in *.
    assert (HX0 : 0 < X) by (unfold X; lia). assert (HS0 : 0 < S) by (unfold S; lia).
    pose proof (pow2_gt_0 (ez + 1074) ltac:(lia)) as HG.
    unfold cond_Zopp, SFkey at 1.
    destruct sx.
    + destruct (- X + S) as [| p | p] eqn:E.
      * cbn [SFkey]. split; [discriminate | lia].
      * pose proof (binary_round_rounds false p ez ltac:(lia)) as R.
        destruct (rounds_to_sign _ _ _ R) as [-> | (m' & e' & ->)];
          cbn [SFkey]; (split; [discriminate |]).
        -- lia.
        -- assert (0 <= Zpos m' * 2 ^ (e' + 1074)); [| lia].
           apply Z.mul_nonneg_nonneg; [lia | apply Z.pow_nonneg; lia].
      * pose proof (binary_round_rounds true p ez ltac:(lia)) as R.
        destruct (rounds_to_below _ _ _ mx ex R Vx) as (m' & e' & -> & Hk).
        -- rewrite <- HX. assert (Zpos p = X - S) by lia. nia.
        -- cbn [SFkey]. split; [discriminate | lia].
    + (* 0 < x: the magnitude grows *)
      destruct (X + S) as [| p | p] eqn:E; [lia | | lia].
      pose proof (binary_round_rounds false p ez ltac:(lia)) as R.
      destruct (rounds_to_above _ _ _ mx ex R Vx) as [-> | (m' & e' & -> & Hk)].
      * rewrite <- HX. assert (Zpos p = X + S) by lia. nia.
      * cbn [SFkey]. split; [discriminate | lia].
      * cbn [SFkey]. split; [discriminate | lia].
Qed.

(** ** Signs of the results of the operations *)

Lemma shr_record_of_loc_m (m : Z) (l : location) : shr_m (shr_record_of_loc m l) = m.
Proof. destruct l as [| c]; [reflexivity | destruct c; reflexivity]. Qed.

Lemma shr_fexp_nonneg (m e : Z) (l : location) :
  0 <= m -> 0 <= shr_m (fst (shr_fexp prec emax m e l)).
Proof.
  intros H. unfold shr_fexp, shr.
  destruct (fexp prec emax (Zdigits2 m + e) - e) as [| n | n]; cbn [fst];
    try (rewrite shr_record_of_loc_m; exact H).
  apply (iter_pos_invariant shr_1 (fun _ x => 0 <= shr_m x)
           (fun k x _ Hx => shr_1_nonneg x Hx) n 0); [lia |].
  rewrite shr_record_of_loc_m. exact H.
Qed.

Lemma round_nearest_even_nonneg (m : Z) (l : location) :
  0 <= m -> 0 <= round_nearest_even m l.
Proof. intros H. destruct (round_nearest_even_cases m l) as [-> | [-> _]]; lia. Qed.

Lemma binary_round_aux_signed (sx : bool) (m e : Z) (l : location) :
  0 <= m -> SFsigned sx (binary_round_aux prec emax sx m e l).
Proof.
  intros H. unfold binary_round_aux.
  pose proof (shr_fexp_nonneg m e l H) as H1.
  destruct (shr_fexp prec emax m e l) as [mrs' e']. cbn [fst] in H1.
  pose proof (shr_fexp_nonneg _ e' loc_Exact
                (round_nearest_even_nonneg _ (loc_of_shr_record mrs') H1)) as H2.
  destruct (shr_fexp prec emax (round_nearest_even (shr_m mrs') (loc_of_shr_record mrs'))
                     e' loc_Exact) as [mrs'' e'']. cbn [fst] in H2.
  unfold SFsigned. destruct (shr_m mrs'') as [| q | q]; [auto | | lia].
  destruct (e'' <=? emax - prec); eauto.
Qed.

Lemma binary_round_signed (sx : bool) (p : positive) (e : Z) :
  SFsigned sx (binary_round prec emax sx p e).
Proof.
  unfold binary_round. destruct (shl_align p e _) as [mz ez].
  apply binary_round_aux_signed. lia.
Qed.

Lemma SFsigned_nonneg (r : spec_float) : SFsigned false r -> SFnonneg r.
Proof. intros [-> | [-> | (m & e & ->)]]; exact I. Qed.

Lemma SFsigned_not_nan (sx : bool) (r : spec_float) : SFsigned sx r -> r <> S754_nan.
Proof. intros [-> | [-> | (m & e & ->)]]; discriminate. Qed.

Lemma SFnonneg_not_nan (r : spec_float) : SFnonneg r -> r <> S754_nan.
Proof. destruct r; simpl; [discriminate | discriminate | contradiction | discriminate]. Qed.

Lemma binary_normalize_not_nan (m e : Z) : binary_normalize prec emax m e false <> S754_nan.
Proof.
  rewrite binary_normalize_cases. destruct m as [| p | p]; [discriminate | |];
    eapply SFsigned_not_nan, binary_round_signed.
Qed.

(** [d * d] is not negative, unless [d] is NaN. *)
Lemma SF64mul_square (d : spec_float) : d <> S754_nan -> SFnonneg (SF64mul d d).
Proof.
  intros H. destruct d as [s | s | | s m e]; [| | contradiction |].
  - destruct s; exact I.
  - destruct s; exact I.
  - unfold SF64mul, SFmul. rewrite xorb_nilpotent.
    apply SFsigned_nonneg, binary_round_aux_signed. lia.
Qed.

Lemma SF64add_nonneg (a b : spec_float) : SFnonneg a -> SFnonneg b -> SFnonneg (SF64add a b).
Proof.
  intros Ha Hb.
  destruct a as [sa | sa | | sa ma ea]; try contradiction;
    destruct b as [sb | sb | | sb mb eb]; try contradiction;
    try (destruct sa; [contradiction |]); try (destruct sb; [contradiction |]);
    try exact I.
  - destruct sa, sb; exact I.
  - unfold SF64add, SFadd. cbv zeta. rewrite binary_normalize_cases.
    unfold cond_Zopp.
    destruct (Zpos (fst (shl_align ma ea (Z.min ea eb))) +
              Zpos (fst (shl_align mb eb (Z.min ea eb)))) as [| p | p] eqn:E;
      [exact I | apply SFsigned_nonneg, binary_round_signed | lia].
Qed.

(** Dividing by a positive finite number. *)
Lemma SF64div_nonneg (a : spec_float) (mn : positive) (en : Z) :
  SFnonneg a -> SFnonneg (SF64div a (S754_finite false mn en)).
Proof.
  intros Ha. destruct a as [sa | sa | | sa ma ea]; try contradiction.
  - exact I.
  - destruct sa; [contradiction | exact I].
  - destruct sa; [contradiction |].
    unfold SF64div, SFdiv.
    destruct (SFdiv_core_binary prec emax (Zpos ma) ea (Zpos mn) en) as [[mz ez] lz] eqn:E.
    apply SFsigned_nonneg, binary_round_aux_signed.
    unfold SFdiv_core_binary in E.
    set (m' := match _ with Zpos _ => Z.shiftl (Zpos ma) _ | 0 => Zpos ma | Zneg _ => 0 end) in E.
    assert (Hm' : 0 <= m').
    { unfold m'. destruct (_ - _ - _); [lia | apply Z.shiftl_nonneg; lia | lia]. }
    pose proof (Z.div_pos m' (Zpos mn) Hm' ltac:(lia)) as Hq. unfold Z.div in Hq.
    destruct (Z.div_eucl m' (Zpos mn)) as [q r]. injection E as <- _ _. exact Hq.
Qed.

Lemma SF64sqrt_nonneg (a : spec_float) : SFnonneg a -> SFnonneg (SF64sqrt a).
Proof.
  intros Ha. destruct a as [sa | sa | | sa ma ea]; try contradiction.
  - exact I.
  - destruct sa; [contradiction | exact I].
  - destruct sa; [contradiction |].
    unfold SF64sqrt, SFsqrt.
    destruct (SFsqrt_core_binary prec emax (Zpos ma) ea) as [[mz ez] lz] eqn:E.
    apply SFsigned_nonneg, binary_round_aux_signed.
    unfold SFsqrt_core_binary in E.
    set (m' := match _ with Zpos _ => Z.shiftl (Zpos ma) _ | 0 => Zpos ma | Zneg _ => 0 end) in E.
    assert (Hm' : 0 <= m').
    { unfold m'. destruct (_ - _); [lia | apply Z.shiftl_nonneg; lia | lia]. }
    pose proof (Z.sqrtrem_spec m' Hm') as Hs.
    destruct (Z.sqrtrem m') as [q r]. injection E as <- _ _. lia.
Qed.

(** Doubling. *)
Lemma SF64mul_two_nonneg (a : spec_float) :
  SFnonneg a -> SFnonneg (SF64mul (Prim2SF 2) a).
Proof.
  intros Ha. change (Prim2SF 2) with (S754_finite false 4503599627370496 (-51)).
  destruct a as [sa | sa | | sa ma ea]; try contradiction.
  - exact I.
  - destruct sa; [contradiction | exact I].
  - destruct sa; [contradiction |].
    unfold SF64mul, SFmul. apply SFsigned_nonneg, binary_round_aux_signed. lia.
Qed.

(** [v - m] is a number when [v] is one and [m] is finite. *)
Lemma SF64sub_not_nan (v m : spec_float) :
  v <> S754_nan -> SFfinite m -> SF64sub v m <> S754_nan.
Proof.
  intros Hv Hm.
  destruct v as [sv | sv | | sv mv ev]; try contradiction;
    destruct m as [sm | sm | | sm mm em]; try contradiction;
    try discriminate.
  - destruct sv, sm; discriminate.
  - unfold SF64sub, SFsub. cbv zeta. apply binary_normalize_not_nan.
Qed.

Lemma SF64add_nan_l (y : spec_float) : SF64add S754_nan y = S754_nan.
Proof. reflexivity. Qed.

Lemma SF64add_nan_r (x : spec_float) : SF64add x S754_nan = S754_nan.
Proof. destruct x; reflexivity. Qed.

Lemma SF64div_nan_l (y : spec_float) : SF64div S754_nan y = S754_nan.
Proof. reflexivity. Qed.

(** ** The band around the mean *)

Lemma is_finite_SFfinite (x : float64) :
  PrimFloat.is_finite x = true -> SFfinite (Prim2SF x).
Proof.
  unfold PrimFloat.is_finite, is_infinity. intros H.
  apply negb_true_iff, orb_false_iff in H. destruct H as [Hn Hi].
  apply isNaN_false in Hn.
  rewrite FloatAxioms.eqb_spec, abs_spec in Hi.
  destruct (Prim2SF x) as [s | s | | s m e]; [exact I | | contradiction | exact I].
  discriminate Hi.
Qed.

(** [float64(len(values))] is zero or a positive finite number. *)
Lemma float64_of_int_cases (z : Z) :
  Prim2SF (float64_of_int z) = S754_zero false \/
  exists m e, Prim2SF (float64_of_int z) = S754_finite false m e.
Proof.
  unfold float64_of_int. rewrite of_uint63_spec, binary_normalize_cases.
  pose proof (Uint63.to_Z_bounded (Uint63.of_Z z)) as B.
  destruct (Uint63.to_Z (Uint63.of_Z z)) as [| p | p]; [left; reflexivity | right | lia].
  pose proof (binary_round_rounds false p 0 ltac:(lia)) as R.
  destruct (rounds_to_below _ _ _ 4503599627370496%positive 11 R) as (m' & e' & -> & _).
  - reflexivity.
  - change (0 + 1074) with 1074. change (11 + 1074) with (1074 + 11).
    rewrite (pow2_split 1074 11) by lia.
    pose proof (pow2_gt_0 1074 ltac:(lia)) as HG.
    change wB with 9223372036854775808 in B. change (2 ^ 11) with 2048.
    generalize dependent (2 ^ 1074). intros G HG. nia.
  - eauto.
Qed.

(** A sum that is a number has only numbers as terms. *)
Lemma sum_not_nan (values : list float64) (acc : float64) :
  isNaN (fold_left (fun sum value => sum + value)%float values acc) = false ->
  isNaN acc = false /\ Forall (fun v => isNaN v = false) values.
Proof.
  revert acc. induction values as [| v values IH]; intros acc H; simpl in H.
  - split; [exact H | constructor].
  - apply IH in H. destruct H as [Hacc Hvs].
    apply isNaN_false in Hacc. rewrite FloatAxioms.add_spec in Hacc.
    assert (Ha : Prim2SF acc <> S754_nan).
    { intros E. rewrite E in Hacc. apply Hacc, SF64add_nan_l. }
    assert (Hv : Prim2SF v <> S754_nan).
    { intros E. rewrite E in Hacc. apply Hacc, SF64add_nan_r. }
    split; [apply isNaN_false, Ha |]. constructor; [apply isNaN_false, Hv | exact Hvs].
Qed.

(** The sum of the squared deviations from a finite mean is not negative. *)
Lemma sum_squares_nonneg (values : list float64) (mean acc : float64) :
  SFfinite (Prim2SF mean) ->
  Forall (fun v => isNaN v = false) values ->
  SFnonneg (Prim2SF acc) ->
  SFnonneg (Prim2SF (fold_left (fun sumSquaredDiff value =>
                                  let diff := (value - mean)%float in
                                  (sumSquaredDiff + diff * diff)%float) values acc)).
Proof.
  intros Hm Hvs. revert acc. induction Hvs as [| v values Hv _ IH]; intros acc Ha; simpl.
  - exact Ha.
  - apply IH. rewrite FloatAxioms.add_spec, FloatAxioms.mul_spec, FloatAxioms.sub_spec.
    apply SF64add_nonneg; [exact Ha |].
    apply SF64mul_square, SF64sub_not_nan; [apply isNaN_false, Hv | exact Hm].
Qed.


Lemma band_around_finite_mean (values : list float64) :
  PrimFloat.is_finite (calculateMean values) = true ->
  (fst (calculateTwoSDRange values) <=? calculateMean values)%float = true /\
  (calculateMean values <=? snd (calculateTwoSDRange values))%float = true.
Proof.
  intros Hfin.
  pose proof (is_finite_SFfinite _ Hfin) as Hm.
  set (mean := calculateMean values) in *.
  (* the count is a positive finite number *)
  assert (Hn : exists mn en,
             Prim2SF (float64_of_int (len values)) = S754_finite false mn en).
  { destruct (float64_of_int_cases (len values)) as [E | E]; [exfalso | exact E].
    unfold mean, calculateMean in Hm. rewrite FloatAxioms.div_spec, E in Hm.
    match type of Hm with
    | SFfinite (SF64div ?sum _) => destruct sum as [s | s | | s m e]; exact Hm
    end. }
  destruct Hn as (mn & en & Hn).
  (* no sample is a NaN *)
  assert (Hvs : Forall (fun v => isNaN v = false) values).
  { apply (sum_not_nan values 0%float). apply isNaN_false. intros E.
    unfold mean, calculateMean in Hm. rewrite FloatAxioms.div_spec in Hm.
    rewrite E, SF64div_nan_l in Hm. exact Hm. }
  (* twice the standard deviation is not negative *)
  assert (Hs : SFnonneg (Prim2SF (2 * PrimFloat.sqrt (calculateVariance values mean))%float)).
  { rewrite FloatAxioms.mul_spec, FloatAxioms.sqrt_spec. apply SF64mul_two_nonneg, SF64sqrt_nonneg.
    unfold calculateVariance. rewrite FloatAxioms.div_spec, Hn. apply SF64div_nonneg.
    apply sum_squares_nonneg; [exact Hm | exact Hvs | exact I]. }
  unfold calculateTwoSDRange. fold mean. cbn [fst snd].
  set (s := (2 * PrimFloat.sqrt (calculateVariance values mean))%float) in *.
  assert (Nm : isNaN mean = false).
  { apply isNaN_false. intros E. rewrite E in Hm. exact Hm. }
  destruct (SF64sub_le (Prim2SF mean) (Prim2SF s)
              (Prim2SF_valid _) (Prim2SF_valid _) Hm Hs) as [Nl Kl].
  destruct (SF64add_ge (Prim2SF mean) (Prim2SF s)
              (Prim2SF_valid _) (Prim2SF_valid _) Hm Hs) as [Nu Ku].
  rewrite <- FloatAxioms.sub_spec in Nl, Kl. rewrite <- FloatAxioms.add_spec in Nu, Ku.
  apply isNaN_false in Nl, Nu.
  rewrite !leb_key, Nm, Nl, Nu. simpl.
  split; apply Z.leb_le; assumption.
Qed.

(** ** What each goroutine found *)

(** After [calculateBlockStats], whatever the order of the goroutines: the
    mean and the band were computed on the values in the order of the batch
    or sorted, and the outliers were filtered from either, against the
    bounds the block came with or the bounds it ends with. *)
Lemma calculateBlockStats_fields (schedule : list goroutine) (b b' : Block) :
  Permutation schedule goroutines ->
  calculateBlockStats schedule b = Done b' ->
  let v := Values b in
  let sv := sort_Float64s v in
  (Mean b' = calculateMean v \/ Mean b' = calculateMean sv) /\
  ((TwoSDLower b', TwoSDUpper b') = calculateTwoSDRange v \/
   (TwoSDLower b', TwoSDUpper b') = calculateTwoSDRange sv) /\
  (exists seen lo hi,
     (seen = v \/ seen = sv) /\
     ((lo, hi) = (TwoSDLower b, TwoSDUpper b) \/ (lo, hi) = (TwoSDLower b', TwoSDUpper b')) /\
     Outliers b' = calculateOutliers seen lo hi).
Proof.
  intros P H v sv.
  assert (Hne : v <> []).
  { intros E. rewrite calculateBlockStats_empty in H; [discriminate | exact E |].
    apply (Permutation_in _ (Permutation_sym P)). simpl. tauto. }
  destruct (calculateMedian_Done v Hne) as [m Hm]. fold sv in Hm.
  apply schedule_cases in P. unfold schedules in P. simpl in P.
  repeat (destruct P as [<- | P];
    [ cbn -[calculateMedian calculateMean calculateTwoSDRange calculateOutliers
            sort_Float64s] in H;
      fold v in H; rewrite Hm in H;
      cbn -[calculateMedian calculateMean calculateTwoSDRange calculateOutliers
            sort_Float64s] in H;
      injection H as <-;
      cbn -[calculateMedian calculateMean calculateTwoSDRange calculateOutliers
            sort_Float64s];
      (split; [auto |]); (split; [rewrite <- ?surjective_pairing; auto |]);
      do 3 eexists; (split; [| split; [| reflexivity]]);
      rewrite <- ?surjective_pairing; auto
    | ]).
  contradiction.
Qed.

(** ** C5: the band of two standard deviations *)




(** With the mean goroutine before the sort and the band goroutine after
    it, the two sum the samples in different orders and round differently:
    the stored mean can lie outside the stored band. *)
Example mean_outside_band :
  exists bc' b,
    AddBlock goroutines example_time
      [0x1.999999999999ap-4; 0x1.999999999999bp-4; 0x1.999999999999bp-4;
       0x1.999999999999ap-4; 0x1.999999999999ap-4; 0x1.999999999999bp-4]%float
      (NewBlockchain example_time) = Done bc' /\
    nth_error bc' 1 = Some b /\
    (Mean b <? TwoSDLower b)%float = true.
Proof. vm_compute. do 2 eexists. split; [reflexivity |]. split; reflexivity. Qed.

(** * C10: two callers of AddBlock *)

Lemma AddBlock_returns (bc : Blockchain) (schedule : list goroutine) (now : Time)
      (values : list float64) :
  chain_inv bc -> values <> [] ->
  exists bc', AddBlock schedule now values bc = Done bc'.
Proof.
  intros [(init0 & lastBlock & E & _) _ _ _] Hne.
  destruct (chain_inv_last_index bc init0 lastBlock E) as (Hat & _ & _).
  unfold AddBlock. rewrite Hat. cbn [bind].
  fold (shell lastBlock now values).
  destruct (calculateBlockStats_returns schedule (shell lastBlock now values) Hne)
    as [nb ->].
  cbn [bind]. eauto.
Qed.

Lemma AddBlock_length (bc bc' : Blockchain) (schedule : list goroutine) (now : Time)
      (values : list float64) :
  AddBlock schedule now values bc = Done bc' -> List.length bc' = S (List.length bc).
Proof.
  intros H. apply AddBlock_Done in H. destruct H as (p & nb & _ & _ & ->).
  rewrite length_app, markBlocksWithOutliers_length. simpl. lia.
Qed.

Module Serialized.
Import Locked.

(** ** One caller at a time *)

Lemma alone_statement (c : call) (base ch ch' : Blockchain) (me me' : caller)
      (locked locked' : bool) :
  alone c base me locked ch ->
  statement c ch locked me = Done (ch', locked', me') ->
  alone c base me' locked' ch'.
Proof.
  unfold alone, statement. destruct me as [p nb]. cbn [at_pc newBlock].
  destruct p; cbn [inside]; intros Ha H.
  - destruct Ha as [-> ->]. injection H as <- <- <-. cbn. repeat split; eauto.
  - destruct Ha as [-> ->]. apply bind_Done in H. destruct H as (prevBlock & Hp & H).
    injection H as <- <- <-. cbn. repeat split; eauto.
  - destruct Ha as [-> (-> & prevBlock & Hp & ->)].
    apply bind_Done in H. destruct H as (b & Hb & H).
    injection H as <- <- <-. cbn. repeat split; eauto.
  - destruct Ha as [-> (-> & prevBlock & Hp & Hb)].
    injection H as <- <- <-. cbn. repeat split; eauto.
  - destruct Ha as [-> (-> & prevBlock & Hp & Hb)].
    injection H as <- <- <-. cbn. repeat split; eauto 6.
  - destruct Ha as [-> (-> & prevBlock & nb0 & Hp & Hb & ->)].
    injection H as <- <- <-. cbn. split; [reflexivity |].
    unfold AddBlock_of, AddBlock. rewrite Hp. cbn [bind]. fold (shell prevBlock (call_now c) (call_values c)).
    rewrite Hb. reflexivity.
  - destruct Ha as [-> Ha]. injection H as <- <- <-. cbn. repeat split; eauto.
  - injection H as <- <- <-. exact Ha.
Qed.

Lemma ordered_statement_a (bc : Blockchain) (ca cb : call) (a a' b : caller)
      (locked locked' : bool) (ch ch' : Blockchain) :
  ordered bc ca cb a b locked ch ->
  statement ca ch locked a = Done (ch', locked', a') ->
  ordered bc ca cb a' b locked' ch'.
Proof.
  intros [[Hb Ha] | [Ha (base & Hbase & Hb)]] H.
  - left. split; [exact Hb |]. eapply alone_statement; eassumption.
  - unfold statement in H. rewrite Ha in H. injection H as <- <- <-.
    right. split; [exact Ha |]. eauto.
Qed.

Lemma ordered_statement_b (bc : Blockchain) (ca cb : call) (a b b' : caller)
      (locked locked' : bool) (ch ch' : Blockchain) :
  ordered bc ca cb a b locked ch ->
  statement cb ch locked b = Done (ch', locked', b') ->
  ordered bc ca cb a b' locked' ch' \/ ordered bc cb ca b' a locked' ch'.
Proof.
  intros [[Hb Ha] | [Ha (base & Hbase & Hb)]] H.
  - unfold statement in H. rewrite Hb in H.
    destruct locked.
    + injection H as <- <- <-. left. left. auto.
    + injection H as <- <- <-.
      unfold alone in Ha. destruct (at_pc a) eqn:Ea;
        try (destruct Ha as [Ha _]; discriminate Ha).
      * destruct Ha as [_ ->]. right. left. split; [exact Ea |].
        unfold alone. cbn. auto.
      * destruct Ha as [_ Ha]. left. right. split; [exact Ea |].
        exists ch. split; [exact Ha |]. unfold alone. cbn. auto.
  - left. right. split; [exact Ha |]. exists base. split; [exact Hbase |].
    eapply alone_statement; eassumption.
Qed.

Lemma serial_init (bc : Blockchain) (c1 c2 : call) : serial bc c1 c2 (init bc).
Proof. left. left. split; [reflexivity |]. unfold alone. cbn. auto. Qed.

Lemma serial_step (bc : Blockchain) (c1 c2 : call) (s s' : state) (t : tid) :
  serial bc c1 c2 s -> step c1 c2 s t = Done s' -> serial bc c1 c2 s'.
Proof.
  unfold serial, step. intros Hs H. destruct t;
    apply bind_Done in H; destruct H as ([[ch' locked'] me'] & Hst & H);
    injection H as <-; cbn [chain mu first second fst snd].
  - destruct Hs as [Hs | Hs].
    + left. eapply ordered_statement_a; eassumption.
    + destruct (ordered_statement_b _ _ _ _ _ _ _ _ _ _ Hs Hst); auto.
  - destruct Hs as [Hs | Hs].
    + destruct (ordered_statement_b _ _ _ _ _ _ _ _ _ _ Hs Hst); auto.
    + right. eapply ordered_statement_a; eassumption.
Qed.

Lemma serial_run (bc : Blockchain) (c1 c2 : call) (trace : list tid) (s s' : state) :
  serial bc c1 c2 s -> run c1 c2 trace s = Done s' -> serial bc c1 c2 s'.
Proof.
  revert s. induction trace as [| t rest IH]; intros s Hs H; simpl in H.
  - injection H as <-. exact Hs.
  - apply bind_Done in H. destruct H as (s1 & H1 & H2).
    eapply IH; [eapply serial_step; eassumption | exact H2].
Qed.

(** With the mutex free, the chain is as some calls, run whole, left it. *)
Lemma serial_unlocked (bc : Blockchain) (c1 c2 : call) (s : state) :
  serial bc c1 c2 s -> mu s = false ->
  chain s = bc \/ AddBlock_of c1 bc = Done (chain s) \/ AddBlock_of c2 bc = Done (chain s) \/
  one_after_the_other bc c1 c2 (chain s) \/ one_after_the_other bc c2 c1 (chain s).
Proof.
  assert (G : forall ca cb a b,
             ordered bc ca cb a b (mu s) (chain s) -> mu s = false ->
             chain s = bc \/ AddBlock_of ca bc = Done (chain s) \/
             one_after_the_other bc ca cb (chain s)).
  { intros ca cb a b [[Hb Ha] | [Ha (base & Hbase & Hb)]] Hmu; unfold alone in *.
    - destruct (at_pc a); try (destruct Ha as [Ha _]; congruence);
        destruct Ha as [_ Ha]; auto.
    - destruct (at_pc b); try (destruct Hb as [Hb _]; congruence);
        destruct Hb as [_ Hb].
      + subst base. auto.
      + right. right. exists base. auto. }
  intros [Hs | Hs] Hmu; destruct (G _ _ _ _ Hs Hmu) as [? | [? | ?]]; auto.
Qed.

Lemma serial_returned (bc : Blockchain) (c1 c2 : call) (s : state) :
  serial bc c1 c2 s -> both_returned s ->
  one_after_the_other bc c1 c2 (chain s) \/ one_after_the_other bc c2 c1 (chain s).
Proof.
  assert (G : forall ca cb a b,
             ordered bc ca cb a b (mu s) (chain s) ->
             at_pc a = Returned -> at_pc b = Returned ->
             one_after_the_other bc ca cb (chain s)).
  { intros ca cb a b [[Hb Ha] | [Ha (base & Hbase & Hb)]] Ra Rb; [congruence |].
    unfold alone in Hb. rewrite Rb in Hb. destruct Hb as [_ Hb]. exists base. auto. }
  intros [Hs | Hs] [R1 R2]; [left | right]; eapply G; eassumption.
Qed.

(** ** A caller that is not held up runs its call through *)

Lemma run_app (c1 c2 : call) (t1 t2 : list tid) (s : state) :
  run c1 c2 (t1 ++ t2) s = (s' <- run c1 c2 t1 s ;; run c1 c2 t2 s').
Proof.
  revert s. induction t1 as [| t t1 IH]; intros s; simpl; [reflexivity |].
  destruct (step c1 c2 s t); simpl; [apply IH | reflexivity].
Qed.

Lemma run_first (c1 c2 : call) (base base' : Blockchain) (nb : Block) (other : caller) :
  AddBlock_of c1 base = Done base' ->
  exists nb',
    run c1 c2 (repeat First 7) (mkState base false (mkCaller AtLock nb) other)
    = Done (mkState base' false (mkCaller Returned nb') other).
Proof.
  intros H. apply AddBlock_Done in H. destruct H as (p & nb0 & Hp & Hs & ->).
  eexists. cbn [repeat run step statement bind chain mu first second at_pc newBlock fst snd].
  rewrite Hp. cbn [run step statement bind chain mu first second at_pc newBlock fst snd].
  rewrite Hs. cbn [run step statement bind chain mu first second at_pc newBlock fst snd].
  reflexivity.
Qed.

Lemma run_second (c1 c2 : call) (base base' : Blockchain) (nb : Block) (other : caller) :
  AddBlock_of c2 base = Done base' ->
  exists nb',
    run c1 c2 (repeat Second 7) (mkState base false other (mkCaller AtLock nb))
    = Done (mkState base' false other (mkCaller Returned nb')).
Proof.
  intros H. apply AddBlock_Done in H. destruct H as (p & nb0 & Hp & Hs & ->).
  eexists. cbn [repeat run step statement bind chain mu first second at_pc newBlock fst snd].
  rewrite Hp. cbn [run step statement bind chain mu first second at_pc newBlock fst snd].
  rewrite Hs. cbn [run step statement bind chain mu first second at_pc newBlock fst snd].
  reflexivity.
Qed.

(** C10. Two callers of [AddBlock] on a chain the program built, their
    statements interleaved in any way by the scheduler.  Whenever the mutex
    is free the chain is the one some of the calls, run whole, left behind;
    once both have returned the chain is that of the two calls one after the
    other, in one order or the other: two blocks more, every block at its
    index.  And if both batches are not empty, either caller can be the
    first to take the lock, and both return. *)
Theorem two_appends_serialized (bc : Blockchain) (c1 c2 : call) :
  reachable bc ->
  Permutation (call_schedule c1) goroutines ->
  Permutation (call_schedule c2) goroutines ->
  (forall trace s', run c1 c2 trace (init bc) = Done s' ->
     (mu s' = false ->
        chain s' = bc \/ AddBlock_of c1 bc = Done (chain s') \/
        AddBlock_of c2 bc = Done (chain s') \/
        one_after_the_other bc c1 c2 (chain s') \/
        one_after_the_other bc c2 c1 (chain s')) /\
     (both_returned s' ->
        (one_after_the_other bc c1 c2 (chain s') \/
         one_after_the_other bc c2 c1 (chain s')) /\
        List.length (chain s') = (List.length bc + 2)%nat /\
        forall n b, nth_error (chain s') n = Some b -> Index b = wrap64 (Z.of_nat n))) /\
  (call_values c1 <> [] -> call_values c2 <> [] ->
     (exists trace s', run c1 c2 trace (init bc) = Done s' /\ both_returned s' /\
                       one_after_the_other bc c1 c2 (chain s')) /\
     (exists trace s', run c1 c2 trace (init bc) = Done s' /\ both_returned s' /\
                       one_after_the_other bc c2 c1 (chain s'))).
Proof.
  intros Hr P1 P2.
  assert (Hafter : forall ca cb final,
             Permutation (call_schedule ca) goroutines ->
             Permutation (call_schedule cb) goroutines ->
             one_after_the_other bc ca cb final ->
             reachable final /\ List.length final = (List.length bc + 2)%nat).
  { intros ca cb final Pa Pb (mid & Ha & Hb). split.
    - eapply reachable_add; [| exact Pb | exact Hb].
      eapply reachable_add; [exact Hr | exact Pa | exact Ha].
    - apply AddBlock_length in Ha, Hb. lia. }
  split.
  - intros trace s' Hrun.
    pose proof (serial_run bc c1 c2 trace _ _ (serial_init bc c1 c2) Hrun) as Hs.
    split; [apply serial_unlocked, Hs |].
    intros Hret. pose proof (serial_returned bc c1 c2 s' Hs Hret) as Hord.
    split; [exact Hord |].
    assert (Hfin : reachable (chain s') /\
                   List.length (chain s') = (List.length bc + 2)%nat).
    { destruct Hord as [H | H].
      - exact (Hafter c1 c2 _ P1 P2 H).
      - exact (Hafter c2 c1 _ P2 P1 H). }
    destruct Hfin as [Hfin Hlen]. split; [exact Hlen |].
    apply reachable_inv in Hfin. destruct Hfin as [_ _ Hindex _]. exact Hindex.
  - intros N1 N2. pose proof (reachable_inv bc Hr) as Hinv.
    split.
    + destruct (AddBlock_returns bc (call_schedule c1) (call_now c1) (call_values c1)
                                 Hinv N1) as [mid Hmid].
      assert (Hinv' : chain_inv mid) by (eapply chain_inv_add; eassumption).
      destruct (AddBlock_returns mid (call_schedule c2) (call_now c2) (call_values c2)
                                 Hinv' N2) as [final Hfinal].
      destruct (run_first c1 c2 bc mid no_block (mkCaller AtLock no_block) Hmid)
        as [nb1 R1].
      destruct (run_second c1 c2 mid final no_block (mkCaller Returned nb1) Hfinal)
        as [nb2 R2].
      exists (repeat First 7 ++ repeat Second 7). eexists.
      split; [rewrite run_app; unfold init; rewrite R1; cbn [bind]; exact R2 |].
      split; [split; reflexivity | exists mid; auto].
    + destruct (AddBlock_returns bc (call_schedule c2) (call_now c2) (call_values c2)
                                 Hinv N2) as [mid Hmid].
      assert (Hinv' : chain_inv mid) by (eapply chain_inv_add; eassumption).
      destruct (AddBlock_returns mid (call_schedule c1) (call_now c1) (call_values c1)
                                 Hinv' N1) as [final Hfinal].
      destruct (run_second c1 c2 bc mid no_block (mkCaller AtLock no_block) Hmid)
        as [nb2 R2].
      destruct (run_first c1 c2 mid final no_block (mkCaller Returned nb2) Hfinal)
        as [nb1 R1].
      exists (repeat Second 7 ++ repeat First 7). eexists.
      split; [rewrite run_app; unfold init; rewrite R2; cbn [bind]; exact R1 |].
      split; [split; reflexivity | exists mid; auto].
Qed.

Lemma two_appends_serialized_witness :
  run example_first example_second example_trace (init example_chain) = Done example_final /\
  both_returned example_final /\
  one_after_the_other example_chain example_first example_second (chain example_final) /\
  List.length (chain example_final) = 4%nat /\
  forall n b, nth_error (chain example_final) n = Some b -> Index b = wrap64 (Z.of_nat n).
Proof.
  assert (E : run example_first example_second example_trace (init example_chain)
              = Done example_final) by (vm_compute; reflexivity).
  assert (Hret : both_returned example_final) by (split; vm_compute; reflexivity).
  destruct (two_appends_serialized example_chain example_first example_second
              example_chain_reachable (Permutation_refl _)
              (Permutation_sym (Permutation_rev goroutines))) as [Hsafe _].
  destruct (Hsafe example_trace example_final E) as [_ H].
  destruct (H Hret) as (_ & Hlen & Hidx).
  split; [exact E |]. split; [exact Hret |].
  split; [| split; [rewrite Hlen; vm_compute; reflexivity | exact Hidx]].
  exists (chain_of (AddBlock_of example_first example_chain)).
  split; vm_compute; reflexivity.
Defined.

End Serialized.

(** * More of the statistics engine *)

(** ** Not-a-number values *)

Lemma isNaN_nan (x : float64) : isNaN x = true -> x = nan.
Proof.
  intros H. apply isNaN_spec in H.
  rewrite <- (FloatAxioms.SF2Prim_Prim2SF x), H. reflexivity.
Qed.

Lemma ltb_nan_l (x y : float64) : isNaN x = true -> (x <? y)%float = false.
Proof. intros H. rewrite ltb_key, H. reflexivity. Qed.

Lemma ltb_nan_r (x y : float64) : isNaN y = true -> (x <? y)%float = false.
Proof. intros H. rewrite ltb_key, H. apply andb_false_iff. left. apply andb_false_r. Qed.

Lemma add_nan_l (x y : float64) : isNaN x = true -> isNaN (x + y)%float = true.
Proof.
  intros H. apply isNaN_spec in H. apply isNaN_spec.
  rewrite FloatAxioms.add_spec, H. apply SF64add_nan_l.
Qed.

Lemma add_nan_r (x y : float64) : isNaN y = true -> isNaN (x + y)%float = true.
Proof.
  intros H. apply isNaN_spec in H. apply isNaN_spec.
  rewrite FloatAxioms.add_spec, H. apply SF64add_nan_r.
Qed.

Lemma sub_nan_l (x y : float64) : isNaN x = true -> isNaN (x - y)%float = true.
Proof.
  intros H. apply isNaN_spec in H. apply isNaN_spec.
  rewrite FloatAxioms.sub_spec, H. reflexivity.
Qed.

Lemma div_nan_l (x y : float64) : isNaN x = true -> isNaN (x / y)%float = true.
Proof.
  intros H. apply isNaN_spec in H. apply isNaN_spec.
  rewrite FloatAxioms.div_spec, H. apply SF64div_nan_l.
Qed.

Lemma sqrt_nan (x : float64) : isNaN x = true -> isNaN (PrimFloat.sqrt x) = true.
Proof.
  intros H. apply isNaN_spec in H. apply isNaN_spec.
  rewrite FloatAxioms.sqrt_spec, H. reflexivity.
Qed.

(** A sum that meets a NaN is a NaN to the end. *)
Lemma sum_nan_acc {A : Type} (f : A -> float64) (l : list A) (acc : float64) :
  isNaN acc = true ->
  isNaN (fold_left (fun sum a => sum + f a)%float l acc) = true.
Proof.
  revert acc. induction l as [| a l IH]; intros acc H; simpl; [exact H |].
  apply IH, add_nan_l, H.
Qed.

Lemma sum_nan_term {A : Type} (f : A -> float64) (l : list A) (acc : float64) :
  Exists (fun a => isNaN (f a) = true) l ->
  isNaN (fold_left (fun sum a => sum + f a)%float l acc) = true.
Proof.
  intros H. revert acc. induction H as [a l Ha | a l _ IH]; intros acc; simpl.
  - apply sum_nan_acc, add_nan_r, Ha.
  - apply IH.
Qed.

Lemma calculateMean_nan (values : list float64) :
  Exists (fun value => isNaN value = true) values -> isNaN (calculateMean values) = true.
Proof.
  intros H. unfold calculateMean. apply div_nan_l.
  apply (sum_nan_term (fun value => value)), H.
Qed.

Lemma calculateOutliers_not_nan (values : list float64) (lowerBound upperBound : float64) :
  Forall (fun value => isNaN value = false)
         (calculateOutliers values lowerBound upperBound).
Proof.
  unfold calculateOutliers. apply Forall_forall. intros value H.
  apply filter_In in H. destruct H as [_ H].
  destruct (isNaN value) eqn:E; [| reflexivity].
  rewrite (ltb_nan_l value lowerBound E), (ltb_nan_r upperBound value E) in H.
  discriminate.
Qed.

Lemma calculateOutliers_nan_band (values : list float64) (lowerBound upperBound : float64) :
  isNaN lowerBound = true -> isNaN upperBound = true ->
  calculateOutliers values lowerBound upperBound = [].
Proof.
  intros Hl Hu. unfold calculateOutliers.
  induction values as [| value rest IH]; [reflexivity |]. simpl.
  rewrite (ltb_nan_r value lowerBound Hl), (ltb_nan_l upperBound value Hu). exact IH.
Qed.

(** X1. [calculateOutliers] never reports a NaN sample, whatever the
    bounds: a NaN is neither below the lower bound nor above the upper one.
    And between two NaN bounds it reports nothing at all. *)
Theorem nan_is_never_an_outlier :
  (forall values lowerBound upperBound,
     Forall (fun value => isNaN value = false)
            (calculateOutliers values lowerBound upperBound)) /\
  (forall values, calculateOutliers values nan nan = []).
Proof.
  split.
  - apply calculateOutliers_not_nan.
  - intros values. apply calculateOutliers_nan_band; reflexivity.
Qed.

(** X2. One NaN sample in a batch makes the mean a NaN, and with it both
    bounds of the band: [calculateOutliers] against that band reports no
    sample of the batch, however far off the others lie. *)
Theorem nan_sample_poisons_statistics (values : list float64) :
  Exists (fun value => isNaN value = true) values ->
  isNaN (calculateMean values) = true /\
  calculateTwoSDRange values = (nan, nan) /\
  calculateOutliers values (fst (calculateTwoSDRange values))
                    (snd (calculateTwoSDRange values)) = [].
Proof.
  intros H.
  assert (Hne : values <> []) by (intros ->; inversion H).
  pose proof (calculateMean_nan values H) as Hm.
  assert (Hband : calculateTwoSDRange values = (nan, nan)).
  { unfold calculateTwoSDRange.
    rewrite (isNaN_nan _ (sub_nan_l (calculateMean values) _ Hm)).
    rewrite (isNaN_nan _ (add_nan_l (calculateMean values) _ Hm)). reflexivity. }
  split; [exact Hm |]. split; [exact Hband |].
  rewrite Hband. apply calculateOutliers_nan_band; reflexivity.
Qed.

Lemma nan_sample_poisons_statistics_witness :
  isNaN (calculateMean [1; nan; 1000000]%float) = true /\
  calculateTwoSDRange [1; nan; 1000000]%float = (nan, nan) /\
  calculateOutliers [1; nan; 1000000]%float
                    (fst (calculateTwoSDRange [1; nan; 1000000]%float))
                    (snd (calculateTwoSDRange [1; nan; 1000000]%float)) = [].
Proof.
  apply (nan_sample_poisons_statistics [1; nan; 1000000]%float).
  apply Exists_cons_tl, Exists_cons_hd. reflexivity.
Defined.

(** ** Sorting what is sorted *)

Lemma StronglySorted_app_r {A : Type} (R : A -> A -> Prop) (l1 l2 : list A) :
  StronglySorted R (l1 ++ l2) -> StronglySorted R l2.
Proof.
  induction l1 as [| a l1 IH]; intros H; [exact H |].
  apply IH. simpl in H. apply StronglySorted_inv in H. apply H.
Qed.

Lemma fold_sink_ascending (values acc : list float64) :
  ascending (rev acc ++ values) ->
  fold_left (fun rev_prefix x => sink x rev_prefix) values acc = rev values ++ acc.
Proof.
  revert acc. induction values as [| x rest IH]; intros acc H; [reflexivity |].
  simpl.
  assert (Hs : sink x acc = x :: acc).
  { destruct acc as [| y r]; [reflexivity |]. simpl.
    simpl in H. unfold ascending in H.
    rewrite <- app_assoc in H. apply StronglySorted_app_r in H. simpl in H.
    apply StronglySorted_inv in H. destruct H as [_ H].
    apply Forall_inv in H. rewrite H. reflexivity. }
  rewrite Hs, IH.
  - rewrite <- app_assoc. reflexivity.
  - simpl. rewrite <- app_assoc. exact H.
Qed.

Lemma sort_Float64s_ascending_id (values : list float64) :
  ascending values -> sort_Float64s values = values.
Proof.
  intros H. unfold sort_Float64s.
  rewrite (fold_sink_ascending values [] H), app_nil_r. apply rev_involutive.
Qed.

Lemma calculateMedian_sorted (values : list float64) :
  calculateMedian (sort_Float64s values) = calculateMedian values.
Proof.
  unfold calculateMedian. cbv zeta.
  rewrite (sort_Float64s_ascending_id _ (sort_Float64s_ascending values)). reflexivity.
Qed.

(** X3. Sorting a slice that [sort.Float64s] has sorted changes nothing; so
    [calculateMedian], called again on the slice it has sorted in place,
    returns the same median and leaves the slice as it is. *)
Theorem sort_Float64s_idempotent (values : list float64) :
  sort_Float64s (sort_Float64s values) = sort_Float64s values /\
  calculateMedian (sort_Float64s values) = calculateMedian values.
Proof.
  split; [| apply calculateMedian_sorted].
  apply sort_Float64s_ascending_id, sort_Float64s_ascending.
Qed.

(** The median of an odd number of samples is one of them. *)
Lemma calculateMedian_odd_member (values sorted : list float64) (m : float64) :
  Z.odd (len values) = true ->
  calculateMedian values = Done (sorted, m) -> In m values.
Proof.
  intros Hodd H.
  assert (Hne : values <> []) by (intros ->; discriminate).
  pose proof (calculateMedian_middle values Hne) as Hmid. cbv zeta in Hmid.
  rewrite <- Z.negb_odd, Hodd in Hmid. simpl in Hmid.
  destruct Hmid as (m' & Hn & Hm'). rewrite Hm' in H. injection H as _ <-.
  apply nth_error_In in Hn.
  apply (Permutation_in _ (sort_Float64s_Permutation values)), Hn.
Qed.

(** * The goroutines of calculateBlockStats, one by one *)

Lemma calculateBlockStats_app (l1 l2 : list goroutine) (b : Block) :
  calculateBlockStats (l1 ++ l2) b
  = (b1 <- calculateBlockStats l1 b ;; calculateBlockStats l2 b1).
Proof.
  revert b. induction l1 as [| g l1 IH]; intros b; simpl; [reflexivity |].
  destruct (run g b); simpl; [apply IH | reflexivity].
Qed.

(** A goroutine writes its own fields and no other. *)
Lemma run_others (g : goroutine) (b b' : Block) :
  run g b = Done b' ->
  (g <> GoMean -> Mean b' = Mean b) /\
  (g <> GoMedian -> Median b' = Median b) /\
  (g <> GoTwoSDRange -> TwoSDLower b' = TwoSDLower b /\ TwoSDUpper b' = TwoSDUpper b) /\
  (g <> GoOutliers -> Outliers b' = Outliers b).
Proof.
  destruct g; simpl; intros H;
    try (injection H as <-; simpl; repeat split; congruence).
  apply bind_Done in H. destruct H as [[sorted m] [_ H]]. injection H as <-. simpl.
  repeat split; congruence.
Qed.

Lemma calculateBlockStats_others (schedule : list goroutine) (b b' : Block) :
  calculateBlockStats schedule b = Done b' ->
  (~ In GoMean schedule -> Mean b' = Mean b) /\
  (~ In GoMedian schedule -> Median b' = Median b) /\
  (~ In GoTwoSDRange schedule ->
     TwoSDLower b' = TwoSDLower b /\ TwoSDUpper b' = TwoSDUpper b) /\
  (~ In GoOutliers schedule -> Outliers b' = Outliers b).
Proof.
  revert b. induction schedule as [| g rest IH]; intros b H; simpl in H.
  - injection H as <-. auto.
  - apply bind_Done in H. destruct H as [b1 [H1 H2]].
    apply run_others in H1. apply IH in H2.
    destruct H1 as (M1 & D1 & T1 & O1). destruct H2 as (M2 & D2 & T2 & O2).
    assert (Hrest : forall h, ~ In h (g :: rest) -> g <> h /\ ~ In h rest)
      by (intros h Hn; split; [intros ?; apply Hn; left; assumption
                              | intros ?; apply Hn; right; assumption]).
    split; [| split; [| split]]; intros Hn; apply Hrest in Hn; destruct Hn as [Hg Hn].
    + rewrite (M2 Hn). apply M1. congruence.
    + rewrite (D2 Hn). apply D1. congruence.
    + destruct (T2 Hn) as [-> ->]. apply T1. congruence.
    + rewrite (O2 Hn). apply O1. congruence.
Qed.


Lemma NoDup_middle {A : Type} (pre post : list A) (a : A) :
  NoDup (pre ++ a :: post) ->
  NoDup pre /\ NoDup post /\ ~ In a pre /\ ~ In a post /\
  forall x, In x pre -> ~ In x post.
Proof.
  intros H. pose proof (NoDup_remove_2 _ _ _ H) as Ha.
  pose proof (NoDup_remove_1 _ _ _ H) as Hpp.
  split; [eapply NoDup_app_remove_r; exact Hpp |].
  split; [eapply NoDup_app_remove_l; exact Hpp |].
  split; [intros ?; apply Ha, in_or_app; auto |].
  split; [intros ?; apply Ha, in_or_app; auto |].
  intros x Hx Hx'. revert Hpp Hx Hx'. clear. induction pre as [| y pre IH]; simpl.
  - contradiction.
  - intros Hd [-> | Hx] Hx'.
    + apply NoDup_cons_iff in Hd. apply (proj1 Hd), in_or_app. auto.
    + apply NoDup_cons_iff in Hd. apply IH; tauto.
Qed.


Lemma Permutation_goroutines_NoDup (schedule : list goroutine) :
  Permutation schedule goroutines -> NoDup schedule.
Proof. intros P. apply (Permutation_NoDup (Permutation_sym P)), goroutines_NoDup. Qed.




(** The median goroutine: it finds the slice as the caller gave it. *)
Lemma median_goroutine (pre post : list goroutine) (b b' : Block) :
  NoDup (pre ++ GoMedian :: post) ->
  calculateBlockStats (pre ++ GoMedian :: post) b = Done b' ->
  calculateMedian (Values b) = Done (Values b', Median b').
Proof.
  intros Hd H. destruct (NoDup_middle _ _ _ Hd) as (_ & _ & Hpre & Hpost & _).
  rewrite calculateBlockStats_app in H. apply bind_Done in H.
  destruct H as [b1 [H1 H]]. simpl in H.
  apply bind_Done in H. destruct H as [b2 [H2 H]].
  apply bind_Done in H2. destruct H2 as [[sorted m] [Hm H2]]. injection H2 as <-.
  rewrite (calculateBlockStats_Values_unsorted pre b b1 Hpre H1) in Hm.
  destruct (calculateBlockStats_others post _ b' H) as (_ & D & _ & _).
  rewrite (calculateBlockStats_Values_unsorted post _ b' Hpost H), (D Hpost).
  exact Hm.
Qed.

(** X5. What the race in [calculateBlockStats] cannot change.  Under every
    order of the four goroutines the block ends with the same values (the
    batch sorted) and the same median.  The mean and the band are summed
    over the batch as given or as sorted, so on a batch that is already in
    ascending order they too are the same under every order. *)
Theorem statistics_free_of_schedule (schedule schedule' : list goroutine)
        (b b1 b2 : Block) :
  Permutation schedule goroutines -> Permutation schedule' goroutines ->
  calculateBlockStats schedule b = Done b1 ->
  calculateBlockStats schedule' b = Done b2 ->
  Values b1 = Values b2 /\ Median b1 = Median b2 /\
  calculateMedian (Values b) = Done (Values b1, Median b1) /\
  (ascending (Values b) ->
     Mean b1 = Mean b2 /\ TwoSDLower b1 = TwoSDLower b2 /\ TwoSDUpper b1 = TwoSDUpper b2).
Proof.
  intros P P' H1 H2.
  assert (M : forall s r, Permutation s goroutines -> calculateBlockStats s b = Done r ->
                          calculateMedian (Values b) = Done (Values r, Median r)).
  { intros s r Ps Hr.
    assert (Hin : In GoMedian s)
      by (apply (Permutation_in _ (Permutation_sym Ps)); simpl; tauto).
    apply in_split in Hin. destruct Hin as (pre & post & ->).
    apply (median_goroutine pre post); [apply Permutation_goroutines_NoDup, Ps | exact Hr]. }
  pose proof (M _ _ P H1) as M1. pose proof (M _ _ P' H2) as M2.
  rewrite M1 in M2. injection M2 as Ev Em.
  split; [exact Ev |]. split; [exact Em |]. split; [exact M1 |].
  intros Hasc.
  destruct (calculateBlockStats_fields _ _ _ P H1) as (Mean1 & Band1 & _).
  destruct (calculateBlockStats_fields _ _ _ P' H2) as (Mean2 & Band2 & _).
  rewrite (sort_Float64s_ascending_id _ Hasc) in Mean1, Mean2, Band1, Band2.
  assert (B1 : (TwoSDLower b1, TwoSDUpper b1) = calculateTwoSDRange (Values b)) by tauto.
  assert (B2 : (TwoSDLower b2, TwoSDUpper b2) = calculateTwoSDRange (Values b)) by tauto.
  rewrite <- B2 in B1. injection B1 as -> ->.
  split; [| split; reflexivity].
  destruct Mean1 as [-> | ->]; destruct Mean2 as [-> | ->]; reflexivity.
Qed.

Lemma statistics_free_of_schedule_witness :
  exists b1 b2,
    calculateBlockStats goroutines
      (shell example_genesis example_time [10; 20; 30; 40; 50]%float) = Done b1 /\
    calculateBlockStats (rev goroutines)
      (shell example_genesis example_time [10; 20; 30; 40; 50]%float) = Done b2 /\
    Values b1 = Values b2 /\ Median b1 = Median b2 /\ Mean b1 = Mean b2 /\
    TwoSDLower b1 = TwoSDLower b2 /\ TwoSDUpper b1 = TwoSDUpper b2.
Proof.
  destruct (calculateBlockStats_returns goroutines
              (shell example_genesis example_time [10; 20; 30; 40; 50]%float))
    as [b1 H1]; [discriminate |].
  destruct (calculateBlockStats_returns (rev goroutines)
              (shell example_genesis example_time [10; 20; 30; 40; 50]%float))
    as [b2 H2]; [discriminate |].
  exists b1, b2. split; [exact H1 |]. split; [exact H2 |].
  destruct (statistics_free_of_schedule goroutines (rev goroutines) _ b1 b2
              (Permutation_refl _) (Permutation_sym (Permutation_rev goroutines)) H1 H2)
    as (Ev & Em & _ & Hasc).
  split; [exact Ev |]. split; [exact Em |]. apply Hasc.
  cbn [shell Values]. unfold ascending. repeat constructor.
Defined.

(** * More of the chain *)

Lemma mark_without_outliers (b : Block) : Outliers b = [] -> mark b = b.
Proof. intros H. unfold mark. rewrite H. reflexivity. Qed.

Lemma mark_mark (b : Block) : mark (mark b) = mark b.
Proof.
  unfold mark. destruct (0 <? len (Outliers b)) eqn:E; [| rewrite E; reflexivity].
  cbn [set_Hash Outliers]. rewrite E. reflexivity.
Qed.

(** X6. The marking pass is idempotent, and it changes nothing in a chain
    whose blocks have no outliers; it never changes what [calculateHash]
    returns for a block. *)
Theorem markBlocksWithOutliers_idempotent (chain : Blockchain) :
  markBlocksWithOutliers (markBlocksWithOutliers chain) = markBlocksWithOutliers chain /\
  (Forall (fun b => Outliers b = []) chain -> markBlocksWithOutliers chain = chain) /\
  map calculateHash (markBlocksWithOutliers chain) = map calculateHash chain.
Proof.
  unfold markBlocksWithOutliers. split; [| split].
  - rewrite map_map. apply map_ext. apply mark_mark.
  - intros H. induction H as [| b rest Hb _ IH]; [reflexivity |].
    simpl. rewrite IH, (mark_without_outliers b Hb). reflexivity.
  - rewrite map_map. apply map_ext. apply calculateHash_mark.
Qed.

(** ** The first and the last block *)

Lemma reachable_genesis (bc : Blockchain) :
  reachable bc -> exists now rest, bc = NewBlockchain now ++ rest.
Proof.
  induction 1 as [now | bc bc' schedule now values _ IH P H].
  - exists now, []. reflexivity.
  - destruct IH as (now0 & rest & ->).
    apply AddBlock_Done in H. destruct H as (prevBlock & newBlock & _ & _ & ->).
    exists now0. eexists. unfold markBlocksWithOutliers.
    rewrite map_app, <- app_assoc. f_equal.
Qed.



(** ** The stored hashes *)

(** Every block but the last has been through a marking pass since it was
    appended. *)
Lemma reachable_marked (bc : Blockchain) :
  reachable bc ->
  forall n b, nth_error bc n = Some b -> (S n < List.length bc)%nat ->
              Outliers b <> [] -> Hash b = OUTLIER_BLOCK_HASH.
Proof.
  induction 1 as [now | bc bc' schedule now values _ IH P H]; intros n b Hn Hlt Ho.
  - simpl in Hlt. lia.
  - apply AddBlock_Done in H. destruct H as (prevBlock & newBlock & _ & _ & ->).
    rewrite length_app, markBlocksWithOutliers_length in Hlt. simpl in Hlt.
    apply nth_error_appended in Hn. destruct Hn as [(b0 & Hb0 & ->) | [-> _]]; [| lia].
    apply mark_Hash_outliers. destruct (mark_fields b0) as (_ & _ & _ & _ & _ & _ & _ & _ & E).
    rewrite <- E. exact Ho.
Qed.

(** X8. In a chain the program built, take a block and its successor.  The
    successor's [PrevHash] is always what [calculateHash] gives for the
    block.  The block's stored [Hash] agrees with it when the block has no
    outliers; when it has outliers the stored [Hash] is the sentinel, and
    the link by stored hashes is broken. *)
Theorem stored_link_broken_at_outlier_blocks (bc : Blockchain) :
  reachable bc ->
  forall n p b,
    nth_error bc n = Some p -> nth_error bc (S n) = Some b ->
    PrevHash b = calculateHash p /\
    (Outliers p = [] -> Hash p = PrevHash b) /\
    (Outliers p <> [] -> Hash p = OUTLIER_BLOCK_HASH /\ Hash p <> PrevHash b).
Proof.
  intros H n p b Hp Hb.
  destruct (reachable_inv bc H) as [_ Hhash _ Hlink].
  pose proof (Hlink n p b Hp Hb) as E. split; [exact E |]. split.
  - intros Ho. destruct (Hhash n p Hp) as [Hh | [Hne _]]; [congruence | contradiction].
  - intros Ho.
    assert (Hs : Hash p = OUTLIER_BLOCK_HASH).
    { apply (reachable_marked bc H n p Hp); [| exact Ho].
      apply nth_error_Some. rewrite Hb. discriminate. }
    split; [exact Hs |]. rewrite Hs, E. intros F. symmetry in F.
    exact (calculateHash_not_sentinel p F).
Qed.

(** ** What a stored block lets one check again *)

(** The block an append makes. *)
Lemma AddBlock_new_block (schedule : list goroutine) (now : Time) (values : list float64)
      (bc bc' : Blockchain) :
  Permutation schedule goroutines ->
  AddBlock schedule now values bc = Done bc' ->
  exists newBlock,
    bc' = markBlocksWithOutliers bc ++ [newBlock] /\
    values <> [] /\
    Values newBlock = sort_Float64s values /\
    calculateMedian (Values newBlock) = Done (Values newBlock, Median newBlock) /\
    forall value, In value (Outliers newBlock) ->
                  In value (Values newBlock) /\ isNaN value = false.
Proof.
  intros P H. apply AddBlock_Done in H. destruct H as (prevBlock & nb & _ & Hs & ->).
  exists (set_Hash nb (calculateHash nb)). split; [reflexivity |].
  cbn [set_Hash Values Median Outliers].
  assert (Hin : In GoMedian schedule)
    by (apply (Permutation_in _ (Permutation_sym P)); simpl; tauto).
  assert (Hne : values <> []).
  { intros E. rewrite (calculateBlockStats_empty schedule) in Hs;
      [discriminate | rewrite E; reflexivity | exact Hin]. }
  split; [exact Hne |].
  pose proof (calculateBlockStats_Values _ _ _ P Hs) as Hv. cbn [shell Values] in Hv.
  split; [exact Hv |].
  split.
  - apply in_split in Hin. destruct Hin as (pre & post & ->).
    pose proof (median_goroutine pre post _ _ (Permutation_goroutines_NoDup _ P) Hs) as Hm.
    cbn [shell Values] in Hm. rewrite Hv at 1. rewrite calculateMedian_sorted. exact Hm.
  - intros value Ho.
    destruct (calculateBlockStats_fields _ _ _ P Hs) as (_ & _ & seen & lo & hi & Hseen & _ & E).
    cbn [shell Values] in Hseen. rewrite E in Ho. split.
    + rewrite Hv. apply (Permutation_in _ (Permutation_sym (sort_Float64s_Permutation values))).
      apply filter_In in Ho. destruct Ho as [Ho _].
      destruct Hseen as [-> | ->]; [exact Ho |].
      apply (Permutation_in _ (sort_Float64s_Permutation values)), Ho.
    + pose proof (calculateOutliers_not_nan seen lo hi) as N.
      rewrite Forall_forall in N. apply N, Ho.
Qed.

Lemma AddBlock_new_block_Mean (schedule : list goroutine) (now : Time)
      (values : list float64) (bc bc' : Blockchain) (newBlock : Block) :
  Permutation schedule goroutines ->
  AddBlock schedule now values bc = Done bc' ->
  bc' = markBlocksWithOutliers bc ++ [newBlock] ->
  Mean newBlock = calculateMean values \/
  Mean newBlock = calculateMean (sort_Float64s values).
Proof.
  intros P H E. apply AddBlock_Done in H. destruct H as (prevBlock & nb & _ & Hs & ->).
  apply app_inv_head in E. injection E as <-. cbn [set_Hash Mean].
  destruct (calculateBlockStats_fields _ _ _ P Hs) as (Hmean & _).
  exact Hmean.
Qed.

(** X15. What can be checked again on the blocks of a chain the program
    built.  The genesis block is the only block without values.  For every
    other block, [calculateMedian] run on the stored values returns the
    stored median and leaves the values as they are.  Every outlier a block
    lists is one of its values and is not a NaN. *)
Theorem stored_block_rechecks (bc : Blockchain) :
  reachable bc ->
  forall n b, nth_error bc n = Some b ->
    (Values b = [] <-> n = 0%nat) /\
    (n <> 0%nat -> calculateMedian (Values b) = Done (Values b, Median b)) /\
    (forall value, In value (Outliers b) -> In value (Values b) /\ isNaN value = false).
Proof.
  induction 1 as [now | bc bc' schedule now values Hr IH P H]; intros n b Hn.
  - destruct n as [| n]; [| destruct n; discriminate]. injection Hn as <-.
    simpl. split; [tauto |]. split; [contradiction | intros value []].
  - destruct (AddBlock_new_block _ _ _ _ _ P H) as (nb & -> & Hne & Hv & Hm & Ho).
    apply nth_error_appended in Hn. destruct Hn as [(b0 & Hb0 & ->) | [-> ->]].
    + destruct (mark_fields b0) as (_ & _ & -> & _ & _ & -> & _ & _ & ->).
      apply (IH n b0 Hb0).
    + destruct (reachable_genesis bc Hr) as (now0 & rest & ->).
      split; [| split; [intros _; exact Hm | exact Ho]].
      rewrite Hv. split.
      * intros E. exfalso. apply Hne.
        pose proof (sort_Float64s_Permutation values) as Ps. rewrite E in Ps.
        apply Permutation_nil, Ps.
      * simpl. discriminate.
Qed.

Lemma longer_chain_reachable : reachable longer_chain.
Proof.
  apply (reachable_add example_chain longer_chain goroutines (mkTime 1700000005 0)
                       generated_batch);
    [apply example_chain_reachable | apply Permutation_refl | vm_compute; reflexivity].
Defined.

Lemma stored_link_broken_at_outlier_blocks_witness :
  exists p b,
    nth_error longer_chain 1 = Some p /\ nth_error longer_chain 2 = Some b /\
    Outliers p = [-100; 100]%float /\
    PrevHash b = calculateHash p /\
    Hash p = OUTLIER_BLOCK_HASH /\ Hash p <> PrevHash b.
Proof.
  assert (E : exists p b, nth_error longer_chain 1 = Some p /\
                          nth_error longer_chain 2 = Some b /\
                          Outliers p = [-100; 100]%float).
  { vm_compute. do 2 eexists. split; [reflexivity |]. split; reflexivity. }
  destruct E as (p & b & Hp & Hb & Ho). exists p, b.
  destruct (stored_link_broken_at_outlier_blocks longer_chain longer_chain_reachable
              1%nat p b Hp Hb) as (Hlink & _ & Hbroken).
  split; [exact Hp |]. split; [exact Hb |]. split; [exact Ho |]. split; [exact Hlink |].
  apply Hbroken. rewrite Ho. discriminate.
Defined.

Lemma stored_block_rechecks_witness :
  exists b,
    nth_error longer_chain 1 = Some b /\
    Values b = [-100; 0; 0; 0; 0; 0; 0; 0; 0; 0; 0; 100]%float /\
    calculateMedian (Values b) = Done (Values b, Median b) /\
    (forall value, In value (Outliers b) -> In value (Values b) /\ isNaN value = false).
Proof.
  assert (E : exists b, nth_error longer_chain 1 = Some b /\
                        Values b = [-100; 0; 0; 0; 0; 0; 0; 0; 0; 0; 0; 100]%float).
  { vm_compute. eexists. split; reflexivity. }
  destruct E as (b & Hb & Hv). exists b.
  destruct (stored_block_rechecks longer_chain longer_chain_reachable 1%nat b Hb)
    as (_ & Hm & Ho).
  split; [exact Hb |]. split; [exact Hv |]. split; [apply Hm; discriminate | exact Ho].
Defined.

(** * The generator *)

Section GeneratorFacts.

Variable rng : Type.
Variable Float64 : rng -> float64 * rng.

Lemma generateValues_length (count : nat) (values : list float64) (src : rng) :
  List.length (fst (generateValues rng Float64 count values src))
  = (List.length values + count)%nat.
Proof.
  revert values src. induction count as [| count IH]; intros values src; simpl.
  - lia.
  - rewrite IH, length_app. simpl. lia.
Qed.

(** Later iterations leave the values and the median of a block alone. *)
Lemma generator_keeps (ticks : list (list goroutine * Time)) (src src' : rng)
      (bc bc' : Blockchain) :
  generateValuesAndAddToBlockchain rng Float64 ticks src bc = Done (bc', src') ->
  forall n b, nth_error bc n = Some b ->
              exists b', nth_error bc' n = Some b' /\
                         Values b' = Values b /\ Median b' = Median b /\
                         Mean b' = Mean b.
Proof.
  revert src bc. induction ticks as [| tick rest IH]; intros src bc H n b Hb.
  - injection H as <- _. eauto.
  - cbn [generateValuesAndAddToBlockchain] in H. apply bind_Done in H.
    destruct H as (bc1 & H1 & H).
    apply AddBlock_Done in H1. destruct H1 as (p & nb & _ & _ & ->).
    assert (Hb1 : nth_error (markBlocksWithOutliers bc ++ [set_Hash nb (calculateHash nb)]) n
                  = Some (mark b)).
    { rewrite nth_error_app1
        by (rewrite markBlocksWithOutliers_length; apply nth_error_Some; congruence).
      rewrite nth_error_marked, Hb. reflexivity. }
    destruct (IH _ _ H n _ Hb1) as (b' & Hb' & Ev & Em & Ea).
    exists b'. split; [exact Hb' |]. rewrite Ev, Em, Ea.
    destruct (mark_fields b) as (_ & _ & E1 & _ & E3 & E2 & _). auto.
Qed.

(** X9. The generator never makes [AddBlock] panic.  Each iteration of its
    loop draws five numbers, so the batch is never empty; started on a
    chain the program built, any number of iterations return, each adds
    one block of five values, and the chain stays one the program built.
    Five being odd, the median each of these blocks stores is one of its
    values. *)
Theorem generator_never_panics (ticks : list (list goroutine * Time)) (src : rng)
        (bc : Blockchain) :
  reachable bc ->
  Forall (fun tick => Permutation (fst tick) goroutines) ticks ->
  exists bc' src',
    generateValuesAndAddToBlockchain rng Float64 ticks src bc = Done (bc', src') /\
    reachable bc' /\
    List.length bc' = (List.length bc + List.length ticks)%nat /\
    forall n b, (List.length bc <= n)%nat -> nth_error bc' n = Some b ->
                List.length (Values b) = 5%nat /\ In (Median b) (Values b).
Proof.
  intros Hr Hp. revert src bc Hr.
  induction Hp as [| tick rest Ptick _ IH]; intros src bc Hr.
  - exists bc, src. split; [reflexivity |]. split; [exact Hr |].
    split; [simpl; lia |].
    intros n b Hn Hb.
    assert (n < List.length bc)%nat by (apply nth_error_Some; congruence). lia.
  - cbn [generateValuesAndAddToBlockchain].
    set (generated := generateValues rng Float64 5 [] src).
    assert (Hlen : List.length (fst generated) = 5%nat)
      by apply generateValues_length.
    assert (Hne : fst generated <> []) by (intros E; rewrite E in Hlen; discriminate).
    destruct (AddBlock_returns bc (fst tick) (snd tick) (fst generated)
                               (reachable_inv bc Hr) Hne) as [bc1 H1].
    rewrite H1. cbn [bind].
    assert (Hr1 : reachable bc1) by (eapply reachable_add; eassumption).
    destruct (IH (snd generated) bc1 Hr1) as (bc' & src' & Hrun & Hr' & Hl & Hv).
    exists bc', src'. split; [exact Hrun |]. split; [exact Hr' |].
    pose proof (AddBlock_length _ _ _ _ _ H1) as Hl1.
    split; [rewrite Hl, Hl1; simpl; lia |].
    intros n b Hn Hb.
    destruct (Nat.eq_dec n (List.length bc)) as [-> | Hneq];
      [| apply (Hv n b); [lia | exact Hb]].
    (* the block of this iteration, at its place in the final chain *)
    destruct (AddBlock_new_block _ _ _ _ _ Ptick H1) as (nb & E1 & _ & Hvalues & Hm & _).
    assert (Hnb : nth_error bc1 (List.length bc) = Some nb).
    { rewrite E1, nth_error_app2 by (rewrite markBlocksWithOutliers_length; lia).
      rewrite markBlocksWithOutliers_length, Nat.sub_diag. reflexivity. }
    destruct (generator_keeps _ _ _ _ _ Hrun _ _ Hnb) as (b' & Hb' & Ev & Em & _).
    rewrite Hb in Hb'. injection Hb' as <-. rewrite Ev, Em.
    assert (Hfive : List.length (Values nb) = 5%nat).
    { rewrite Hvalues, <- Hlen. apply Permutation_length, sort_Float64s_Permutation. }
    split; [exact Hfive |].
    apply (calculateMedian_odd_member (Values nb) (Values nb)); [| exact Hm].
    unfold len. rewrite Hfive. reflexivity.
Qed.

End GeneratorFacts.

Lemma generator_never_panics_witness :
  exists bc' src',
    generateValuesAndAddToBlockchain Z example_Float64
      [(goroutines, mkTime 1700000005 0); (rev goroutines, mkTime 1700000010 0)]
      1 example_chain = Done (bc', src') /\
    reachable bc' /\
    List.length bc' = (List.length example_chain + 2)%nat /\
    forall n b, (List.length example_chain <= n)%nat -> nth_error bc' n = Some b ->
                List.length (Values b) = 5%nat /\ In (Median b) (Values b).
Proof.
  apply (generator_never_panics Z example_Float64
           [(goroutines, mkTime 1700000005 0); (rev goroutines, mkTime 1700000010 0)]
           1 example_chain example_chain_reachable).
  repeat constructor. apply Permutation_sym, Permutation_rev.
Defined.

(** * Reading batches from a file *)

Section ExternalSourceFacts.

Variable File : Type.
Variable error : Type.
Variable os_Open : string -> File + error.
Variable csv_ReadAll : File -> list (list string) + error.
Variable strconv_ParseFloat : string -> float64 + error.
Variable json_Decode : File -> list (list float64) + error.
Variable fmt_Errorf : string -> error.

Lemma convertRow_spec (row : list string) (floatRow : list float64) :
  match first_error error strconv_ParseFloat row with
  | Some err => convertRow error strconv_ParseFloat row floatRow = inr err
  | None => exists values,
      convertRow error strconv_ParseFloat row floatRow = inl (floatRow ++ values) /\
      Forall2 (fun valueStr value => strconv_ParseFloat valueStr = inl value) row values
  end.
Proof.
  revert floatRow. induction row as [| valueStr rest IH]; intros floatRow; simpl.
  - exists []. rewrite app_nil_r. split; constructor.
  - destruct (strconv_ParseFloat valueStr) as [value | err] eqn:E; [| reflexivity].
    specialize (IH (floatRow ++ [value])).
    destruct (first_error error strconv_ParseFloat rest); [exact IH |].
    destruct IH as (values & -> & Hv). exists (value :: values).
    rewrite <- app_assoc. split; [reflexivity |]. constructor; assumption.
Qed.

Lemma first_error_app (cells cells' : list string) :
  first_error error strconv_ParseFloat (cells ++ cells')
  = match first_error error strconv_ParseFloat cells with
    | Some err => Some err
    | None => first_error error strconv_ParseFloat cells'
    end.
Proof.
  induction cells as [| valueStr rest IH]; simpl; [reflexivity |].
  destruct (strconv_ParseFloat valueStr); [exact IH | reflexivity].
Qed.

Lemma convertRecords_spec (records : list (list string)) (data : list (list float64)) :
  match first_error error strconv_ParseFloat (List.concat records) with
  | Some err => convertRecords error strconv_ParseFloat records data = inr err
  | None => exists rows,
      convertRecords error strconv_ParseFloat records data = inl (data ++ rows) /\
      Forall2 (Forall2 (fun valueStr value => strconv_ParseFloat valueStr = inl value))
              records rows
  end.
Proof.
  revert data. induction records as [| row rest IH]; intros data; simpl.
  - exists []. rewrite app_nil_r. split; constructor.
  - rewrite first_error_app. pose proof (convertRow_spec row []) as Hrow.
    destruct (first_error error strconv_ParseFloat row) as [err |].
    + rewrite Hrow. reflexivity.
    + destruct Hrow as (values & -> & Hv). simpl.
      specialize (IH (data ++ [values])).
      destruct (first_error error strconv_ParseFloat (List.concat rest)); [exact IH |].
      destruct IH as (rows & -> & Hr). exists (values :: rows).
      rewrite <- app_assoc. split; [reflexivity |]. constructor; assumption.
Qed.

(** X10. Reading a csv file is all or nothing.  When the file opens and
    the csv reader returns its records, the result is the records with
    every cell parsed, row for row and cell for cell, if every cell
    parses; if not, it is the error of the first cell, in reading order,
    that does not parse, and no data at all. *)
Theorem csv_all_or_nothing (filePath : string) (file : File)
        (records : list (list string)) :
  os_Open filePath = inl file ->
  csv_ReadAll file = inl records ->
  match first_error error strconv_ParseFloat (List.concat records) with
  | Some err =>
      readDataFromExternalSource File error os_Open csv_ReadAll strconv_ParseFloat
                                 json_Decode fmt_Errorf filePath "csv" = inr err
  | None =>
      exists data,
        readDataFromExternalSource File error os_Open csv_ReadAll strconv_ParseFloat
                                   json_Decode fmt_Errorf filePath "csv" = inl data /\
        Forall2 (Forall2 (fun valueStr value => strconv_ParseFloat valueStr = inl value))
                records data
  end.
Proof.
  intros Ho Hr. unfold readDataFromExternalSource. rewrite Ho. simpl. rewrite Hr.
  pose proof (convertRecords_spec records []) as H.
  destruct (first_error error strconv_ParseFloat (List.concat records)); [exact H |].
  destruct H as (rows & -> & Hrows). exists rows. split; [reflexivity | exact Hrows].
Qed.


End ExternalSourceFacts.

Lemma csv_all_or_nothing_witness :
  exists data,
    readDataFromExternalSource string string example_Open example_ReadAll
      example_ParseFloat example_Decode (fun message => message) "data.csv"%string "csv"%string
    = inl data /\
    Forall2 (Forall2 (fun valueStr value => example_ParseFloat valueStr = inl value))
            [["1"; "2.5"]; ["-3"]]%string data.
Proof.
  exact (csv_all_or_nothing string string example_Open example_ReadAll example_ParseFloat
           example_Decode (fun message => message) "data.csv"%string "data.csv"%string
           [["1"; "2.5"]; ["-3"]]%string eq_refl eq_refl).
Defined.

(** * The variance and the band, on every batch *)

Lemma SF64mul_square_sign (d : spec_float) :
  SF64mul d d = S754_nan \/ SFnonneg (SF64mul d d).
Proof.
  destruct d as [s | s | | s m e] eqn:E; [right | right | left; reflexivity | right];
    apply SF64mul_square; discriminate.
Qed.

Lemma SF64add_sign (a b : spec_float) :
  a = S754_nan \/ SFnonneg a -> b = S754_nan \/ SFnonneg b ->
  SF64add a b = S754_nan \/ SFnonneg (SF64add a b).
Proof.
  intros [-> | Ha] [-> | Hb].
  - left. reflexivity.
  - left. reflexivity.
  - left. apply SF64add_nan_r.
  - right. apply SF64add_nonneg; assumption.
Qed.

Lemma SF64div_count_sign (a : spec_float) (n : Z) :
  a = S754_nan \/ SFnonneg a ->
  SF64div a (Prim2SF (float64_of_int n)) = S754_nan \/
  SFnonneg (SF64div a (Prim2SF (float64_of_int n))).
Proof.
  intros [-> | Ha]; [left; apply SF64div_nan_l |].
  destruct (float64_of_int_cases n) as [-> | (mn & en & ->)].
  - destruct a as [[] | [] | | [] ma ea]; try contradiction; simpl; auto.
  - right. apply SF64div_nonneg, Ha.
Qed.

Lemma sum_squares_sign (values : list float64) (mean acc : float64) :
  Prim2SF acc = S754_nan \/ SFnonneg (Prim2SF acc) ->
  let sum := fold_left (fun sumSquaredDiff value =>
                          let diff := (value - mean)%float in
                          (sumSquaredDiff + diff * diff)%float) values acc in
  Prim2SF sum = S754_nan \/ SFnonneg (Prim2SF sum).
Proof.
  revert acc. induction values as [| value rest IH]; intros acc Ha; simpl; [exact Ha |].
  apply IH. rewrite FloatAxioms.add_spec, FloatAxioms.mul_spec.
  apply SF64add_sign; [exact Ha | apply SF64mul_square_sign].
Qed.

Lemma calculateVariance_sign (values : list float64) (mean : float64) :
  Prim2SF (calculateVariance values mean) = S754_nan \/
  SFnonneg (Prim2SF (calculateVariance values mean)).
Proof.
  unfold calculateVariance. rewrite FloatAxioms.div_spec.
  apply SF64div_count_sign.
  apply (sum_squares_sign values mean 0%float). right. exact I.
Qed.

Lemma SFnonneg_not_below_zero (x : float64) :
  Prim2SF x = S754_nan \/ SFnonneg (Prim2SF x) -> (x <? 0)%float = false.
Proof.
  intros H. rewrite FloatAxioms.ltb_spec. change (Prim2SF 0) with (S754_zero false).
  destruct (Prim2SF x) as [[] | [] | | [] m e]; try reflexivity;
    destruct H as [H | H]; try discriminate; contradiction.
Qed.

(** X12. The variance [calculateVariance] returns is never negative,
    whatever the samples and the mean it is given: it is a sum of squares
    over a count, or a NaN.  So [math.Sqrt] in [calculateTwoSDRange] never
    gets a negative number, and the standard deviation is a NaN only when
    the variance is one. *)
Theorem variance_never_negative (values : list float64) (mean : float64) :
  (calculateVariance values mean <? 0)%float = false /\
  isNaN (PrimFloat.sqrt (calculateVariance values mean))
  = isNaN (calculateVariance values mean).
Proof.
  pose proof (calculateVariance_sign values mean) as H.
  split; [apply SFnonneg_not_below_zero, H |].
  destruct H as [H | H].
  - pose proof (proj2 (isNaN_spec _) H) as N. rewrite N. apply sqrt_nan, N.
  - pose proof (SFnonneg_not_nan _ H) as N.
    pose proof (SFnonneg_not_nan _ (SF64sqrt_nonneg _ H)) as N'.
    rewrite <- FloatAxioms.sqrt_spec in N'.
    apply isNaN_false in N, N'. rewrite N, N'. reflexivity.
Qed.

(** ** An infinite mean *)

(** Against an infinite mean every squared deviation is +Inf or a NaN. *)
Lemma squared_deviation_infinite (value mean : spec_float) (s : bool) :
  mean = S754_infinity s ->
  let d := SF64sub value mean in
  SF64mul d d = S754_nan \/ SF64mul d d = S754_infinity false.
Proof.
  intros ->. destruct value as [[] | [] | | [] m e], s; simpl; auto.
Qed.

Lemma SF64add_infinite (a b : spec_float) :
  a = S754_zero false \/ a = S754_nan \/ a = S754_infinity false ->
  b = S754_nan \/ b = S754_infinity false ->
  SF64add a b = S754_nan \/ SF64add a b = S754_infinity false.
Proof. intros [-> | [-> | ->]] [-> | ->]; simpl; auto. Qed.

Lemma sum_squares_infinite (values : list float64) (mean acc : float64) (s : bool) :
  Prim2SF mean = S754_infinity s ->
  values <> [] \/ Prim2SF acc <> S754_zero false ->
  Prim2SF acc = S754_zero false \/ Prim2SF acc = S754_nan \/
  Prim2SF acc = S754_infinity false ->
  let sum := fold_left (fun sumSquaredDiff value =>
                          let diff := (value - mean)%float in
                          (sumSquaredDiff + diff * diff)%float) values acc in
  Prim2SF sum = S754_nan \/ Prim2SF sum = S754_infinity false.
Proof.
  intros Hm. revert acc. induction values as [| value rest IH]; intros acc Hne Ha; simpl.
  - destruct Hne as [Hne | Hne]; [contradiction |]. tauto.
  - assert (Hs : Prim2SF (acc + (value - mean) * (value - mean))%float = S754_nan \/
                 Prim2SF (acc + (value - mean) * (value - mean))%float
                 = S754_infinity false).
    { rewrite FloatAxioms.add_spec, FloatAxioms.mul_spec, FloatAxioms.sub_spec.
      apply SF64add_infinite; [exact Ha |].
      apply (squared_deviation_infinite _ _ s Hm). }
    apply IH.
    + right. destruct Hs as [-> | ->]; discriminate.
    + tauto.
Qed.

(** Twice the standard deviation around an infinite mean. *)
Lemma spread_infinite (values : list float64) (s : bool) :
  Prim2SF (calculateMean values) = S754_infinity s ->
  let spread :=
    (2 * PrimFloat.sqrt (calculateVariance values (calculateMean values)))%float in
  Prim2SF spread = S754_nan \/ Prim2SF spread = S754_infinity false.
Proof.
  intros Hm.
  assert (Hne : values <> []) by (intros ->; vm_compute in Hm; discriminate).
  cbv zeta. rewrite FloatAxioms.mul_spec, FloatAxioms.sqrt_spec.
  change (Prim2SF 2) with (S754_finite false 4503599627370496 (-51)).
  unfold calculateVariance. rewrite FloatAxioms.div_spec.
  pose proof (sum_squares_infinite values (calculateMean values) 0%float s Hm
                (or_introl Hne) (or_introl eq_refl)) as Hsum.
  cbv zeta in Hsum.
  destruct Hsum as [-> | ->].
  - rewrite SF64div_nan_l. left. reflexivity.
  - destruct (float64_of_int_cases (len values)) as [-> | (mn & en & ->)];
      right; reflexivity.
Qed.

Lemma SFfinite_is_finite (x : float64) :
  SFfinite (Prim2SF x) -> PrimFloat.is_finite x = true.
Proof.
  intros H. unfold PrimFloat.is_finite, is_infinity.
  assert (N : PrimFloat.is_nan x = false).
  { apply isNaN_false. intros E. rewrite E in H. exact H. }
  rewrite N, FloatAxioms.eqb_spec, abs_spec.
  destruct (Prim2SF x) as [s | s | | s m e]; [reflexivity | contradiction
                                              | contradiction | reflexivity].
Qed.

(** X13. On every batch, the band [calculateTwoSDRange] returns is not
    inverted and does not leave the mean outside: the upper bound is never
    below the lower bound, the mean never below the lower bound, the upper
    bound never below the mean.  (A bound can be a NaN, which is below
    nothing and above nothing.) *)
Theorem band_never_inverted (values : list float64) :
  let mean := calculateMean values in
  let lowerBound := fst (calculateTwoSDRange values) in
  let upperBound := snd (calculateTwoSDRange values) in
  (upperBound <? lowerBound)%float = false /\
  (mean <? lowerBound)%float = false /\
  (upperBound <? mean)%float = false.
Proof.
  cbv zeta.
  destruct (Prim2SF (calculateMean values)) as [s | s | | s m e] eqn:Hm.
  1, 4: (* a finite mean lies in the band *)
    assert (Hfin : PrimFloat.is_finite (calculateMean values) = true)
      by (apply SFfinite_is_finite; rewrite Hm; exact I);
    destruct (band_around_finite_mean values Hfin) as [Hl Hu];
    rewrite leb_key in Hl, Hu; rewrite !ltb_key;
    apply andb_true_iff in Hl, Hu;
    destruct Hl as [Hl1 Hl], Hu as [Hu1 Hu];
    apply Z.leb_le in Hl, Hu;
    repeat split; apply andb_false_iff; right; apply Z.ltb_ge; lia.
  - (* an infinite mean: the bound on its side is a NaN, the other one is
       the mean or a NaN *)
    pose proof (spread_infinite values s Hm) as Hs. cbv zeta in Hs.
    unfold calculateTwoSDRange. cbn [fst snd].
    rewrite !FloatAxioms.ltb_spec, FloatAxioms.add_spec, FloatAxioms.sub_spec, Hm.
    destruct s, Hs as [-> | ->]; repeat split; reflexivity.
  - (* a NaN mean: both bounds are NaN *)
    unfold calculateTwoSDRange. cbn [fst snd].
    assert (N : isNaN (calculateMean values) = true) by (apply isNaN_spec, Hm).
    repeat split; [apply ltb_nan_l, add_nan_l, N | apply ltb_nan_l, N | apply ltb_nan_r, N].
Qed.

(** * The text the hash is taken of *)

(** ** Decimal digits *)

Lemma string_append_assoc (s t u : string) : ((s ++ t) ++ u = s ++ (t ++ u))%string.
Proof. induction s as [| c s IH]; simpl; [reflexivity | rewrite IH; reflexivity]. Qed.

Lemma string_of_uint_revapp (l acc : Decimal.uint) :
  NilEmpty.string_of_uint (Decimal.revapp l acc)
  = (NilEmpty.string_of_uint (Decimal.revapp l Decimal.Nil)
     ++ NilEmpty.string_of_uint acc)%string.
Proof.
  revert acc.
  induction l as [| l IH | l IH | l IH | l IH | l IH | l IH | l IH | l IH | l IH | l IH];
    intros acc; [reflexivity | ..]; simpl;
    rewrite IH; symmetry; rewrite IH; simpl;
    rewrite string_append_assoc; reflexivity.
Qed.

Lemma NilZero_NilEmpty (d : Decimal.uint) :
  d <> Decimal.Nil -> NilZero.string_of_uint d = NilEmpty.string_of_uint d.
Proof. destruct d; [contradiction | ..]; reflexivity. Qed.

Lemma format_d_pos (p : positive) :
  strconv.format_d (Zpos p)
  = NilEmpty.string_of_uint (Decimal.rev (Pos.to_little_uint p)).
Proof.
  unfold strconv.format_d. simpl. apply NilZero_NilEmpty.
  apply DecimalPos.Unsigned.to_uint_nonnil.
Qed.

Lemma to_lu_digit (p : positive) (d : nat) :
  DecimalPos.Unsigned.to_lu (10 * Npos p + N.of_nat d)
  = Nat.iter d Decimal.Little.succ (Decimal.D0 (DecimalPos.Unsigned.to_lu (Npos p))).
Proof.
  induction d as [| d IH].
  - rewrite DecimalPos.Unsigned.nat_iter_0, N.add_0_r. apply DecimalPos.Unsigned.to_ldec_tenfold.
  - rewrite DecimalPos.Unsigned.nat_iter_S, <- IH, <- DecimalPos.Unsigned.to_lu_succ. f_equal. lia.
Qed.

Lemma to_little_uint_snoc (p q : positive) (d : nat) :
  (d < 10)%nat -> Npos q = (10 * Npos p + N.of_nat d)%N ->
  NilEmpty.string_of_uint (Decimal.rev (Pos.to_little_uint q))
  = (NilEmpty.string_of_uint (Decimal.rev (Pos.to_little_uint p))
     ++ strconv.format_d (Z.of_nat d))%string.
Proof.
  intros Hd Hq.
  change (Pos.to_little_uint q) with (DecimalPos.Unsigned.to_lu (Npos q)).
  rewrite Hq, to_lu_digit.
  change (DecimalPos.Unsigned.to_lu (Npos p)) with (Pos.to_little_uint p).
  unfold Decimal.rev.
  destruct d as [| [| [| [| [| [| [| [| [| [| d]]]]]]]]]]; [| | | | | | | | | | lia];
    simpl; rewrite string_of_uint_revapp; reflexivity.
Qed.

(** The text of [10 * i + d] is the text of [i] and the digit [d]. *)
Lemma format_d_snoc (i d : Z) :
  0 < i -> 0 <= d < 10 ->
  strconv.format_d (10 * i + d) = (strconv.format_d i ++ strconv.format_d d)%string.
Proof.
  intros Hi Hd.
  destruct i as [| p | p]; try lia.
  destruct (10 * Zpos p + d) as [| q | q] eqn:Hq; try lia.
  rewrite !format_d_pos.
  rewrite <- (Z2Nat.id d) by lia.
  apply to_little_uint_snoc; lia.
Qed.

(** The text of a number of [k + 2] digits is its first digit and the text
    of the rest. *)
Lemma format_d_cons (k : nat) (d r : Z) :
  1 <= d <= 9 -> 10 ^ Z.of_nat k <= r < 10 ^ (Z.of_nat k + 1) ->
  strconv.format_d (d * 10 ^ (Z.of_nat k + 1) + r)
  = (strconv.format_d d ++ strconv.format_d r)%string.
Proof.
  intros Hd. revert r. induction k as [| k IH]; intros r Hr.
  - change (10 ^ Z.of_nat 0) with 1 in Hr. change (10 ^ (Z.of_nat 0 + 1)) with 10 in *.
    rewrite (Z.mul_comm d 10). apply format_d_snoc; lia.
  - assert (E1 : 10 ^ Z.of_nat (S k) = 10 * 10 ^ Z.of_nat k)
      by (rewrite Nat2Z.inj_succ, Z.pow_succ_r; lia).
    assert (E2 : 10 ^ (Z.of_nat (S k) + 1) = 10 * 10 ^ (Z.of_nat k + 1)).
    { rewrite Nat2Z.inj_succ.
      replace (Z.succ (Z.of_nat k) + 1) with (Z.succ (Z.of_nat k + 1)) by lia.
      rewrite Z.pow_succ_r; lia. }
    rewrite E1 in Hr. rewrite E2 in Hr |- *.
    assert (Pp : 0 < 10 ^ Z.of_nat k) by (apply Z.pow_pos_nonneg; lia).
    assert (Pq : 0 < 10 ^ (Z.of_nat k + 1)) by (apply Z.pow_pos_nonneg; lia).
    set (P := 10 ^ Z.of_nat k) in *. set (Q := 10 ^ (Z.of_nat k + 1)) in *.
    pose proof (Z.div_mod r 10 ltac:(lia)) as Er.
    pose proof (Z.mod_pos_bound r 10 ltac:(lia)) as Br.
    assert (Hq : P <= r / 10 < Q).
    { split.
      - apply Z.div_le_lower_bound; lia.
      - apply Z.div_lt_upper_bound; lia. }
    replace (d * (10 * Q) + r) with (10 * (d * Q + r / 10) + r mod 10) by lia.
    rewrite format_d_snoc by nia.
    rewrite (IH (r / 10) Hq).
    rewrite string_append_assoc, <- format_d_snoc by lia.
    rewrite <- Er. reflexivity.
Qed.

(** X14. The text [calculateHash] hashes runs the index and the seconds of
    the timestamp together with nothing between them.  So a block keeps its
    hash when the first digit of its seconds moves to the end of its index:
    block 1 at second 1700000000 and block 11 at second 700000000, all other
    fields alike, have the same hash. *)
Theorem fingerprint_runs_numbers_together (b : Block) (index digit rest : Z) (k : nat) :
  0 < index -> 1 <= digit <= 9 ->
  10 ^ Z.of_nat k <= rest < 10 ^ (Z.of_nat k + 1) ->
  calculateHash (restamp b index (digit * 10 ^ (Z.of_nat k + 1) + rest))
  = calculateHash (restamp b (10 * index + digit) rest) /\
  Index (restamp b index (digit * 10 ^ (Z.of_nat k + 1) + rest))
  <> Index (restamp b (10 * index + digit) rest).
Proof.
  intros Hi Hd Hr. split; [| cbn [restamp Index]; lia].
  unfold calculateHash, blockData. cbn [restamp Index Timestamp Unix Values PrevHash Mean
                                        Median TwoSDLower TwoSDUpper Outliers].
  rewrite (format_d_cons k digit rest Hd Hr), (format_d_snoc index digit Hi) by lia.
  rewrite !string_append_assoc. reflexivity.
Qed.

Lemma fingerprint_runs_numbers_together_witness :
  calculateHash (restamp example_genesis 1 1700000000)
  = calculateHash (restamp example_genesis 11 700000000) /\
  Index (restamp example_genesis 1 1700000000)
  <> Index (restamp example_genesis 11 700000000).
Proof.
  apply (fingerprint_runs_numbers_together example_genesis 1 1 700000000 8); lia.
Defined.

(** * The samples the generator makes *)

(** ** What is rounded stays below a float64 it was below *)

Lemma loc_of_shr_record_of_loc (q : Z) (l : location) :
  loc_of_shr_record (shr_record_of_loc q l) = l.
Proof. destruct l as [| []]; reflexivity. Qed.

(** The digits shifted out of [q], when something was already lost before:
    the record stays inexact. *)
Lemma iter_shr_1_inexact (q : Z) (l : location) (n : positive) :
  0 <= q -> l <> loc_Exact ->
  let mrs := iter_pos shr_1 n (shr_record_of_loc q l) in
  shr_m mrs = q / 2 ^ Zpos n /\ loc_of_shr_record mrs <> loc_Exact.
Proof.
  intros Hq Hl.
  assert (H1 : shifted (2 * q + 1) 1 (shr_record_of_loc q l)).
  { split.
    - rewrite shr_record_of_loc_m. change (2 ^ 1) with 2.
      apply (Z.div_unique _ 2 q 1); lia.
    - change (2 ^ 1) with 2.
      replace ((2 * q + 1) mod 2) with 1
        by (apply (Z.mod_unique _ 2 q 1); lia).
      split; [| discriminate]. intros F. exfalso. apply Hl.
      rewrite <- (loc_of_shr_record_of_loc q l).
      apply loc_of_shr_record_exact, F. }
  pose proof (iter_pos_invariant shr_1 (shifted (2 * q + 1))
                (fun k x Hk => shr_1_shifted (2 * q + 1) k x ltac:(lia) Hk)
                n 1 _ ltac:(lia) H1) as [Hm Hx].
  cbv zeta. split.
  - rewrite Hm. rewrite pow2_split by lia. change (2 ^ 1) with 2.
    rewrite <- Z.div_div by (try apply pow2_gt_0; lia).
    f_equal. symmetry. apply (Z.div_unique _ 2 q 1); lia.
  - intros F. apply loc_of_shr_record_exact, Hx in F.
    assert (H2 : (2 * q + 1) mod 2 = 1) by (symmetry; apply (Z.mod_unique _ 2 q 1); lia).
    rewrite pow2_split in F by lia. change (2 ^ 1) with 2 in F.
    rewrite Z.rem_mul_r in F by (try apply Z.pow_nonzero; lia).
    pose proof (Z.mod_pos_bound ((2 * q + 1) / 2) (2 ^ Zpos n)
                  ltac:(apply pow2_gt_0; lia)).
    lia.
Qed.

(** [binary_round_aux] on [q * 2^E] and what is known of the rest: the
    result is not above a float64 [mb * 2^eb] that the value was not above.
    Values are counted in units of [2^u]. *)
Lemma binary_round_aux_below (q E u : Z) (l : location) (mb : positive) (eb : Z) :
  bounded prec emax mb eb = true ->
  0 <= q -> u <= E -> u <= -1074 ->
  E <= fexp prec emax (Zdigits2 q + E) ->
  q * 2 ^ (E - u) <= Zpos mb * 2 ^ (eb - u) ->
  (l <> loc_Exact -> q * 2 ^ (E - u) < Zpos mb * 2 ^ (eb - u)) ->
  binary_round_aux prec emax false q E l = S754_zero false \/
  exists m' e',
    binary_round_aux prec emax false q E l = S754_finite false m' e' /\
    -1074 <= e' /\
    Zpos m' * 2 ^ (e' - u) <= Zpos mb * 2 ^ (eb - u).
Proof.
  intros Hb Hq Hu1 Hu2 Hshift Hle Hlt.
  destruct (bounded_inv _ _ Hb) as (Heb & Hdb & _).
  pose proof (digits2_pos_bounds mb) as [_ Hmb].
  assert (Hmb53 : Zpos mb < 2 ^ 53).
  { eapply Z.lt_le_trans; [exact Hmb | apply Z.pow_le_mono_r; lia]. }
  clear Hmb Hdb Hb.
  set (d := Zdigits2 q) in *.
  assert (Hd : 0 <= d /\ (0 < q -> 2 ^ (d - 1) <= q) /\ q < 2 ^ d).
  { unfold d. destruct q as [| p | p]; [simpl; lia | | lia].
    pose proof (digits2_pos_bounds p). cbn [Zdigits2]. lia. }
  destruct Hd as (Hd0 & Qlow & Qhigh).
  pose proof (fexp_eq (d + E)) as Hf.
  set (f := fexp prec emax (d + E)) in *.
  set (n := f - E).
  assert (Hn : 0 <= n) by (unfold n; lia).
  assert (H2n : 0 < 2 ^ n) by (apply pow2_gt_0; lia).
  set (Qlo := q / 2 ^ n).
  pose proof (Z.div_mod q (2 ^ n) ltac:(lia)) as Hdm. fold Qlo in Hdm.
  pose proof (Z.mod_pos_bound q (2 ^ n) H2n) as Hrem.
  assert (Q0 : 0 <= Qlo) by (apply Z.div_pos; lia).
  (* the first shift *)
  assert (Hshr : exists mrs', shr_fexp prec emax q E l = (mrs', f) /\
                              shr_m mrs' = Qlo /\
                              (loc_of_shr_record mrs' <> loc_Exact ->
                               l <> loc_Exact \/ q mod 2 ^ n <> 0)).
  { unfold shr_fexp, shr. fold d. fold f. fold n.
    destruct n as [| p | p] eqn:En; [| | lia].
    - exists (shr_record_of_loc q l). replace f with E by lia.
      split; [reflexivity |]. split.
      + rewrite shr_record_of_loc_m. unfold Qlo. rewrite Z.pow_0_r, Z.div_1_r. reflexivity.
      + rewrite loc_of_shr_record_of_loc. auto.
    - exists (iter_pos shr_1 p (shr_record_of_loc q l)).
      replace (E + Zpos p) with f by lia. split; [reflexivity |].
      destruct l as [| c] eqn:El.
      + cbn [shr_record_of_loc].
        pose proof (iter_shr_1_shifted q p Hq) as [Hm Hx].
        split; [exact Hm |]. intros Hne. right. intros Hz.
        apply Hne, loc_of_shr_record_exact, Hx, Hz.
      + destruct (iter_shr_1_inexact q (loc_Inexact c) p Hq ltac:(discriminate))
          as [Hm _].
        split; [exact Hm |]. intros _. left. discriminate. }
  destruct Hshr as (mrs' & Eshr & Hm & Hinexact).
  assert (Q53 : Qlo < 2 ^ 53).
  { apply Z.div_lt_upper_bound; [lia |]. rewrite <- pow2_split by lia.
    eapply Z.lt_le_trans; [exact Qhigh | apply Z.pow_le_mono_r; unfold n; lia]. }
  assert (Q52 : -1074 < f -> 2 ^ 52 <= Qlo).
  { intros Hnorm.
    assert (Hd53 : 53 <= d) by (unfold n in Hn; lia).
    assert (Hqpos : 0 < q).
    { destruct (Z.eq_dec q 0) as [Ez | ?]; [| lia]. subst q. unfold d in Hd53.
      simpl in Hd53. lia. }
    apply Z.div_le_lower_bound; [lia |]. rewrite <- pow2_split by lia.
    replace (n + 52) with (d - 1) by (unfold n; lia). apply Qlow, Hqpos. }
  (* the step of the result, in units of 2^u *)
  assert (HA : 0 < 2 ^ (E - u)) by (apply pow2_gt_0; lia).
  assert (HG : 2 ^ (f - u) = 2 ^ n * 2 ^ (E - u)).
  { rewrite <- pow2_split by lia. f_equal. unfold n. lia. }
  assert (HG0 : 0 < 2 ^ (f - u)) by (apply pow2_gt_0; lia).
  assert (Hlow : Qlo * 2 ^ (f - u) <= q * 2 ^ (E - u)).
  { rewrite HG, Z.mul_assoc. apply Z.mul_le_mono_nonneg_r; lia. }
  (* the step of the result is not coarser than that of the bound *)
  assert (Hfe : f <= eb).
  { destruct (Z.le_gt_cases f eb) as [? | Hgt]; [assumption | exfalso].
    specialize (Q52 ltac:(lia)).
    assert (Hp : 2 ^ (53 + (eb - u)) <= 2 ^ (52 + (f - u)))
      by (apply Z.pow_le_mono_r; lia).
    rewrite !pow2_split in Hp by lia.
    assert (Hb0 : 0 < 2 ^ (eb - u)) by (apply pow2_gt_0; lia).
    assert (Zpos mb * 2 ^ (eb - u) < 2 ^ 53 * 2 ^ (eb - u))
      by (apply Z.mul_lt_mono_pos_r; lia).
    assert (2 ^ 52 * 2 ^ (f - u) <= Qlo * 2 ^ (f - u))
      by (apply Z.mul_le_mono_nonneg_r; lia).
    lia. }
  assert (HK : 2 ^ (eb - u) = 2 ^ (eb - f) * 2 ^ (f - u)).
  { rewrite <- pow2_split by lia. f_equal. lia. }
  assert (HK0 : 0 < 2 ^ (eb - f)) by (apply pow2_gt_0; lia).
  unfold binary_round_aux. rewrite Eshr. cbv beta iota zeta. rewrite Hm.
  set (Q := round_nearest_even Qlo (loc_of_shr_record mrs')).
  assert (HQ : Q * 2 ^ (f - u) <= Zpos mb * 2 ^ (eb - u) /\ Qlo <= Q <= Qlo + 1).
  { destruct (round_nearest_even_cases Qlo (loc_of_shr_record mrs')) as [EQ | [EQ Hl]];
      fold Q in EQ; rewrite EQ; (split; [| lia]); [lia |].
    assert (Hstrict : Qlo * 2 ^ (f - u) < Zpos mb * 2 ^ (eb - u)).
    { destruct (Hinexact Hl) as [Hl0 | Hne].
      - specialize (Hlt Hl0). lia.
      - assert (Qlo * 2 ^ (f - u) < q * 2 ^ (E - u)); [| lia].
        rewrite HG, Z.mul_assoc. apply Z.mul_lt_mono_pos_r; lia. }
    rewrite HK, Z.mul_assoc in Hstrict |- *.
    assert (Hq' : Qlo < Zpos mb * 2 ^ (eb - f)).
    { apply (Z.mul_lt_mono_pos_r (2 ^ (f - u))); lia. }
    apply Z.mul_le_mono_nonneg_r; lia. }
  destruct HQ as [HQ HQr].
  destruct Q as [| r | r] eqn:EQ; [| | lia].
  - (* nothing is left of the mantissa *)
    left. unfold shr_fexp. cbn [Zdigits2 shr_record_of_loc].
    destruct (fexp prec emax (0 + f) - f) as [| p | p] eqn:Es;
      [reflexivity | | reflexivity].
    rewrite fexp_eq in Es. lia.
  - right. destruct (Z.eq_dec (Zpos r) (2 ^ 53)) as [Ecarry | Hnc].
    + (* the rounded mantissa has 54 digits: one more shift *)
      assert (Er : r = 9007199254740992%positive) by (injection Ecarry as ->; reflexivity).
      assert (Hfeb : f < eb).
      { destruct (Z.eq_dec f eb) as [Ee | ?]; [exfalso | lia].
        rewrite Ecarry, Ee in HQ.
        assert (Zpos mb * 2 ^ (eb - u) < 2 ^ 53 * 2 ^ (eb - u))
          by (apply Z.mul_lt_mono_pos_r; [apply pow2_gt_0 |]; lia).
        lia. }
      rewrite (shr_fexp_shift r f 1).
      * subst r. cbn [iter_pos shr_1 shr_m].
        exists 4503599627370496%positive, (f + 1).
        replace (f + 1 <=? emax - prec) with true
          by (symmetry; apply Z.leb_le; change (emax - prec) with 971; lia).
        split; [reflexivity |]. split; [lia |].
        replace (f + 1 - u) with (1 + (f - u)) by lia.
        rewrite pow2_split by lia. rewrite Ecarry in HQ.
        change (2 ^ 53) with (4503599627370496 * 2 ^ 1) in HQ. lia.
      * subst r. change (Zpos (digits2_pos 9007199254740992)) with 54.
        rewrite fexp_eq. lia.
    + assert (Dr : Zpos (digits2_pos r) <= 53).
      { pose proof (digits2_pos_bounds r) as [Dlo _].
        destruct (Z.le_gt_cases (Zpos (digits2_pos r)) 53) as [? | Hgt]; [assumption |].
        exfalso.
        assert (2 ^ 53 <= 2 ^ (Zpos (digits2_pos r) - 1)) by (apply Z.pow_le_mono_r; lia).
        lia. }
      rewrite (shr_fexp_no_shift r f) by (rewrite fexp_eq; lia).
      cbn [shr_m].
      exists r, f.
      replace (f <=? emax - prec) with true
        by (symmetry; apply Z.leb_le; change (emax - prec) with 971; lia).
      split; [reflexivity |]. split; [lia | exact HQ].
Qed.

(** The product of a positive float64 below 1 and 100. *)
Lemma mul_100_below (mx : positive) (ex : Z) :
  bounded prec emax mx ex = true ->
  Zpos mx * 2 ^ (ex + 1074) < 2 ^ 1074 ->
  let product := SF64mul (S754_finite false mx ex) (Prim2SF 100) in
  product = S754_zero false \/
  exists m' e', product = S754_finite false m' e' /\
                Zpos m' * 2 ^ (e' + 1074) <= 7036874417766400 * 2 ^ 1028.
Proof.
  intros Hb Hlt. cbv zeta.
  change (Prim2SF 100) with (S754_finite false 7036874417766400 (-46)).
  unfold SF64mul, SFmul. cbn [xorb].
  destruct (bounded_inv _ _ Hb) as (Hex & Hdx & Hnorm).
  pose proof (digits2_pos_bounds mx) as [Xlo Xhi].
  set (dx := Zpos (digits2_pos mx)) in *.
  assert (Hdx0 : 0 < dx) by (unfold dx; lia).
  pose proof (digits2_pos_bounds (mx * 7036874417766400)) as [Plo Phi].
  set (dM := Zpos (digits2_pos (mx * 7036874417766400))) in *.
  assert (HdM : dx + 52 <= dM).
  { destruct (Z.le_gt_cases (dx + 52) dM) as [? | Hgt]; [assumption | exfalso].
    assert (2 ^ dM <= 2 ^ (dx + 51)) by (apply Z.pow_le_mono_r; lia).
    replace (dx + 51) with ((dx - 1) + 52) in H by lia.
    rewrite pow2_split in H by lia.
    rewrite Pos2Z.inj_mul in Phi.
    change (Zpos 7036874417766400) with (25 * 2 ^ 48) in Phi.
    change (2 ^ 52) with (16 * 2 ^ 48) in H.
    assert (0 < 2 ^ 48) by (apply pow2_gt_0; lia). nia. }
  destruct (binary_round_aux_below (Zpos (mx * 7036874417766400)) (ex + -46) (-1120)
              loc_Exact 7036874417766400 (-46)) as [E0 | (m' & e' & E1 & He' & Hk)].
  - reflexivity.
  - lia.
  - lia.
  - lia.
  - cbn [Zdigits2]. fold dM. rewrite fexp_eq.
    destruct (Z.eq_dec ex (-1074)) as [-> | Hne]; [lia |].
    rewrite Hnorm in HdM by lia. lia.
  - rewrite Pos2Z.inj_mul.
    replace (ex + -46 - -1120) with (ex + 1074) by lia.
    change (-46 - -1120) with 1074.
    rewrite (Z.mul_comm (Zpos mx)), <- Z.mul_assoc.
    apply Z.mul_le_mono_nonneg_l; lia.
  - intros F. contradiction.
  - left. exact E0.
  - right. exists m', e'. split; [exact E1 |].
    change (-46 - -1120) with (1028 + 46) in Hk.
    replace (e' - -1120) with ((e' + 1074) + 46) in Hk by lia.
    rewrite !pow2_split in Hk by lia. rewrite !Z.mul_assoc in Hk.
    apply (Z.mul_le_mono_pos_r _ _ (2 ^ 46)); [apply pow2_gt_0; lia | exact Hk].
Qed.

Lemma mul_100_range (r : float64) :
  (0 <=? r)%float = true -> (r <? 1)%float = true -> between_0_and_100 (r * 100)%float.
Proof.
  unfold between_0_and_100. rewrite !leb_key, ltb_key. intros H0 H1.
  apply andb_true_iff in H0, H1. destruct H0 as [H0 K0], H1 as [H1 K1].
  apply andb_true_iff in H1. destruct H1 as [Nr _]. apply negb_true_iff in Nr.
  apply Z.leb_le in K0. apply Z.ltb_lt in K1.
  change (key 0%float) with 0 in *.
  assert (E1 : key 1%float = 2 ^ 1074) by (vm_compute; reflexivity).
  assert (E100 : key 100%float = 7036874417766400 * 2 ^ 1028) by (vm_compute; reflexivity).
  rewrite E1 in K1. rewrite E100. clear E1 E100.
  change (isNaN 0%float) with false. change (isNaN 100%float) with false.
  assert (P : Prim2SF (r * 100)%float = S754_zero false \/
              Prim2SF (r * 100)%float = S754_zero true \/
              exists m' e', Prim2SF (r * 100)%float = S754_finite false m' e' /\
                            Zpos m' * 2 ^ (e' + 1074) <= 7036874417766400 * 2 ^ 1028).
  { rewrite FloatAxioms.mul_spec. pose proof (Prim2SF_valid r) as V.
    unfold key in K0, K1. pose proof key_inf_pos as Kp.
    assert (Hinf : 2 ^ 1074 < key_inf) by (unfold key_inf; apply Z.pow_lt_mono_r; lia).
    destruct (Prim2SF r) as [s | s | | s mx ex] eqn:Er.
    - change (Prim2SF 100) with (S754_finite false 7036874417766400 (-46)).
      destruct s; simpl; auto.
    - cbn [SFkey] in K0, K1. destruct s; lia.
    - apply isNaN_false in Nr. contradiction.
    - simpl in V. pose proof (finite_key_bounds _ _ V) as B.
      cbn [SFkey] in K0, K1. destruct s; [lia |].
      destruct (mul_100_below mx ex V K1) as [-> | Hm]; auto. }
  assert (Hp : 0 <= 7036874417766400 * 2 ^ 1028)
    by (apply Z.mul_nonneg_nonneg; [lia | apply Z.pow_nonneg; lia]).
  assert (N : isNaN (r * 100)%float = false).
  { apply isNaN_false. destruct P as [-> | [-> | (m' & e' & -> & _)]]; discriminate. }
  rewrite N. cbn [negb andb]. unfold key.
  destruct P as [-> | [-> | (m' & e' & -> & Hk)]]; cbn [SFkey];
    split; apply Z.leb_le; lia.
Qed.

(** ** Sums and the mean of five samples *)

Lemma leb_zero_key (x : float64) :
  (0 <=? x)%float = true <-> isNaN x = false /\ 0 <= key x.
Proof.
  rewrite leb_key. change (isNaN 0%float) with false. change (key 0%float) with 0.
  cbn [negb andb]. rewrite andb_true_iff, negb_true_iff, Z.leb_le. tauto.
Qed.

(** A sum of two numbers that are not negative stays below a float64 that
    the exact sum is not above. *)
Lemma add_below (x y b : float64) (mb : positive) (eb : Z) :
  Prim2SF b = S754_finite false mb eb ->
  (0 <=? x)%float = true -> (0 <=? y)%float = true ->
  key x + key y <= key b ->
  (0 <=? x + y)%float = true /\ key (x + y)%float <= key b.
Proof.
  intros Eb Hx Hy Hle.
  apply leb_zero_key in Hx, Hy. destruct Hx as [Nx Kx], Hy as [Ny Ky].
  pose proof (Prim2SF_valid b) as Vb. rewrite Eb in Vb. simpl in Vb.
  pose proof (finite_key_bounds _ _ Vb) as Bb.
  assert (Kb : key b = Zpos mb * 2 ^ (eb + 1074)) by (unfold key; rewrite Eb; reflexivity).
  rewrite Kb in Hle |- *.
  apply isNaN_false in Nx, Ny.
  pose proof (Prim2SF_valid x) as Vx. pose proof (Prim2SF_valid y) as Vy.
  assert (P : exists r, Prim2SF (x + y)%float = r /\ r <> S754_nan /\
                        0 <= SFkey r <= Zpos mb * 2 ^ (eb + 1074)).
  { rewrite FloatAxioms.add_spec. unfold key in Kx, Ky, Hle.
    destruct (Prim2SF x) as [sx | sx | | sx mx ex]; [| | contradiction |].
    - rewrite SF64add_zero_l.
      destruct (Prim2SF y) as [sy | sy | | sy my ey]; [| | contradiction |];
        eexists; (split; [reflexivity |]); (split; [discriminate |]);
        cbn [SFkey] in *; lia.
    - exfalso. cbn [SFkey] in *. pose proof key_inf_pos. destruct sx; lia.
    - destruct (Prim2SF y) as [sy | sy | | sy my ey]; [| | contradiction |].
      + rewrite SF64add_zero_r. eexists. split; [reflexivity |].
        split; [discriminate |]. cbn [SFkey] in *. lia.
      + exfalso. cbn [SFkey] in *. pose proof key_inf_pos.
        simpl in Vx. pose proof (finite_key_bounds _ _ Vx). destruct sx, sy; lia.
      + simpl in Vx, Vy.
        pose proof (finite_key_bounds _ _ Vx) as Bx.
        pose proof (finite_key_bounds _ _ Vy) as By.
        cbn [SFkey] in Kx, Ky, Hle.
        destruct sx; [lia |]. destruct sy; [lia |].
        pose proof (bounded_inv _ _ Vx) as (Hex & _).
        pose proof (bounded_inv _ _ Vy) as (Hey & _).
        unfold SF64add, SFadd. cbv zeta. rewrite binary_normalize_cases.
        set (ez := Z.min ex ey).
        pose proof (aligned_value mx ex ez ltac:(lia)) as HX.
        pose proof (aligned_value my ey ez ltac:(lia)) as HY.
        unfold cond_Zopp.
        set (X := Zpos (fst (shl_align mx ex ez))) in *.
        set (Y := Zpos (fst (shl_align my ey ez))) in *.
        assert (HX0 : 0 < X) by (unfold X; lia). assert (HY0 : 0 < Y) by (unfold Y; lia).
        destruct (X + Y) as [| p | p] eqn:E; [lia | | lia].
        pose proof (binary_round_rounds false p ez ltac:(lia)) as R.
        destruct (rounds_to_below _ _ _ mb eb R Vb) as (m' & e' & -> & Hk).
        * rewrite <- E, Z.mul_add_distr_r, HX, HY. exact Hle.
        * eexists. split; [reflexivity |]. split; [discriminate |]. cbn [SFkey].
          split; [| exact Hk].
          apply Z.mul_nonneg_nonneg; [lia | apply Z.pow_nonneg; lia]. }
  destruct P as (r & Er & Nr & Kr).
  unfold key. rewrite Er. split; [| lia].
  apply leb_zero_key. split; [apply isNaN_false; rewrite Er; exact Nr |].
  unfold key. rewrite Er. lia.
Qed.

Lemma new_location_exact (steps : Z) : new_location steps 0 = loc_Exact.
Proof. unfold new_location. destruct (Z.even steps); reflexivity. Qed.

(** A quotient stays below a float64 that the exact quotient is not
    above. *)
Lemma SF64div_below (mx my mb : positive) (ex ey eb u : Z) :
  bounded prec emax mb eb = true ->
  u <= -1074 -> u <= ex - ey ->
  Zpos mx * 2 ^ (ex - ey - u) <= Zpos mb * Zpos my * 2 ^ (eb - u) ->
  let quotient := SF64div (S754_finite false mx ex) (S754_finite false my ey) in
  quotient = S754_zero false \/
  exists m' e', quotient = S754_finite false m' e' /\ -1074 <= e' /\
                Zpos m' * 2 ^ (e' - u) <= Zpos mb * 2 ^ (eb - u).
Proof.
  intros Hb Hu1 Hu2 Hle. cbv zeta.
  unfold SF64div, SFdiv. cbn [xorb]. unfold SFdiv_core_binary. cbn [Zdigits2].
  pose proof (digits2_pos_bounds mx) as [X1 X2].
  pose proof (digits2_pos_bounds my) as [Y1 Y2].
  set (d1 := Zpos (digits2_pos mx)) in *. set (d2 := Zpos (digits2_pos my)) in *.
  assert (Hd1 : 0 < d1) by (unfold d1; lia). assert (Hd2 : 0 < d2) by (unfold d2; lia).
  pose proof (fexp_eq (d1 + ex - (d2 + ey))) as Hf.
  set (e' := Z.min (fexp prec emax (d1 + ex - (d2 + ey))) (ex - ey)) in *.
  set (s := ex - ey - e').
  assert (Hs : 0 <= s) by (unfold s, e'; lia).
  set (m' := match s with
             | 0 => Zpos mx
             | Zpos _ => Z.shiftl (Zpos mx) s
             | Zneg _ => 0
             end).
  assert (Em : m' = Zpos mx * 2 ^ s).
  { unfold m'. destruct s as [| p | p] eqn:Es; [rewrite Z.pow_0_r; lia | | lia].
    apply Z.shiftl_mul_pow2. lia. }
  assert (H2s : 0 < 2 ^ s) by (apply pow2_gt_0; lia).
  pose proof (Z_div_mod m' (Zpos my) ltac:(lia)) as Hdiv.
  destruct (Z.div_eucl m' (Zpos my)) as [q r]. destruct Hdiv as [Hm' Hr].
  assert (Hq : 0 <= q) by nia.
  assert (Hvalue : m' * 2 ^ (e' - u) = Zpos mx * 2 ^ (ex - ey - u)).
  { rewrite Em, <- Z.mul_assoc, <- pow2_split by (unfold e' in *; lia).
    do 2 f_equal. unfold s. lia. }
  assert (He'u : 0 < 2 ^ (e' - u)) by (apply pow2_gt_0; unfold e'; lia).
  apply binary_round_aux_below.
  - exact Hb.
  - exact Hq.
  - unfold e'. lia.
  - exact Hu1.
  - (* the quotient has the digits the exponent was chosen for *)
    assert (Hdq : d1 + s - d2 <= Zdigits2 q).
    { destruct (Z.le_gt_cases (d1 + s - d2) 0) as [Hk | Hk].
      - destruct q as [| p | p]; cbn [Zdigits2]; lia.
      - assert (Hlow : 2 ^ (d1 + s - d2 - 1) <= q).
        { assert (Hml : 2 ^ (d1 + s - d2 - 1) * 2 ^ d2 <= m').
          { rewrite <- pow2_split by lia. rewrite Em.
            replace (d1 + s - d2 - 1 + d2) with ((d1 - 1) + s) by lia.
            rewrite pow2_split by lia. apply Z.mul_le_mono_nonneg_r; lia. }
          assert (Hp : 0 < 2 ^ (d1 + s - d2 - 1)) by (apply pow2_gt_0; lia).
          destruct (Z.le_gt_cases (2 ^ (d1 + s - d2 - 1)) q) as [? | Hgt]; [assumption |].
          exfalso. assert (q + 1 <= 2 ^ (d1 + s - d2 - 1)) by lia. nia. }
        assert (Hqpos : 0 < q)
          by (pose proof (pow2_gt_0 (d1 + s - d2 - 1) ltac:(lia)); lia).
        destruct q as [| p | p]; [lia | | lia]. cbn [Zdigits2].
        pose proof (digits2_pos_bounds p) as [_ Phi].
        destruct (Z.le_gt_cases (d1 + s - d2) (Zpos (digits2_pos p))) as [? | Hgt];
          [assumption | exfalso].
        assert (2 ^ Zpos (digits2_pos p) <= 2 ^ (d1 + s - d2 - 1))
          by (apply Z.pow_le_mono_r; lia).
        lia. }
    rewrite fexp_eq. unfold e' at 1. unfold s in Hdq. lia.
  - apply (Z.mul_le_mono_pos_l _ _ (Zpos my)); [lia |].
    replace (Zpos my * (Zpos mb * 2 ^ (eb - u))) with (Zpos mb * Zpos my * 2 ^ (eb - u))
      by lia.
    eapply Z.le_trans; [| exact Hle]. rewrite <- Hvalue.
    rewrite Z.mul_assoc. apply Z.mul_le_mono_nonneg_r; lia.
  - intros Hl.
    assert (Hr0 : 0 < r).
    { destruct (Z.eq_dec r 0) as [-> | ?]; [| lia].
      exfalso. apply Hl, new_location_exact. }
    apply (Z.mul_lt_mono_pos_l (Zpos my)); [lia |].
    replace (Zpos my * (Zpos mb * 2 ^ (eb - u))) with (Zpos mb * Zpos my * 2 ^ (eb - u))
      by lia.
    eapply Z.lt_le_trans; [| exact Hle]. rewrite <- Hvalue.
    rewrite Z.mul_assoc. apply Z.mul_lt_mono_pos_r; lia.
Qed.

(** The mean of five numbers between 0 and 100. *)
Lemma calculateMean_range (values : list float64) :
  List.length values = 5%nat -> Forall between_0_and_100 values ->
  between_0_and_100 (calculateMean values).
Proof.
  intros Hlen Hall.
  destruct values as [| v1 [| v2 [| v3 [| v4 [| v5 [| v6 rest]]]]]]; try discriminate.
  clear Hlen.
  assert (Hv : forall value, In value [v1; v2; v3; v4; v5] ->
                             (0 <=? value)%float = true /\ key value <= key 100%float).
  { intros value Hin. rewrite Forall_forall in Hall. destruct (Hall value Hin) as [H0 H1].
    split; [exact H0 |]. rewrite leb_key in H1. apply andb_true_iff in H1.
    apply Z.leb_le, H1. }
  destruct (Hv v1 ltac:(simpl; tauto)) as [P1 K1].
  destruct (Hv v2 ltac:(simpl; tauto)) as [P2 K2].
  destruct (Hv v3 ltac:(simpl; tauto)) as [P3 K3].
  destruct (Hv v4 ltac:(simpl; tauto)) as [P4 K4].
  destruct (Hv v5 ltac:(simpl; tauto)) as [P5 K5].
  clear Hv Hall.
  assert (E100 : key 100%float = 25 * 2 ^ 1076) by (vm_compute; reflexivity).
  assert (E200 : key 200%float = 50 * 2 ^ 1076) by (vm_compute; reflexivity).
  assert (E300 : key 300%float = 75 * 2 ^ 1076) by (vm_compute; reflexivity).
  assert (E400 : key 400%float = 100 * 2 ^ 1076) by (vm_compute; reflexivity).
  assert (E500 : key 500%float = 125 * 2 ^ 1076) by (vm_compute; reflexivity).
  assert (P0 : (0 <=? 0)%float = true) by reflexivity.
  assert (K0 : key 0%float = 0) by reflexivity.
  unfold calculateMean. cbn [fold_left].
  destruct (add_below 0%float v1 100%float _ _ eq_refl P0 P1 ltac:(lia)) as [Q1 S1].
  destruct (add_below _ v2 200%float _ _ eq_refl Q1 P2 ltac:(lia)) as [Q2 S2].
  destruct (add_below _ v3 300%float _ _ eq_refl Q2 P3 ltac:(lia)) as [Q3 S3].
  destruct (add_below _ v4 400%float _ _ eq_refl Q3 P4 ltac:(lia)) as [Q4 S4].
  destruct (add_below _ v5 500%float _ _ eq_refl Q4 P5 ltac:(lia)) as [Q5 S5].
  set (sum := (0 + v1 + v2 + v3 + v4 + v5)%float) in *.
  clear - Q5 S5 E100 E500.
  change (float64_of_int (len [v1; v2; v3; v4; v5])) with (float64_of_int 5).
  apply leb_zero_key in Q5. destruct Q5 as [Ns Ks].
  assert (P : (exists s, Prim2SF (sum / float64_of_int 5)%float = S754_zero s) \/
              exists m' e', Prim2SF (sum / float64_of_int 5)%float = S754_finite false m' e' /\
                            Zpos m' * 2 ^ (e' + 1074) <= 25 * 2 ^ 1076).
  { rewrite FloatAxioms.div_spec.
    change (Prim2SF (float64_of_int 5)) with (S754_finite false 5629499534213120 (-50)).
    pose proof (Prim2SF_valid sum) as Vs. apply isNaN_false in Ns.
    rewrite E500 in S5. unfold key in Ks, S5.
    destruct (Prim2SF sum) as [ss | ss | | ss ms es]; [| | contradiction |].
    - left. exists ss. destruct ss; reflexivity.
    - exfalso. cbn [SFkey] in *. pose proof key_inf_pos.
      assert (125 * 2 ^ 1076 < key_inf).
      { unfold key_inf. change 125 with (125 * 1).
        assert (2 ^ 1076 * 2 ^ 7 <= 2 ^ 2200)
          by (rewrite <- pow2_split by lia; apply Z.pow_le_mono_r; lia).
        assert (0 < 2 ^ 1076) by (apply pow2_gt_0; lia). change (2 ^ 7) with 128 in *. lia. }
      destruct ss; lia.
    - simpl in Vs. pose proof (finite_key_bounds _ _ Vs) as Bs.
      cbn [SFkey] in Ks, S5. destruct ss; [lia |].
      pose proof (bounded_inv _ _ Vs) as (Hes & _).
      destruct (SF64div_below ms 5629499534213120 7036874417766400 es (-50) (-46) (-1074))
        as [E0 | (m' & e' & E1 & He' & Hk)].
      + reflexivity.
      + lia.
      + lia.
      + replace (es - -50 - -1074) with ((es + 1074) + 50) by lia.
        change (-46 - -1074) with 1028.
        rewrite pow2_split by lia.
        change (Zpos 7036874417766400 * Zpos 5629499534213120 * 2 ^ 1028)
          with (125 * 2 ^ 1076 * 2 ^ 50).
        rewrite Z.mul_assoc. apply Z.mul_le_mono_nonneg_r; [apply Z.pow_nonneg |]; lia.
      + left. exists false. exact E0.
      + right. exists m', e'. split; [exact E1 |].
        replace (e' - -1074) with (e' + 1074) in Hk by lia.
        change (Zpos 7036874417766400 * 2 ^ (-46 - -1074)) with (25 * 2 ^ 1076) in Hk.
        exact Hk. }
  unfold between_0_and_100. rewrite !leb_key.
  change (isNaN 0%float) with false. change (isNaN 100%float) with false.
  change (key 0%float) with 0. rewrite E100.
  assert (N : isNaN (sum / float64_of_int 5)%float = false).
  { apply isNaN_false. destruct P as [[s ->] | (m' & e' & -> & _)]; discriminate. }
  rewrite N. cbn [negb andb]. unfold key.
  assert (0 <= 25 * 2 ^ 1076) by (apply Z.mul_nonneg_nonneg; [lia | apply Z.pow_nonneg; lia]).
  destruct P as [[s ->] | (m' & e' & -> & Hk)]; cbn [SFkey]; split; apply Z.leb_le; lia.
Qed.

Section GeneratorRange.

Variable rng : Type.
Variable Float64 : rng -> float64 * rng.

(** What [math/rand] promises of [rand.Float64]: a number in [0.0, 1.0). *)
Hypothesis Float64_range :
  forall src, (0 <=? fst (Float64 src))%float = true /\
              (fst (Float64 src) <? 1)%float = true.

Lemma generateValues_range (count : nat) (values : list float64) (src : rng) :
  Forall between_0_and_100 values ->
  Forall between_0_and_100 (fst (generateValues rng Float64 count values src)).
Proof.
  revert values src. induction count as [| count IH]; intros values src H; simpl.
  - exact H.
  - apply IH. apply Forall_app. split; [exact H |]. constructor; [| constructor].
    destruct (Float64_range src) as [H0 H1]. apply mul_100_range; assumption.
Qed.

(** X16. With [rand.Float64] returning numbers from 0 up to but not
    including 1, every sample of every block the generator appends lies
    between 0 and 100, the product by 100 being rounded: no sample is
    negative, above 100, infinite or a NaN.  So do the median and the mean
    the block stores, under every order of the goroutines and with every
    sum and the quotient rounded. *)
Theorem generated_values_in_range (ticks : list (list goroutine * Time)) (src src' : rng)
        (bc bc' : Blockchain) :
  Forall (fun tick => Permutation (fst tick) goroutines) ticks ->
  generateValuesAndAddToBlockchain rng Float64 ticks src bc = Done (bc', src') ->
  forall n b, (List.length bc <= n)%nat -> nth_error bc' n = Some b ->
    Forall (fun value => between_0_and_100 value /\ isNaN value = false) (Values b) /\
    between_0_and_100 (Median b) /\
    between_0_and_100 (Mean b).
Proof.
  intros Hp. revert src bc.
  induction Hp as [| tick rest Ptick _ IH]; intros src bc Hrun n b Hn Hb.
  - injection Hrun as <- _.
    assert (n < List.length bc)%nat by (apply nth_error_Some; congruence). lia.
  - cbn [generateValuesAndAddToBlockchain] in Hrun. apply bind_Done in Hrun.
    destruct Hrun as (bc1 & H1 & Hrun).
    pose proof (AddBlock_length _ _ _ _ _ H1) as Hl1.
    destruct (Nat.eq_dec n (List.length bc)) as [-> | Hneq];
      [| apply (IH _ _ Hrun n b); [lia | exact Hb]].
    destruct (AddBlock_new_block _ _ _ _ _ Ptick H1) as (nb & E1 & _ & Hvalues & Hm & _).
    assert (Hnb : nth_error bc1 (List.length bc) = Some nb).
    { rewrite E1, nth_error_app2 by (rewrite markBlocksWithOutliers_length; lia).
      rewrite markBlocksWithOutliers_length, Nat.sub_diag. reflexivity. }
    destruct (generator_keeps _ _ _ _ _ _ _ Hrun _ _ Hnb) as (b' & Hb' & Ev & Em & Ea).
    rewrite Hb in Hb'. injection Hb' as <-. rewrite Ev, Em, Ea.
    pose proof (AddBlock_new_block_Mean _ _ _ _ _ _ Ptick H1 E1) as Hmean.
    pose proof (generateValues_range 5 [] src (Forall_nil _)) as Hr.
    rewrite Forall_forall in Hr.
    assert (Hall : forall value, In value (Values nb) -> between_0_and_100 value).
    { intros value Hv. rewrite Hvalues in Hv.
      apply (Permutation_in _ (sort_Float64s_Permutation _)) in Hv. apply Hr, Hv. }
    split.
    + apply Forall_forall. intros value Hv. split; [apply Hall, Hv |].
      destruct (Hall value Hv) as [H0 _].
      rewrite leb_key in H0. apply andb_true_iff in H0. destruct H0 as [H0 _].
      apply andb_true_iff in H0. destruct H0 as [_ H0]. apply negb_true_iff, H0.
    + pose proof (generateValues_length rng Float64 5 [] src) as Hfive.
      change (0 + 5)%nat with 5%nat in Hfive.
      split.
      * apply Hall.
        apply (calculateMedian_odd_member (Values nb) (Values nb)); [| exact Hm].
        unfold len.
        rewrite Hvalues, (Permutation_length (sort_Float64s_Permutation _)), Hfive.
        reflexivity.
      * destruct Hmean as [-> | ->]; apply calculateMean_range.
        -- exact Hfive.
        -- apply Forall_forall, Hr.
        -- rewrite (Permutation_length (sort_Float64s_Permutation _)). exact Hfive.
        -- apply Forall_forall. intros value Hv. apply Hr.
           apply (Permutation_in _ (sort_Float64s_Permutation _)), Hv.
Qed.

End GeneratorRange.

Lemma example_Float64_range (src : Z) :
  (0 <=? fst (example_Float64 src))%float = true /\
  (fst (example_Float64 src) <? 1)%float = true.
Proof. unfold example_Float64. destruct (Z.even src); split; reflexivity. Qed.

Lemma generated_values_in_range_witness :
  exists bc' src',
    generateValuesAndAddToBlockchain Z example_Float64
      [(goroutines, mkTime 1700000005 0)] 1 example_chain = Done (bc', src') /\
    forall n b, (List.length example_chain <= n)%nat -> nth_error bc' n = Some b ->
      Forall (fun value => between_0_and_100 value /\ isNaN value = false) (Values b) /\
      between_0_and_100 (Median b) /\
      between_0_and_100 (Mean b).
Proof.
  assert (E : exists bc' src',
             generateValuesAndAddToBlockchain Z example_Float64
               [(goroutines, mkTime 1700000005 0)] 1 example_chain = Done (bc', src')).
  { vm_compute. do 2 eexists. reflexivity. }
  destruct E as (bc' & src' & Hrun).
  exists bc', src'. split; [exact Hrun |].
  apply (generated_values_in_range Z example_Float64 example_Float64_range
           [(goroutines, mkTime 1700000005 0)] 1 src' example_chain bc').
  - repeat constructor.
  - exact Hrun.
Defined.
